(** * Alconna: a shallow embedding of the analyser engine

    The definitions below follow [src/arclet/alconna/util.py] and
    [src/arclet/alconna/_internal/_handlers.py] function by function.
    Python exceptions are values of [exn]; a call that may raise returns a
    [res]; code that mutates the argument vector or the analyser threads the
    mutated object explicitly, and an exception keeps the mutations made
    before it was raised. *)

From Stdlib Require Import QArith Ascii String.
From stdpp Require Import gmap strings list fin_maps sorting pretty.

Open Scope nat_scope.

#[local] Set Warnings "-register-all".

(** ** Exceptions and results *)

(** [FuzzyMatchSuccess] carries the two strings that the source passes to the
    message template as [source=...] and [target=...]. *)
Inductive exn : Type :=
  | InvalidParam
  | ArgumentMissing
  | FuzzyMatchSuccess (source target : string)
  | SpecialOptionTriggered (which : string)
  | KeyError
  | IndexError
  | TypeError
  | AttributeError
  | ZeroDivisionError
  | OverflowError.

Inductive res (A : Type) : Type :=
  | Ok (a : A)
  | Raise (e : exn).
Arguments Ok {A} a.
Arguments Raise {A} e.

#[global] Instance exn_eq_dec : EqDecision exn.
Proof. solve_decision. Defined.

(** ** util.py: [levenshtein_norm] *)

Module Levenshtein.

(** [matrix[i][j]] for a list of rows. *)
Definition mget (matrix : list (list nat)) (i j : nat) : nat :=
  nth j (nth i matrix []) 0.

(** [matrix[i][j] = v]. *)
Definition mset (matrix : list (list nat)) (i j v : nat) : list (list nat) :=
  <[i := <[j := v]> (nth i matrix [])]> matrix.

(** [[[(i if j == 0 else j) for j in t_range] for i in s_range]]. *)
Definition init_matrix (l_s l_t : nat) : list (list nat) :=
  (fun i => (fun j => if Nat.eqb j 0 then i else j) <$> seq 0 (S l_t)) <$> seq 0 (S l_s).

(** [0 if source[i - 1] == target[j - 1] else 1]. *)
Definition cost (source target : string) (i j : nat) : nat :=
  if decide (String.get (i - 1) source = String.get (j - 1) target) then 0 else 1.

(** The body of the inner loop, for one [j]. *)
Definition inner_step (source target : string) (i : nat)
    (matrix : list (list nat)) (j : nat) : list (list nat) :=
  let sub_distance := mget matrix (i - 1) (j - 1) + cost source target i j in
  mset matrix i j
    (Nat.min (Nat.min (mget matrix (i - 1) j + 1) (mget matrix i (j - 1) + 1)) sub_distance).

(** The body of the outer loop, for one [i]: [for j in t_range[1:]]. *)
Definition outer_step (source target : string) (l_t : nat)
    (matrix : list (list nat)) (i : nat) : list (list nat) :=
  foldl (inner_step source target i) matrix (seq 1 l_t).

(** The matrix after both loops. *)
Definition fill_matrix (source target : string) : list (list nat) :=
  let l_s := String.length source in
  let l_t := String.length target in
  foldl (outer_step source target l_t) (init_matrix l_s l_t) (seq 1 l_s).

(** [1 - float(matrix[l_s][l_t]) / max(l_s, l_t)]; the quotient of the two
    integers is kept as an exact rational, and dividing by zero raises. *)
Definition levenshtein_norm (source target : string) : res Q :=
  let l_s := String.length source in
  let l_t := String.length target in
  let matrix := fill_matrix source target in
  if Nat.eqb (Nat.max l_s l_t) 0 then Raise ZeroDivisionError
  else Ok (1 - (Z.of_nat (mget matrix l_s l_t) # Pos.of_nat (Nat.max l_s l_t)))%Q.

(** The edit distance of the prefixes of length [i] and [j], by the usual
    recurrence; the loops are shown to compute it. *)
Fixpoint dist (source target : string) (i j : nat) {struct i} : nat :=
  match i with
  | 0 => j
  | S i' =>
      (fix row (j : nat) : nat :=
         match j with
         | 0 => S i'
         | S j' =>
             Nat.min (Nat.min (dist source target i' (S j') + 1) (row j' + 1))
               (dist source target i' j' + cost source target (S i') (S j'))
         end) j
  end.

(** What the proof that the loops compute [dist] keeps track of. *)
Section Invariant.
Variables (source target : string) (l_s l_t : nat).

(** The matrix has [l_s + 1] rows of [l_t + 1] cells. *)
Definition shaped (m : list (list nat)) : Prop :=
  length m = S l_s /\ forall i, i <= l_s -> length (nth i m []) = S l_t.

(** The cells already written when the loops are at row [i], column [j]. *)
Definition filled (i j i' j' : nat) : Prop :=
  i' = 0 \/ j' = 0 \/ i' < i \/ (i' = i /\ j' <= j).

(** The cells written so far hold the distances of the prefixes. *)
Definition inv (i j : nat) (m : list (list nat)) : Prop :=
  shaped m /\
  forall i' j', i' <= l_s -> j' <= l_t -> filled i j i' j' ->
    mget m i' j' = dist source target i' j'.

End Invariant.

End Levenshtein.

(** ** Python dictionaries *)

Module PyDict.

(** A [dict] keeps its keys in insertion order; so does an [OrderedDict].
    Keys are unique and the head is the oldest entry. *)
Section OrderedDict.
Context {K V : Type} `{EqDecision K}.

Definition od_keys (d : list (K * V)) : list K := fst <$> d.

(** [key in d] *)
Definition od_mem (key : K) (d : list (K * V)) : bool :=
  bool_decide (key ∈ od_keys d).

(** [d[key]] *)
Fixpoint od_get (key : K) (d : list (K * V)) : option V :=
  match d with
  | [] => None
  | (k, v) :: d' => if decide (k = key) then Some v else od_get key d'
  end.

(** [d.pop(key)], the dictionary that is left. *)
Fixpoint od_remove (key : K) (d : list (K * V)) : list (K * V) :=
  match d with
  | [] => []
  | (k, v) :: d' => if decide (k = key) then d' else (k, v) :: od_remove key d'
  end.

(** [d[key] = value]: a present key keeps its place, a new one goes last. *)
Fixpoint od_set (key : K) (value : V) (d : list (K * V)) : list (K * V) :=
  match d with
  | [] => [(key, value)]
  | (k, v) :: d' =>
      if decide (k = key) then (k, value) :: d' else (k, v) :: od_set key value d'
  end.

(** [d.move_to_end(key)] for a present key. *)
Definition od_move_to_end (key : K) (d : list (K * V)) : list (K * V) :=
  match od_get key d with
  | Some v => od_remove key d ++ [(key, v)]
  | None => d
  end.

End OrderedDict.

End PyDict.

(** ** util.py: [LruCache] *)

Module LruCache.
Import PyDict.

(** [timedelta(seconds=expiration)] for an integer [expiration]: the
    constructor raises [OverflowError] when the number of whole days,
    [expiration // 86400], is beyond 999999999 either way. *)
Definition timedelta_fits (seconds : Z) : bool :=
  bool_decide (-999999999 ≤ seconds `div` 86400)%Z &&
  bool_decide (seconds `div` 86400 ≤ 999999999)%Z.

Section Cache.
Context {K V : Type} `{Countable K}.

(** The slots of the class. [record] maps a key to its expiration in
    seconds; the time stamp stored next to it is not modelled. *)
Record t : Type := mk {
  max_size : Z;
  cache : list (K * V);
  record : gmap K Z;
  size_ : Z;   (* [__size] *)
}.

(** [__init__] *)
Definition init (max_size : Z) : t :=
  {| max_size := max_size; cache := []; record := ∅; size_ := 0 |}.

(** [__getitem__] *)
Definition getitem (key : K) (c : t) : res V * t :=
  if od_mem key (cache c) then
    let c' := {| max_size := max_size c; cache := od_move_to_end key (cache c);
                 record := record c; size_ := size_ c |} in
    match od_get key (cache c') with
    | Some v => (Ok v, c')
    | None => (Raise KeyError, c')
    end
  else (Raise KeyError, c).

(** [get]: [None] stands for the [default] argument being returned. *)
Definition get (key : K) (c : t) : option V * t :=
  match getitem key c with
  | (Ok v, c') => (Some v, c')
  | (Raise _, c') => (None, c')
  end.

(** The last line of [set],
    [self.record[key] = (datetime.now(), timedelta(seconds=expiration))]:
    when [timedelta] raises, nothing is written. *)
Definition set_record (key : K) (expiration : Z) (c : t) : res unit * t :=
  if timedelta_fits expiration then
    (Ok tt, {| max_size := max_size c; cache := cache c;
               record := <[key := expiration]> (record c); size_ := size_ c |})
  else (Raise OverflowError, c).

(** [set]: the entry is stored and counted first, then the oldest entry is
    dropped when the counter is beyond the bound, and the record of the new
    key is written last; an exception leaves what was done before it. *)
Definition set (key : K) (value : V) (expiration : Z) (c : t) : res unit * t :=
  if od_mem key (cache c) then (Ok tt, c)
  else
    let cache1 := od_set key value (cache c) in
    let size1 := (size_ c + 1)%Z in
    if bool_decide (0 < max_size c)%Z && bool_decide (max_size c < size1)%Z then
      match cache1 with
      | [] => (Raise KeyError,
               {| max_size := max_size c; cache := cache1; record := record c; size_ := size1 |})
      | (_k, _) :: cache2 =>
          match record c !! _k with
          | None =>
              (Raise KeyError,
               {| max_size := max_size c; cache := cache2; record := record c; size_ := size1 |})
          | Some _ =>
              set_record key expiration
                {| max_size := max_size c; cache := cache2;
                   record := base.delete _k (record c); size_ := (size1 - 1)%Z |}
          end
      end
    else
      set_record key expiration
        {| max_size := max_size c; cache := cache1; record := record c; size_ := size1 |}.

(** [delete] *)
Definition delete (key : K) (c : t) : res unit * t :=
  if od_mem key (cache c) then
    let cache1 := od_remove key (cache c) in
    match record c !! key with
    | None =>
        (Raise KeyError,
         {| max_size := max_size c; cache := cache1; record := record c; size_ := size_ c |})
    | Some _ =>
        (Ok tt,
         {| max_size := max_size c; cache := cache1;
            record := base.delete key (record c); size_ := size_ c |})
    end
  else (Raise KeyError, c).

(** [clear] *)
Definition clear (c : t) : t :=
  {| max_size := max_size c; cache := []; record := ∅; size_ := size_ c |}.

(** [__len__] *)
Definition len (c : t) : nat := length (cache c).

(** A call made by a client of the cache. *)
Inductive op : Type :=
  | OpSet (key : K) (value : V) (expiration : Z)
  | OpGet (key : K)
  | OpDelete (key : K)
  | OpClear.

(** The cache after one call; an exception raised by the call is caught by
    the client and the cache stays as the call left it. *)
Definition step (c : t) (o : op) : t :=
  match o with
  | OpSet key value expiration => snd (set key value expiration c)
  | OpGet key => snd (get key c)
  | OpDelete key => snd (delete key c)
  | OpClear => clear c
  end.

Definition run (ops : list op) (c : t) : t := foldl step c ops.

(** The key that a call inserts or accesses, when it does. *)
Definition touched (c : t) (o : op) : option K :=
  match o with
  | OpSet key _ _ => if od_mem key (cache c) then None else Some key
  | OpGet key => if od_mem key (cache c) then Some key else None
  | _ => None
  end.

(** The time of the last insertion of or access to [key] while [ops] run
    from [c], the first call being made at time [now]. *)
Fixpoint last_use (ops : list op) (c : t) (now : nat) (key : K) : option nat :=
  match ops with
  | [] => None
  | o :: ops' =>
      match last_use ops' (step c o) (S now) key with
      | Some n => Some n
      | None => if decide (touched c o = Some key) then Some now else None
      end
  end.

(** A call whose expiration, when it has one, is accepted by [timedelta]. *)
Definition fits (o : op) : bool :=
  match o with
  | OpSet _ _ expiration => timedelta_fits expiration
  | _ => true
  end.

(** What every cache built with [max_size = M] satisfies, whatever the
    calls and whatever they raised: the keys are distinct, [record] has no
    key that [cache] has not, the counter [__size] is not behind the number
    of entries (it is not decreased by [delete] and [clear], nor by a [set]
    that raises [KeyError]), and a bound [M > 0] is kept. *)
Definition wf (M : Z) (c : t) : Prop :=
  max_size c = M ∧
  NoDup (od_keys (cache c)) ∧
  (∀ k, is_Some (record c !! k) → k ∈ od_keys (cache c)) ∧
  (Z.of_nat (length (cache c)) ≤ size_ c)%Z ∧
  ((0 < M)%Z → (Z.of_nat (length (cache c)) ≤ M)%Z).

(** Every entry has its record: what holds as long as no [set] was given an
    expiration that [timedelta] refuses. *)
Definition recorded (c : t) : Prop :=
  ∀ k, k ∈ od_keys (cache c) → is_Some (record c !! k).

(** [before st k1 k2]: both keys have a stamp and [k1]'s is the older one. *)
Definition before (st : K → option nat) (k1 k2 : K) : Prop :=
  ∃ n1 n2, st k1 = Some n1 ∧ st k2 = Some n2 ∧ n1 < n2.

(** The keys of [l] are in the order of their stamps, all older than [now]. *)
Definition sorted_stamps (st : K → option nat) (now : nat) (l : list K) : Prop :=
  StronglySorted (before st) l ∧ Forall (λ k, ∃ n, st k = Some n ∧ n < now) l.

(** The stamps after a use of the key [o] at time [now]. *)
Definition touch (st : K → option nat) (now : nat) (o : option K) : K → option nat :=
  λ k, if decide (o = Some k) then Some now else st k.

Definition stamped (st : K → option nat) (now : nat) (c : t) : Prop :=
  sorted_stamps st now (od_keys (cache c)).

End Cache.
Arguments t : clear implicits.
Arguments t K V {_ _}.
Arguments op : clear implicits.

End LruCache.

(** ** Python values *)

(** Tokens, argument values and results are Python objects. [VObj] is an
    opaque, non-text segment of the input (an image, a mention, ...). *)
Inductive pyval : Type :=
  | VNone
  | VBool (b : bool)
  | VInt (n : Z)
  | VStr (s : string)
  | VList (l : list pyval)
  | VTuple (l : list pyval)
  | VDict (d : list (string * pyval))
  | VObj (id : nat).

(** [x.__class__ is str] *)
Definition is_str (v : pyval) : bool :=
  match v with VStr _ => true | _ => false end.

(** [bool(x)]; an opaque object is true. *)
Definition truthy (v : pyval) : bool :=
  match v with
  | VNone => false
  | VBool b => b
  | VInt n => negb (Z.eqb n 0)
  | VStr s => negb (String.eqb s "")
  | VList l | VTuple l => match l with [] => false | _ => true end
  | VDict d => match d with [] => false | _ => true end
  | VObj _ => true
  end.

(** [isinstance(x, Iterable)] and the elements [tuple(x)] then has; an opaque
    object is not iterable. *)
Definition iter_elements (v : pyval) : option (list pyval) :=
  match v with
  | VStr s => Some ((λ c, VStr (String c EmptyString)) <$> String.list_ascii_of_string s)
  | VList l | VTuple l => Some l
  | VDict d => Some ((λ kv, VStr kv.1) <$> d)
  | _ => None
  end.

(** [a + b], as far as the analyser uses it: numbers and sequences. *)
Definition py_add (a b : pyval) : res pyval :=
  match a, b with
  | VInt x, VInt y => Ok (VInt (x + y))
  | VInt x, VBool y => Ok (VInt (x + Z.b2z y))
  | VBool x, VInt y => Ok (VInt (Z.b2z x + y))
  | VBool x, VBool y => Ok (VInt (Z.b2z x + Z.b2z y))
  | VStr x, VStr y => Ok (VStr (x ++ y))
  | VList x, VList y => Ok (VList (x ++ y))
  | VTuple x, VTuple y => Ok (VTuple (x ++ y))
  | _, _ => Raise TypeError
  end.

(** ** The argument vector *)

(** Modelled from the spec: [_internal/_argv.py] is not among the sources.
    Section 3 of the specification gives the fields of [Argv], section 4.1
    its operations. The vector holds the tokens as [build] left them, one
    element per token, and [next] hands them out whole: the one-shot
    sub-split for separators that differ from those of the stream is not
    modelled. *)
Module Argv.

(** Modelled from the spec: what [argv.context] holds ("context (current
    Arg/Option)"): nothing, an [Arg], an [Option] or a [Subcommand]; only its
    class and name are kept. *)
Inductive ctx : Type :=
  | CtxNone
  | CtxArg (name : string)
  | CtxOption (name : string)
  | CtxSubcommand (name : string).

(** Modelled from the spec: the fields of [Argv] that the handlers read or
    write (section 3: [raw_data], [current_index], [ndata], [special],
    [param_ids], [fuzzy_match], [fuzzy_threshold], [context], [converter]). *)
Record t : Type := mk {
  raw_data : list pyval;
  current_index : nat;
  ndata : nat;
  context : ctx;
  special : gmap string string;
  disable_builtin_options : gset string;   (* [namespace.disable_builtin_options] *)
  param_ids : gset string;
  fuzzy_match : bool;
  fuzzy_threshold : Q;
  filter_crlf : bool;
  converter : list pyval → pyval;
}.

Definition set_raw_data (d : list pyval) (a : t) : t :=
  mk d (current_index a) (ndata a) (context a) (special a) (disable_builtin_options a)
     (param_ids a) (fuzzy_match a) (fuzzy_threshold a) (filter_crlf a) (converter a).

Definition set_current_index (i : nat) (a : t) : t :=
  mk (raw_data a) i (ndata a) (context a) (special a) (disable_builtin_options a)
     (param_ids a) (fuzzy_match a) (fuzzy_threshold a) (filter_crlf a) (converter a).

Definition set_context (c : ctx) (a : t) : t :=
  mk (raw_data a) (current_index a) (ndata a) c (special a) (disable_builtin_options a)
     (param_ids a) (fuzzy_match a) (fuzzy_threshold a) (filter_crlf a) (converter a).

(** Modelled from the spec: [Argv.build(input)] for an input already cut
    into the tokens [data]: "Precompute [ndata] = total tokens". *)
Definition build (data : list pyval) (a : t) : t :=
  mk data 0 (length data) CtxNone (special a) (disable_builtin_options a)
     (param_ids a) (fuzzy_match a) (fuzzy_threshold a) (filter_crlf a) (converter a).

(** Modelled from the spec: [Argv.next(seps, move)]: "returns the next token ... Increments
    [current_index] on consumption". At the end of the stream the source
    expects a false token ([if not may_arg]); nothing is consumed there. *)
Definition next (move : bool) (a : t) : res (pyval * bool) * t :=
  if Nat.eqb (current_index a) (ndata a) then (Ok (VStr "", true), a)
  else
    match raw_data a !! current_index a with
    | None => (Raise IndexError, a)
    | Some v => (Ok (v, is_str v), if move then set_current_index (S (current_index a)) a else a)
    end.

(** Modelled from the spec: [Argv.rollback(token, replace)]: "decrements index; if [replace], overwrites
    the pushed-back slot". The empty token is what [next] returns at the end
    of the stream, where nothing was consumed, so putting it back changes
    nothing (property 2 of section 8: [next] then [rollback] leaves the
    vector as it was). *)
Definition rollback (data : pyval) (replace : bool) (a : t) : res unit * t :=
  match data with
  | VStr EmptyString | VNone => (Ok tt, a)
  | _ =>
      let i := if Nat.leb 1 (current_index a) then current_index a - 1 else current_index a in
      let a' := set_current_index i a in
      if replace then
        if Nat.ltb i (length (raw_data a)) then (Ok tt, set_raw_data (<[i := data]> (raw_data a)) a')
        else (Raise IndexError, a')
      else (Ok tt, a')
  end.

(** Modelled from the spec: [Argv.release(seps)] with [recover=False]:
    "returns remaining tokens as a list ...; otherwise consumes them". *)
Definition release (a : t) : list pyval * t :=
  (drop (current_index a) (raw_data a), set_current_index (ndata a) a).

(** Modelled from the spec: [Argv.data_set()], the "index checkpoint": a
    copy of the data and the index. *)
Definition data_set (a : t) : list pyval * nat :=
  (raw_data a, current_index a).

(** Modelled from the spec: [Argv.data_reset(snap, idx)], the restore of a
    checkpoint. *)
Definition data_reset (data : list pyval) (index : nat) (a : t) : t :=
  set_current_index index (set_raw_data data a).

End Argv.

(** ** The grammar: patterns, arguments, options *)

Module Grammar.

(** [nepattern]: the value-pattern library is an external collaborator; a
    pattern is its [alias], which of the library's singletons it is, and its
    [validate] function. *)
Inductive vflag : Type := Valid | Default | Error.

Record ValidateResult : Type := {
  res_flag : vflag;      (* [res.flag] *)
  res_value : pyval;     (* [res._value] *)
}.

Inductive pattern_id : Type := STRING | ANY | AnyString | OtherPattern.

#[global] Instance pattern_id_eq_dec : EqDecision pattern_id.
Proof. solve_decision. Defined.

#[global] Instance vflag_eq_dec : EqDecision vflag.
Proof. solve_decision. Defined.

Record BasePattern : Type := {
  ident : pattern_id;
  alias : string;
  validate : pyval → option pyval → ValidateResult;   (* [validate(arg, default)] *)
}.

(** typing.py: [MultiVar] *)
Record MultiVar : Type := {
  mv_base : BasePattern;
  mv_flag : string;
  mv_length : Z;
}.

(** [KeyWordVar]; [kw_is_bool] is [isinstance(base, KWBool)]. *)
Record KeyWordVar : Type := {
  kw_base : BasePattern;
  kw_sep : string;
  kw_is_bool : bool;
}.

Record MultiKeyWordVar : Type := {
  mkw_base : KeyWordVar;
  mkw_flag : string;
  mkw_length : Z;
}.

(** [Arg]; [field_default = None] is [field.default is Empty]. The tips of
    the field only shape the message of an exception and are left out. *)
Record Arg : Type := {
  name : string;
  arg_value : BasePattern;
  separators : list string;
  field_default : option pyval;
  optional : bool;
}.

(** [Args.argument]: the slots by kind. A keyword-only or variadic slot
    comes with its value seen as the wrapper class it is; the unpack slot
    with the constructor [arg.value.origin] and the nested [Args]. *)
Inductive Args : Type := mkArgs {
  normal : list Arg;
  keyword_only : list (string * (KeyWordVar * Arg));
  vars_positional : list (MultiVar * Arg);
  vars_keyword : list (MultiKeyWordVar * Arg);
  unpack : option (Arg * (list (string * pyval) → res pyval) * Args);
}.

(** [Action]: [act_type] is 0 (store), 1 (append) or 2 (count). *)
Record Action : Type := {
  act_type : nat;
  act_value : pyval;
}.

(** [Option]; [aliases] in the order in which the set is iterated. *)
Record Option : Type := {
  opt_name : string;
  aliases : list string;
  dest : string;
  opt_args : Args;
  opt_separators : list string;
  action : Action;
  compact : bool;
  nargs : nat;
}.

(** [OptionResult] *)
Record OptionResult : Type := {
  value_ : pyval;                     (* [value] *)
  args : list (string * pyval);
}.

(** Functions of libraries and of modules that are not among the sources. *)
Record Ext : Type := {
  (* [tarina.split_once(text, seps, crlf)] *)
  split_once : string → list string → bool → string * string;
  (* [pat.match(text)["name"]] for [pat = "(?:-*no)?-*(?P<name>.+)"] *)
  pat_name : string → option string;
  (* groups 1 and 2 of [re.match(rf"^(-*[^{sep}]+){sep}(.*?)$", text)] *)
  kwarg_match : string → string → option (string * string);
  (* [re.fullmatch(f"{al}(?P<rest>.*?)", name)["rest"]] *)
  alias_rest : string → string → option string;
  (* [config.remainders] *)
  remainders : list string;
  (* [_util.levenshtein] *)
  levenshtein : string → string → Q;
  (* [_util.escape], [_util.unescape] *)
  escape : string → string;
  unescape : string → string;
  (* [str(x)] of an object that is not a string *)
  repr : pyval → string;
}.

End Grammar.

(** ** _internal/_handlers.py: the analysis of [Args] *)

Module Handlers.
Import PyDict Grammar.

(** A computation on a mutable state that may raise; the state it leaves
    is kept when it raises. *)
Definition ST (S A : Type) : Type := S → res A * S.

Definition ret {S A : Type} (x : A) : ST S A := λ s, (Ok x, s).

Definition raise {S A : Type} (e : exn) : ST S A := λ s, (Raise e, s).

Definition bind {S A B : Type} (m : ST S A) (k : A → ST S B) : ST S B :=
  λ s, match m s with
       | (Ok x, s') => k x s'
       | (Raise e, s') => (Raise e, s')
       end.

(** A computation on the argument vector. *)
Abbreviation M := (ST Argv.t).

Notation "'let*' x ':=' m 'in' k" := (bind m (λ x, k))
  (at level 10, x pattern, m at level 100, k at level 200).

Definition get_argv : M Argv.t := λ a, (Ok a, a).

Definition set_context (c : Argv.ctx) : M unit := λ a, (Ok tt, Argv.set_context c a).

(** How one round of a [while] loop ends. *)
Inductive ctl (A : Type) : Type :=
  | Continue (x : A)
  | Break (x : A).
Arguments Continue {A} x.
Arguments Break {A} x.

Fixpoint while_loop {A : Type} (fuel : nat) (body : A → M (ctl A)) (acc : A)
    (a : Argv.t) : option (res A * Argv.t) :=
  match fuel with
  | 0 => None
  | S fuel' =>
      match body acc a with
      | (Ok (Continue acc'), a') => while_loop fuel' body acc' a'
      | (Ok (Break acc'), a') => Some (Ok acc', a')
      | (Raise e, a') => Some (Raise e, a')
      end
  end.

(** The tokens that are left bound the number of rounds. *)
Definition rounds (a : Argv.t) : nat :=
  S (length (Argv.raw_data a) - Argv.current_index a).

(** A loop that consumes a token in every round that continues; the last
    case is never reached (lemma [run_loop_total] below). *)
Definition run_loop {A : Type} (body : A → M (ctl A)) (acc : A) : M A :=
  λ a, match while_loop (rounds a) body acc a with
       | Some r => r
       | None => (Raise IndexError, a)
       end.

(** Every round that continues has consumed a token. *)
Definition consuming {A : Type} (body : A → M (ctl A)) : Prop :=
  ∀ acc a acc' a', body acc a = (Ok (Continue acc'), a') →
    length (Argv.raw_data a') - Argv.current_index a' <
    length (Argv.raw_data a) - Argv.current_index a.

(** The vector has a token, its index is in range, and the fuzzy settings
    are those of the start. *)
Definition steady (fuzzy : bool) (threshold : Q) (a : Argv.t) : Prop :=
  Argv.ndata a = length (Argv.raw_data a) ∧
  1 ≤ length (Argv.raw_data a) ∧
  Argv.current_index a ≤ length (Argv.raw_data a) ∧
  Argv.fuzzy_match a = fuzzy ∧ Argv.fuzzy_threshold a = threshold.

(** [_str and may_arg in l] *)
Definition str_in (l : list string) (may_arg : pyval) (_str : bool) : bool :=
  match may_arg with
  | VStr s => _str && bool_decide (s ∈ l)
  | _ => false
  end.

(** [_str and may_arg in argv.param_ids] *)
Definition is_param_id (a : Argv.t) (may_arg : pyval) (_str : bool) : bool :=
  match may_arg with
  | VStr s => _str && bool_decide (s ∈ Argv.param_ids a)
  | _ => false
  end.

(** [[
if _str and may_arg in argv.special:
    if argv.special[may_arg] not in argv.namespace.disable_builtin_options:
        raise SpecialOptionTriggered(argv.special[may_arg])
]] *)
Definition raise_if_special (may_arg : pyval) (_str : bool) : M unit :=
  λ a, match may_arg with
       | VStr s =>
           if _str then
             match Argv.special a !! s with
             | Some which =>
                 if bool_decide (which ∈ Argv.disable_builtin_options a) then (Ok tt, a)
                 else (Raise (SpecialOptionTriggered which), a)
             | None => (Ok tt, a)
             end
           else (Ok tt, a)
       | _ => (Ok tt, a)
       end.

(** [sub in text] *)
Definition contains (sub text : string) : bool :=
  match String.index 0 sub text with Some _ => true | None => false end.

Section WithExt.
Variable ext : Ext.

(** [str(x)] *)
Definition py_str (v : pyval) : string :=
  match v with VStr s => s | _ => repr ext v end.

Definition _validate (target : Arg) (value : BasePattern) (result : list (string * pyval))
    (arg : pyval) (_str : bool) : M (list (string * pyval)) :=
  if bool_decide (ident value = STRING) && _str || bool_decide (ident value = ANY) then
    ret (od_set (name target) arg result)
  else if bool_decide (ident value = AnyString) then
    ret (od_set (name target) (VStr (py_str arg)) result)
  else
    let default_val := field_default target in
    let res := validate value arg default_val in
    let* _ := (if bool_decide (res_flag res ≠ Valid) then Argv.rollback arg false else ret tt) in
    if bool_decide (res_flag res = Error) then
      if optional target then ret result else raise InvalidParam
    else ret (od_set (name target) (res_value res) result).

(** One round of the loop of [step_varpos]; the state of the loop is
    [(_result, count)]. *)
Definition varpos_round (args : Args) (value : MultiVar) (arg : Arg)
    (kwonly_seps : list string) (st : list pyval * Z) : M (ctl (list pyval * Z)) :=
  let '(_result, count) := st in
  let* a := get_argv in
  if Nat.eqb (Argv.current_index a) (Argv.ndata a) then ret (Break st)
  else
    let* (may_arg, _str) := Argv.next true in
    let* _ := raise_if_special may_arg _str in
    let* a := get_argv in
    if negb (truthy may_arg) || is_param_id a may_arg _str then
      let* _ := Argv.rollback may_arg false in ret (Break st)
    else if str_in (remainders ext) may_arg _str then ret (Break st)
    else
      let* is_key :=
        (if _str && negb (bool_decide (kwonly_seps = [])) then
           match pat_name ext (py_str may_arg) with
           | None => raise TypeError
           | Some nm =>
               ret (od_mem (split_once ext nm kwonly_seps (Argv.filter_crlf a)).1
                      (keyword_only args))
           end
         else ret false) in
      if is_key : bool then
        let* _ := Argv.rollback may_arg false in ret (Break st)
      else if _str &&
              match vars_keyword args with
              | [] => false
              | (kw, _) :: _ => contains (kw_sep (mkw_base kw)) (py_str may_arg)
              end then
        let* _ := Argv.rollback may_arg false in ret (Break st)
      else
        let res := validate (mv_base value) may_arg None in
        if bool_decide (res_flag res ≠ Valid) then
          let* _ := Argv.rollback may_arg false in ret (Break st)
        else
          let _result := _result ++ [res_value res] in
          let count := (count + 1)%Z in
          if bool_decide (0 < mv_length value)%Z && bool_decide (mv_length value ≤ count)%Z
          then ret (Break (_result, count))
          else ret (Continue (_result, count)).

(** What [step_varpos] does once the loop has ended: the lines from
    [if not _result:] to the value stored under [key]. *)
Definition varpos_finish (value : MultiVar) (arg : Arg) (_result : list pyval) : res pyval :=
  match _result with
  | [] =>
      match field_default arg with
      | Some default_val =>
          Ok (VTuple (match iter_elements default_val with Some l => l | None => [] end))
      | None =>
          if String.eqb (mv_flag value) "*" then Ok (VTuple [])
          else Raise ArgumentMissing
      end
  | _ => Ok (VTuple _result)
  end.

Definition step_varpos (args : Args) (slot : MultiVar * Arg)
    (result : list (string * pyval)) : M (list (string * pyval)) :=
  let '(value, arg) := slot in
  let* _ := set_context (Argv.CtxArg (name arg)) in
  let key := name arg in
  let kwonly_seps := (λ kv, kw_sep kv.2.1) <$> keyword_only args in
  let* (_result, _) := run_loop (varpos_round args value arg kwonly_seps) ([], 0%Z) in
  match varpos_finish value arg _result with
  | Ok v => ret (od_set key v result)
  | Raise e => raise e
  end.

(** One round of the loop of [step_varkey]. *)
Definition varkey_round (value : MultiKeyWordVar) (arg : Arg)
    (st : list (string * pyval) * Z) : M (ctl (list (string * pyval) * Z)) :=
  let '(_result, count) := st in
  let* a := get_argv in
  if Nat.eqb (Argv.current_index a) (Argv.ndata a) then ret (Break st)
  else
    let* (may_arg, _str) := Argv.next true in
    let* _ := raise_if_special may_arg _str in
    let* a := get_argv in
    if negb (truthy may_arg) || is_param_id a may_arg _str || negb _str then
      let* _ := Argv.rollback may_arg false in ret (Break st)
    else if str_in (remainders ext) may_arg _str then ret (Break st)
    else
      match kwarg_match ext (kw_sep (mkw_base value)) (py_str may_arg) with
      | None => let* _ := Argv.rollback may_arg false in ret (Break st)
      | Some (key, tail) =>
          let* _m_arg :=
            (if String.eqb tail "" then let* (x, _) := Argv.next true in ret x
             else ret (VStr tail)) in
          let res := validate (kw_base (mkw_base value)) _m_arg None in
          if bool_decide (res_flag res ≠ Valid) then
            let* _ := Argv.rollback may_arg false in ret (Break st)
          else
            let _result := od_set key (res_value res) _result in
            let count := (count + 1)%Z in
            if bool_decide (0 < mkw_length value)%Z && bool_decide (mkw_length value ≤ count)%Z
            then ret (Break (_result, count))
            else ret (Continue (_result, count))
      end.

Definition varkey_finish (value : MultiKeyWordVar) (arg : Arg)
    (_result : list (string * pyval)) : res pyval :=
  match _result with
  | [] =>
      match field_default arg with
      | Some (VDict d) => Ok (VDict d)
      | Some _ => Ok (VDict [])
      | None =>
          if String.eqb (mkw_flag value) "*" then Ok (VDict [])
          else Raise ArgumentMissing
      end
  | _ => Ok (VDict _result)
  end.

Definition step_varkey (slot : MultiKeyWordVar * Arg)
    (result : list (string * pyval)) : M (list (string * pyval)) :=
  let '(value, arg) := slot in
  let* _ := set_context (Argv.CtxArg (name arg)) in
  let* (_result, _) := run_loop (varkey_round value arg) ([], 0%Z) in
  match varkey_finish value arg _result with
  | Ok v => ret (od_set (name arg) v result)
  | Raise e => raise e
  end.

(** [[
for arg in args.argument.keyword_only.values():
    if arg.value.base.validate(may_arg).flag == "valid":
        raise InvalidParam(...)
for name in args.argument.keyword_only:
    if levenshtein(_key, name) >= argv.fuzzy_threshold:
        raise FuzzyMatchSuccess(... source=name, target=_key)
raise InvalidParam(...)
]] *)
Definition keyword_not_found (a : Argv.t) (kwonly : list (string * (KeyWordVar * Arg)))
    (may_arg : pyval) (_key : string) : exn :=
  if existsb (λ kv, bool_decide (res_flag (validate (kw_base kv.2.1) may_arg None) = Valid))
       kwonly
  then InvalidParam
  else
    match find (λ kv, Qle_bool (Argv.fuzzy_threshold a) (levenshtein ext _key kv.1)) kwonly with
    | Some (name, _) => FuzzyMatchSuccess name _key
    | None => InvalidParam
    end.

(** The loop of [step_keyword]: [todo] is [target - count]. *)
Fixpoint keyword_loop (args : Args) (kwonly_seps1 : list string) (todo : nat)
    (result : list (string * pyval)) (count : nat) : M (list (string * pyval) * nat) :=
  match todo with
  | 0 => ret (result, count)
  | S todo' =>
      let* (may_arg, _str) := Argv.next true in
      let* _ := raise_if_special may_arg _str in
      if negb (truthy may_arg) || negb _str then
        let* _ := Argv.rollback may_arg false in ret (result, count)
      else if str_in (remainders ext) may_arg _str then ret (result, count)
      else
        let* a := get_argv in
        let '(key, _m_arg) := split_once ext (py_str may_arg) kwonly_seps1 (Argv.filter_crlf a) in
        match pat_name ext key with
        | None => raise TypeError
        | Some _key =>
            let _key := if od_mem _key (keyword_only args) then _key else key in
            match od_get _key (keyword_only args) with
            | None =>
                let* _ := Argv.rollback may_arg false in
                if negb (bool_decide (vars_keyword args = [])) || is_param_id a may_arg _str
                then ret (result, count)
                else raise (keyword_not_found a (keyword_only args) may_arg _key)
            | Some (kw, arg) =>
                let value := kw_base kw in
                let* _m_arg :=
                  (if String.eqb _m_arg "" then
                     if kw_is_bool kw then ret (VStr key)
                     else let* (x, _) := Argv.next true in ret x
                   else ret (VStr _m_arg)) in
                let* result := _validate arg value result _m_arg _str in
                keyword_loop args kwonly_seps1 todo' result (S count)
            end
        end
  end.

(** [[
for key, arg in args.argument.keyword_only.items():
    if key in result: continue
    if arg.field.default is not Empty: result[key] = arg.field.default
    elif not arg.optional: raise ArgumentMissing(...)
]] *)
Fixpoint keyword_defaults (kwonly : list (string * (KeyWordVar * Arg)))
    (result : list (string * pyval)) : res (list (string * pyval)) :=
  match kwonly with
  | [] => Ok result
  | (key, (_, arg)) :: rest =>
      if od_mem key result then keyword_defaults rest result
      else
        match field_default arg with
        | Some de => keyword_defaults rest (od_set key de result)
        | None => if optional arg then keyword_defaults rest result else Raise ArgumentMissing
        end
  end.

Definition step_keyword (args : Args) (result : list (string * pyval)) :
    M (list (string * pyval)) :=
  let kwonly_seps1 := (λ kv, kw_sep kv.2.1) <$> keyword_only args in
  let target := length (keyword_only args) in
  let* (result, count) := keyword_loop args kwonly_seps1 target result 0 in
  if Nat.ltb count target then
    match keyword_defaults (keyword_only args) result with
    | Ok result => ret result
    | Raise e => raise e
    end
  else ret result.

(** How the loop over the normal slots ends: by the [return] of the
    wildcard branch, or by running out of slots. *)
Inductive loop_exit (A : Type) : Type :=
  | Returned (x : A)
  | Exhausted (x : A).
Arguments Returned {A} x.
Arguments Exhausted {A} x.

(** [for arg in args.argument.normal: ...] *)
Fixpoint normal_loop (slots : list Arg) (result : list (string * pyval)) :
    M (loop_exit (list (string * pyval))) :=
  match slots with
  | [] => ret (Exhausted result)
  | arg :: slots' =>
      let* _ := set_context (Argv.CtxArg (name arg)) in
      let* (may_arg, _str) := Argv.next true in
      let* _ := raise_if_special may_arg _str in
      let* a := get_argv in
      if is_param_id a may_arg _str && optional arg then
        let result :=
          match field_default arg with
          | Some de => od_set (name arg) de result
          | None => result
          end in
        let* _ := Argv.rollback may_arg false in
        normal_loop slots' result
      else if negb (truthy may_arg) then
        let* _ := Argv.rollback may_arg false in
        match field_default arg with
        | Some de => normal_loop slots' (od_set (name arg) de result)
        | None => if optional arg then normal_loop slots' result else raise ArgumentMissing
        end
      else
        let value := arg_value arg in
        if String.eqb (alias value) "*" then
          let* _ := Argv.rollback may_arg false in
          let* a := get_argv in
          let* released := (λ a, let '(l, a') := Argv.release a in (Ok l, a')) in
          let result := od_set (name arg) (Argv.converter a released) result in
          let* _ := (λ a, (Ok tt, Argv.set_current_index (Argv.ndata a) a)) in
          ret (Returned result)
        else
          let* result := _validate arg value result may_arg _str in
          normal_loop slots' result
  end.

(** [for slot in slots: step(argv, ..., slot, result)] *)
Fixpoint for_each {A : Type} (step : A → list (string * pyval) → M (list (string * pyval)))
    (slots : list A) (result : list (string * pyval)) : M (list (string * pyval)) :=
  match slots with
  | [] => ret result
  | slot :: slots' => let* result := step slot result in for_each step slots' result
  end.

(** [analyse_args]. The call [unpack.separate( *arg.separators)] only changes
    separators, which [next] does not look at here. *)
Fixpoint analyse_args (args : Args) : M (list (string * pyval)) :=
  match args with
  | mkArgs slots kwonly varpos varkey unpack_slot =>
      let* exit := normal_loop slots [] in
      match exit with
      | Returned result => ret result
      | Exhausted result =>
          let* result :=
            match unpack_slot with
            | None => ret result
            | Some (arg, origin, nested) =>
                λ a,
                  match (let* kwargs := analyse_args nested in
                         match origin kwargs with
                         | Ok v => ret v
                         | Raise e => raise e
                         end) a with
                  | (Ok v, a') => (Ok (od_set (name arg) v result), a')
                  | (Raise e, a') =>
                      match field_default arg with
                      | Some de => (Ok (od_set (name arg) de result), a')
                      | None => if optional arg then (Ok result, a') else (Raise e, a')
                      end
                  end
            end in
          let* result := for_each (step_varpos args) varpos result in
          let* result :=
            (match kwonly with [] => ret result | _ => step_keyword args result end) in
          let* result := for_each step_varkey varkey result in
          let* _ := set_context Argv.CtxNone in
          ret result
      end
  end.

(** ** _internal/_handlers.py: options *)

(** [SubcommandResult] *)
Inductive SubcommandResult : Type := mkSubcommandResult {
  sub_value : pyval;
  sub_args : list (string * pyval);
  sub_options : list (string * OptionResult);
  sub_subcommands : list (string * SubcommandResult);
}.

(** A sub-analyser as the handlers use it ([_internal/_analyser.py] is not
    among the sources): [process trigger argv] is what [param.process(argv,
    trigger)] does to the vector, together with what [param.result()]
    returns when it is called next. *)
Record SubAnalyser : Type := {
  sub_dest : string;     (* [param.command.dest] *)
  process : option string → Argv.t → res unit * Argv.t * SubcommandResult;
}.

Inductive Param : Type :=
  | POption (opt : Option)
  | PSub (sub : SubAnalyser).

(** The analyser of the current scope. *)
Record Analyser : Type := {
  command_nargs : nat;      (* [analyser.command.nargs] *)
  self_args : Args;
  compile_params : gmap string Param;
  compact_params : list Param;
  options_result : list (string * OptionResult);
  subcommands_result : list (string * SubcommandResult);
  args_result : list (string * pyval);
  extra_allow : bool;
}.

Definition set_options_result (r : list (string * OptionResult)) (an : Analyser) : Analyser :=
  {| command_nargs := command_nargs an; self_args := self_args an;
     compile_params := compile_params an; compact_params := compact_params an;
     options_result := r; subcommands_result := subcommands_result an;
     args_result := args_result an; extra_allow := extra_allow an |}.

Definition set_subcommands_result (r : list (string * SubcommandResult)) (an : Analyser) :
    Analyser :=
  {| command_nargs := command_nargs an; self_args := self_args an;
     compile_params := compile_params an; compact_params := compact_params an;
     options_result := options_result an; subcommands_result := r;
     args_result := args_result an; extra_allow := extra_allow an |}.

Definition set_args_result (r : list (string * pyval)) (an : Analyser) : Analyser :=
  {| command_nargs := command_nargs an; self_args := self_args an;
     compile_params := compile_params an; compact_params := compact_params an;
     options_result := options_result an; subcommands_result := subcommands_result an;
     args_result := r; extra_allow := extra_allow an |}.

(** A computation on the analyser and the argument vector. *)
Abbreviation MA := (ST (Analyser * Argv.t)).

Definition on_argv {A : Type} (m : M A) : MA A :=
  λ '(an, a), let '(r, a') := m a in (r, (an, a')).

(** [text.lstrip("-")] *)
Fixpoint lstrip_dash (text : string) : string :=
  match text with
  | String "-"%char rest => lstrip_dash rest
  | _ => text
  end.


(** [[
for al in opt.aliases:
    if mat := re.fullmatch(f"{al}(?P<rest>.*?)", name):
        ... break
]] the [rest] of the first alias that matches. *)
Fixpoint compact_match (als : list string) (name : string) : option string :=
  match als with
  | [] => None
  | al :: als' =>
      match alias_rest ext al name with
      | Some rest => Some rest
      | None => compact_match als' name
      end
  end.

(** [[
for al in opt.aliases:
    if name.startswith(al) and (cnt := (len(name.lstrip("-")) / len(al.lstrip("-")))).is_integer():
        _cnt = int(cnt) ... break
]] the count found, if any; the quotient of the two lengths is an integer
    when the division is exact. *)
Fixpoint count_match (als : list string) (name : string) : res (option nat) :=
  match als with
  | [] => Ok None
  | al :: als' =>
      if String.prefix al name then
        let n := String.length (lstrip_dash name) in
        let d := String.length (lstrip_dash al) in
        if Nat.eqb d 0 then Raise ZeroDivisionError
        else if Nat.eqb (n mod d) 0 then Ok (Some (n / d))
        else count_match als' name
      else count_match als' name
  end.

(** The lines of [handle_option] under [if not trigger:]; the result is
    [_cnt]. *)
Definition match_option (opt : Option) : M nat :=
  let* (name, _) := Argv.next true in
  let* a := get_argv in
  let fail : M nat :=
    match name with
    | VStr text =>
        if Argv.fuzzy_match a &&
           Qle_bool (Argv.fuzzy_threshold a) (levenshtein ext text (opt_name opt))
        then raise (FuzzyMatchSuccess (opt_name opt) text)
        else raise InvalidParam
    | _ => if Argv.fuzzy_match a then raise TypeError else raise InvalidParam
    end in
  if compact opt then
    match name with
    | VStr text =>
        match compact_match (aliases opt) text with
        | Some rest => let* _ := Argv.rollback (VStr rest) true in ret 0
        | None => fail
        end
    | _ => match aliases opt with [] => fail | _ => raise TypeError end
    end
  else if Nat.eqb (act_type (action opt)) 2 then
    match name with
    | VStr text =>
        match count_match (aliases opt) text with
        | Ok (Some cnt) => ret cnt
        | Ok None => fail
        | Raise e => raise e
        end
    | _ => match aliases opt with [] => fail | _ => raise AttributeError end
    end
  else if str_in (aliases opt) name true then ret 0
  else fail.

Definition handle_option (opt : Option) (trigger : option string) :
    M (string * OptionResult) :=
  let* _ := set_context (Argv.CtxOption (opt_name opt)) in
  let* _cnt :=
    (match trigger with
     | Some (String _ _) => ret 0
     | _ => match_option opt
     end) in
  if negb (Nat.eqb (nargs opt) 0) then
    let* r := analyse_args (opt_args opt) in
    ret (dest opt, {| value_ := VNone; args := r |})
  else
    ret (dest opt,
         {| value_ := if Nat.eqb _cnt 0 then act_value (action opt) else VInt (Z.of_nat _cnt);
            args := [] |}).

(** [[
for key, value in target.args.items():
    if key in source.args: source.args[key].append(value)
    else: source.args[key] = [value]
]] the arguments of [source] as the loop leaves them, also when it raises. *)
Fixpoint append_args (items : list (string * pyval)) (source_args : list (string * pyval)) :
    res unit * list (string * pyval) :=
  match items with
  | [] => (Ok tt, source_args)
  | (key, value) :: items' =>
      match od_get key source_args with
      | Some (VList l) => append_args items' (od_set key (VList (l ++ [value])) source_args)
      | Some _ => (Raise AttributeError, source_args)
      | None => append_args items' (od_set key (VList [value]) source_args)
      end
  end.

(** [handle_action]: what it returns, and [source] as it leaves it. *)
Definition handle_action (param : Option) (source target : OptionResult) :
    res OptionResult * OptionResult :=
  if Nat.eqb (act_type (action param)) 0 then (Ok target, source)
  else if Nat.eqb (act_type (action param)) 2 then
    if Nat.eqb (nargs param) 0 then
      match py_add (value_ source) (value_ target) with
      | Ok v => let source' := {| value_ := v; args := args source |} in (Ok source', source')
      | Raise e => (Raise e, source)
      end
    else (Ok target, source)
  else if Nat.eqb (nargs param) 0 then
    match value_ source with
    | VList l =>
        match iter_elements (value_ target) with
        | Some l' =>
            let source' := {| value_ := VList (l ++ l'); args := args source |} in
            (Ok source', source')
        | None => (Raise TypeError, source)
        end
    | VStr _ | VTuple _ => (Raise AttributeError, source)
    | _ => (Raise TypeError, source)
    end
  else
    let '(r, source_args) := append_args (args target) (args source) in
    let source' := {| value_ := value_ source; args := source_args |} in
    match r with
    | Ok _ => (Ok source', source')
    | Raise e => (Raise e, source')
    end.

(** [[
for key in list(opt_v.args.keys()):
    opt_v.args[key] = [opt_v.args[key]]
]] *)
Definition wrap_args (opt_args : list (string * pyval)) : list (string * pyval) :=
  (λ kv, (kv.1, VList [kv.2])) <$> opt_args.

(** The lines of [analyse_option] after the call of [handle_option]. *)
Definition store_option (opt : Option) (opt_n : string) (opt_v : OptionResult)
    (an : Analyser) : res unit * Analyser :=
  match od_get opt_n (options_result an) with
  | None =>
      let opt_v' :=
        if Nat.eqb (act_type (action opt)) 1 && negb (bool_decide (args opt_v = []))
        then {| value_ := value_ opt_v; args := wrap_args (args opt_v) |}
        else opt_v in
      (Ok tt, set_options_result (od_set opt_n opt_v' (options_result an)) an)
  | Some source =>
      match handle_action opt source opt_v with
      | (Ok r, _) => (Ok tt, set_options_result (od_set opt_n r (options_result an)) an)
      | (Raise e, source') =>
          (Raise e, set_options_result (od_set opt_n source' (options_result an)) an)
      end
  end.

(** The merging step over the occurrences of one option in a parse:
    [store_option] for each [OptionResult] that [handle_option] returned, in
    the order of arrival. *)
Fixpoint store_all (opt : Option) (opt_n : string) (occurrences : list OptionResult)
    (an : Analyser) : res unit * Analyser :=
  match occurrences with
  | [] => (Ok tt, an)
  | opt_v :: occurrences' =>
      match store_option opt opt_n opt_v an with
      | (Ok _, an') => store_all opt opt_n occurrences' an'
      | (Raise e, an') => (Raise e, an')
      end
  end.

(** The values that the occurrences bound to [key], in the order of arrival;
    an occurrence that did not bind [key] gives none. *)
Definition collected (key : string) (occurrences : list OptionResult) : list pyval :=
  omap (λ opt_v, od_get key (args opt_v)) occurrences.

(** [shape d f]: the dictionary [d] maps every key [k] with [f k] not empty
    to the list [f k], and has no other key. *)
Definition shape (d : list (string * pyval)) (f : string → list pyval) : Prop :=
  ∀ key, od_get key d = match f key with [] => None | l => Some (VList l) end.

Definition analyse_option (opt : Option) (trigger : option string) : MA unit :=
  let* (opt_n, opt_v) := on_argv (handle_option opt trigger) in
  λ '(an, a), let '(r, an') := store_option opt opt_n opt_v an in (r, (an', a)).

(** [[
try:
    param.process(argv, trigger)
finally:
    analyser.subcommands_result[param.command.dest] = param.result()
]] *)
Definition analyse_subcommand (sub : SubAnalyser) (trigger : option string) : MA unit :=
  λ '(an, a),
    let '(r, a', result) := process sub trigger a in
    (r, (set_subcommands_result (od_set (sub_dest sub) result (subcommands_result an)) an, a')).

(** The body of the [try] of [analyse_compact_params], for one candidate. *)
Definition attempt (param : Param) : MA unit :=
  match param with
  | POption opt => analyse_option opt None
  | PSub sub => analyse_subcommand sub None
  end.

(** [for param in analyser.compact_params: ...]; [false] is the [None] that
    the function returns when no candidate is left. *)
Fixpoint compact_loop (params : list Param) : MA bool :=
  match params with
  | [] => ret false
  | param :: params' =>
      λ '(an, a),
        let '(_data, _index) := Argv.data_set a in
        match attempt param (an, a) with
        | (Ok _, s') => (Ok true, s')
        | (Raise InvalidParam, (an', a')) =>
            match Argv.context a' with
            | Argv.CtxArg _ => (Raise InvalidParam, (an', a'))
            | _ => compact_loop params' (an', Argv.data_reset _data _index a')
            end
        | (Raise e, s') => (Raise e, s')
        end
  end.

Definition analyse_compact_params : MA bool :=
  λ '(an, a), compact_loop (compact_params an) (an, a).

(** [rejected params s s']: every candidate of [params], tried in turn from
    [s], raised [InvalidParam] outside an [Arg] and was undone; [s'] is the
    state in which the next candidate is tried. *)
Inductive rejected : list Param → Analyser * Argv.t → Analyser * Argv.t → Prop :=
  | rejected_nil s : rejected [] s s
  | rejected_cons param params an a an' a' s' :
      attempt param (an, a) = (Raise InvalidParam, (an', a')) →
      (∀ name, Argv.context a' ≠ Argv.CtxArg name) →
      rejected params (an', Argv.data_reset (Argv.raw_data a) (Argv.current_index a) a') s' →
      rejected (param :: params) (an, a) s'.

Definition get_analyser : MA Analyser := λ '(an, a), (Ok an, (an, a)).

Definition put_analyser (an : Analyser) : MA unit := λ '(_, a), (Ok tt, (an, a)).

(** [analyser.args_result.setdefault("$extra", []).append(_text)] *)
Definition append_extra (_text : pyval) (an : Analyser) : res Analyser :=
  match od_get "$extra" (args_result an) with
  | None => Ok (set_args_result (od_set "$extra" (VList [_text]) (args_result an)) an)
  | Some (VList l) =>
      Ok (set_args_result (od_set "$extra" (VList (l ++ [_text])) (args_result an)) an)
  | Some _ => Raise AttributeError
  end.

(** The first [if _str:] block of [analyse_param]; [true] when it returned. *)
Definition dispatch_param (_text : pyval) (_str : bool) : MA bool :=
  if _str then
    let* _ := on_argv (raise_if_special _text _str) in
    let* an := get_analyser in
    match _text with
    | VStr text =>
        match compile_params an !! text with
        | Some _param =>
            let* _ :=
              (match _param with
               | POption opt => analyse_option opt (Some text)
               | PSub sub => analyse_subcommand sub (Some text)
               end) in
            let* _ := on_argv (set_context Argv.CtxNone) in
            ret true
        | None => ret false
        end
    | _ => ret false
    end
  else ret false.

Definition analyse_param : MA bool :=
  let* (_text, _str) := on_argv (Argv.next true) in
  let* done := dispatch_param _text _str in
  if done : bool then ret true
  else
    let* _ := on_argv (Argv.rollback _text false) in
    let* an := get_analyser in
    let* done :=
      (match compact_params an with
       | [] => ret false
       | _ => analyse_compact_params
       end) in
    if done : bool then let* _ := on_argv (set_context Argv.CtxNone) in ret true
    else
      let* an := get_analyser in
      let* done :=
        (if negb (Nat.eqb (command_nargs an) 0) && bool_decide (args_result an = []) then
           let* r := on_argv (analyse_args (self_args an)) in
           let* an := get_analyser in
           let* _ := put_analyser (set_args_result r an) in
           match r with
           | [] => ret false
           | _ => let* _ := on_argv (set_context Argv.CtxNone) in ret true
           end
         else ret false) in
      if done : bool then ret true
      else
        let* an := get_analyser in
        if extra_allow an then
          match append_extra _text an with
          | Ok an' =>
              let* _ := put_analyser an' in
              let* _ := on_argv (Argv.next true) in
              ret true
          | Raise e => raise e
          end
        else ret false.

(** Modelled from the spec: the loop that drives [analyse_param] is in
    [_internal/_analyser.py], which is not among the sources ("repeated
    [analyse_param] ... until exhausted", section 2). [analyse_params n] is
    [analyse_param] called [n] times in a row, or until it returns [False];
    the result is that of the last call. *)
Fixpoint analyse_params (n : nat) : MA bool :=
  match n with
  | 0 => ret true
  | S n' =>
      let* more := analyse_param in
      if more : bool then analyse_params n' else ret false
  end.

(** ** _internal/_handlers.py: the header *)

(** A compiled regular expression ([TPattern]), by what the analyser asks of
    it: the group dictionary of [fullmatch], and of [match] with the text
    matched ([mat[0]]). *)
Record Regex : Type := {
  re_fullmatch : string → option (list (string * option string));
  re_match : string → option (string * list (string * option string));
}.

Inductive CompactPattern : Type :=
  | CompRegex (r : Regex)
  | CompPattern (p : BasePattern)
  | CompNone.

(** [HeadResult] *)
Record HeadResult : Type := {
  hr_origin : pyval;
  hr_result : pyval;
  hr_matched : bool;
  hr_groups : list (string * option string);
  hr_fixes : list (string * BasePattern);
}.

(** The matcher of a pair of tokens, [pair.match(head_text, may_cmd, ...)]
    (the class [Double] is not in [_internal/_header.py] as given). It gets
    the two tokens, whether each is a string, and [header.compact]; when it
    matches it gives the result and the calls of [argv.rollback] it made. *)
Definition PairMatch : Type :=
  pyval → pyval → bool → bool → bool → option (HeadResult * list (pyval * bool)).

Inductive Content : Type :=
  | CSet (s : gset string)
  | CRegex (r : Regex)
  | CPattern (p : BasePattern)
  | CList (pairs : list PairMatch)
  | CDouble (d : PairMatch).

(** A prefix of [header.origin[1]]: a string, a tuple (the text of its two
    parts), or another object (its text). *)
Inductive Prefix : Type :=
  | PrefixStr (s : string)
  | PrefixTuple (first second : string)
  | PrefixObj (text : string).

Record Header : Type := {
  origin_command : string;          (* [str(header.origin[0])] *)
  origin_prefixes : list Prefix;    (* [header.origin[1]] *)
  content : Content;
  mapping : list (string * BasePattern);
  hd_compact : bool;
  compact_pattern : CompactPattern;
}.

(** [text[n:]] *)
Definition str_from (n : nat) (text : string) : string :=
  String.substring n (String.length text - n) text.

(** The list [headers_text] that [_handle_fuzzy] builds. *)
Definition headers_text (header : Header) : list string :=
  let command := origin_command header in
  match origin_prefixes header with
  | [] => [command]
  | prefixes =>
      (λ prefix,
         match prefix with
         | PrefixTuple first second => first ++ " " ++ second ++ command
         | PrefixStr s => s ++ command
         | PrefixObj text => text ++ " " ++ command
         end)%string <$> prefixes
  end.

Definition _handle_fuzzy (header : Header) (source : string) (threshold : Q) : res unit :=
  match find (λ ht, Qle_bool threshold (levenshtein ext source ht)) (headers_text header) with
  | Some ht => Raise (FuzzyMatchSuccess ht source)
  | None => Ok tt
  end.

(** [[
if argv.fuzzy_match:
    _handle_fuzzy(header, source, argv.fuzzy_threshold)
raise InvalidParam(...)
]] *)
Definition header_error (header : Header) (source : string) : M HeadResult :=
  let* a := get_argv in
  match (if Argv.fuzzy_match a then _handle_fuzzy header source (Argv.fuzzy_threshold a)
         else Ok tt) with
  | Raise e => raise e
  | Ok _ => raise InvalidParam
  end.

(** A header as [Header.generate] makes it: the compact pattern of a literal
    or regex content is a regex, that of a pattern content is a pattern. *)
Definition header_wf (header : Header) : Prop :=
  hd_compact header = true →
  match content header with
  | CSet _ | CRegex _ => ∃ r, compact_pattern header = CompRegex r
  | CPattern _ => ∃ p, compact_pattern header = CompPattern p
  | _ => True
  end.

(** The rollbacks that a pair matcher made. *)
Fixpoint replay (calls : list (pyval * bool)) : M unit :=
  match calls with
  | [] => ret tt
  | (data, replace) :: calls' => let* _ := Argv.rollback data replace in replay calls'
  end.

Definition with_fixes (mapping : list (string * BasePattern)) (r : HeadResult) : HeadResult :=
  {| hr_origin := hr_origin r; hr_result := hr_result r; hr_matched := hr_matched r;
     hr_groups := hr_groups r; hr_fixes := mapping |}.

(** The first block of [analyse_header], under [if _str:]; [None] when it
    falls through. *)
Definition header_str_stage (header : Header) (head_text : string) : M (option HeadResult) :=
  let mapping := mapping header in
  let literal :=
    match content header with
    | CSet s =>
        if bool_decide (head_text ∈ s)
        then Some {| hr_origin := VStr head_text; hr_result := VStr head_text;
                     hr_matched := true; hr_groups := []; hr_fixes := mapping |}
        else None
    | CRegex r =>
        match re_fullmatch r head_text with
        | Some gd => Some {| hr_origin := VStr head_text; hr_result := VStr head_text;
                             hr_matched := true; hr_groups := gd; hr_fixes := mapping |}
        | None => None
        end
    | _ => None
    end in
  match literal with
  | Some r => ret (Some r)
  | None =>
      if hd_compact header &&
         match content header with CSet _ | CRegex _ => true | _ => false end then
        match compact_pattern header with
        | CompRegex r =>
            match re_match r head_text with
            | Some (mat0, gd) =>
                let* _ := Argv.rollback (VStr (str_from (String.length mat0) head_text)) true in
                ret (Some {| hr_origin := VStr mat0; hr_result := VStr mat0;
                             hr_matched := true; hr_groups := gd; hr_fixes := mapping |})
            | None => ret None
            end
        | _ => raise AttributeError
        end
      else ret None
  end.

(** The block under [if isinstance(content, BasePattern):]. *)
Definition header_pattern_stage (header : Header) (head_text : pyval) (_str : bool) :
    M (option HeadResult) :=
  match content header with
  | CPattern p =>
      let val := validate p head_text None in
      if bool_decide (res_flag val = Valid) then
        ret (Some {| hr_origin := head_text; hr_result := res_value val;
                     hr_matched := true; hr_groups := []; hr_fixes := mapping header |})
      else if hd_compact header then
        match compact_pattern header with
        | CompPattern cp =>
            let val := validate cp head_text None in
            if bool_decide (res_flag val = Valid) then
              let* _ :=
                (if _str then
                   Argv.rollback
                     (VStr (str_from (String.length (py_str (res_value val))) (py_str head_text)))
                     true
                 else ret tt) in
              ret (Some {| hr_origin := res_value val; hr_result := res_value val;
                           hr_matched := true; hr_groups := []; hr_fixes := mapping header |})
            else ret None
        | _ => raise AttributeError
        end
      else ret None
  | _ => ret None
  end.

(** [for pair in content: if res := pair.match(...): return ...] *)
Fixpoint first_pair (pairs : list PairMatch) (head_text may_cmd : pyval)
    (_str _m_str is_compact : bool) : option (HeadResult * list (pyval * bool)) :=
  match pairs with
  | [] => None
  | matcher :: pairs' =>
      match matcher head_text may_cmd _str _m_str is_compact with
      | Some r => Some r
      | None => first_pair pairs' head_text may_cmd _str _m_str is_compact
      end
  end.

(** The two blocks after the second [argv.next()]. *)
Definition header_pair_stage (header : Header) (head_text may_cmd : pyval)
    (_str _m_str : bool) : M (option HeadResult) :=
  let found :=
    match content header with
    | CList pairs =>
        if _m_str then first_pair pairs head_text may_cmd _str _m_str (hd_compact header)
        else None
    | CDouble d => d head_text may_cmd _str _m_str (hd_compact header)
    | _ => None
    end in
  match found with
  | Some (r, calls) => let* _ := replay calls in ret (Some (with_fixes (mapping header) r))
  | None => ret None
  end.

Definition analyse_header (header : Header) : M HeadResult :=
  let* (head_text, _str) := Argv.next true in
  let* stage1 :=
    (match head_text with
     | VStr text => if _str then header_str_stage header text else ret None
     | _ => ret None
     end) in
  match stage1 with
  | Some r => ret r
  | None =>
      let* stage2 := header_pattern_stage header head_text _str in
      match stage2 with
      | Some r => ret r
      | None =>
          let* (may_cmd, _m_str) := Argv.next true in
          let* stage3 := header_pair_stage header head_text may_cmd _str _m_str in
          match stage3 with
          | Some r => ret r
          | None =>
              if _str then
                let* _ := Argv.rollback may_cmd false in
                header_error header (py_str head_text)
              else if _m_str && truthy may_cmd then
                header_error header (py_str head_text ++ " " ++ py_str may_cmd)%string
              else
                let* _ := Argv.rollback may_cmd false in
                raise InvalidParam
          end
      end
  end.

(** No variant of the header matches the string [head_text], [may_cmd]
    being the token that follows it and [_m_str] telling whether it is a
    string: every test of [analyse_header] that leads to a [return] fails.
    These are the membership, [fullmatch] and compact [match] for a literal
    or regex content, the two [validate] for a pattern content, and the
    pair matchers for a list or a [Double]. *)
Definition header_unmatched (header : Header) (head_text : string) (may_cmd : pyval)
    (_m_str : bool) : Prop :=
  match content header with
  | CSet s =>
      (head_text ∉ s) ∧
      (hd_compact header = true →
       ∀ r, compact_pattern header = CompRegex r → re_match r head_text = None)
  | CRegex r =>
      re_fullmatch r head_text = None ∧
      (hd_compact header = true →
       ∀ cr, compact_pattern header = CompRegex cr → re_match cr head_text = None)
  | CPattern p =>
      res_flag (validate p (VStr head_text) None) ≠ Valid ∧
      (hd_compact header = true →
       ∀ cp, compact_pattern header = CompPattern cp →
             res_flag (validate cp (VStr head_text) None) ≠ Valid)
  | CList pairs =>
      _m_str = true →
      first_pair pairs (VStr head_text) may_cmd true _m_str (hd_compact header) = None
  | CDouble d => d (VStr head_text) may_cmd true _m_str (hd_compact header) = None
  end.

(** ** _internal/_handlers.py: regex shortcuts *)

(** [\d] and [\w] on the characters of ASCII. *)
Definition is_digit (c : ascii) : bool :=
  let n := nat_of_ascii c in Nat.leb 48 n && Nat.leb n 57.

Definition is_word (c : ascii) : bool :=
  let n := nat_of_ascii c in
  is_digit c || (Nat.leb 65 n && Nat.leb n 90) || (Nat.leb 97 n && Nat.leb n 122) ||
  Nat.eqb n 95.

(** The longest prefix of characters of a class, and what follows it. *)
Fixpoint span (p : ascii → bool) (text : string) : string * string :=
  match text with
  | String c rest =>
      if p c then let '(body, after) := span p rest in (String c body, after)
      else (EmptyString, text)
  | EmptyString => (EmptyString, EmptyString)
  end.

(** Group 1 of [SLOT.fullmatch(unit)] for [SLOT = \{(p+)\}]. *)
Definition slot_fullmatch (p : ascii → bool) (unit : string) : option string :=
  match unit with
  | String "{"%char rest =>
      match span p rest with
      | (String c body, String "}"%char EmptyString) => Some (String c body)
      | _ => None
      end
  | _ => None
  end.

(** [SLOT.findall(unit)]: the scan is outside a slot ([inside = None]) or
    after an opening brace, with the characters of the class read so far. *)
Fixpoint slot_findall_from (p : ascii → bool) (inside : option string) (text : string) :
    list string :=
  match text with
  | EmptyString => []
  | String c rest =>
      if Ascii.eqb c "{" then slot_findall_from p (Some EmptyString) rest
      else
        match inside with
        | None => slot_findall_from p None rest
        | Some body =>
            if p c then slot_findall_from p (Some (body ++ String c EmptyString)%string) rest
            else if Ascii.eqb c "}" && negb (String.eqb body "")
            then body :: slot_findall_from p None rest
            else slot_findall_from p None rest
        end
  end.

Definition slot_findall (p : ascii → bool) (unit : string) : list string :=
  slot_findall_from p None unit.

(** [text.replace(old, new)] for a non-empty [old]; [skip] characters of an
    occurrence just replaced are still to be passed over. *)
Fixpoint replace_from (old new : string) (skip : nat) (text : string) : string :=
  match text with
  | EmptyString => EmptyString
  | String c rest =>
      match skip with
      | S skip' => replace_from old new skip' rest
      | 0 =>
          if String.prefix old text
          then (new ++ replace_from old new (String.length old - 1) rest)%string
          else String c (replace_from old new 0 rest)
      end
  end.

Definition replace (old new text : string) : string := replace_from old new 0 text.

(** [int(digits)] *)
Definition int_of_digits (digits : string) : nat :=
  foldl (λ n c, 10 * n + (nat_of_ascii c - 48)) 0 (String.list_ascii_of_string digits).

(** [f"{{{index}}}"] and [f"{{{key}}}"] *)
Definition index_slot (index : nat) : string := ("{" ++ pretty index ++ "}")%string.
Definition key_slot (key : string) : string := ("{" ++ key ++ "}")%string.

(** [ShortcutRegWrapper]: called with the index or the name of the group and
    the text it captured. *)
Definition ShortcutRegWrapper : Type := nat + string → string → pyval.

(** [wrapper(ref, slot) or slot] *)
Definition wrapped (wrapper : ShortcutRegWrapper) (ref : nat + string) (slot : string) : pyval :=
  let w := wrapper ref slot in if truthy w then w else VStr slot.

(** The loop [for index in map(int, mat): ...] over the indexes found. *)
Definition substitute_indexes (groups : list (option string)) (wrapper : ShortcutRegWrapper)
    (mat : list string) (unit : string) : string :=
  foldl (λ unit digits,
           let index := int_of_digits digits in
           match groups !! index with
           | None | Some None => replace (index_slot index) "" unit
           | Some (Some slot) =>
               replace (index_slot index) (py_str (wrapped wrapper (inl index) slot)) unit
           end) unit mat.

(** The loop [for key in mat: ...] over the names found. *)
Definition substitute_keys (gdict : list (string * option string)) (wrapper : ShortcutRegWrapper)
    (mat : list string) (unit : string) : string :=
  foldl (λ unit key,
           match od_get key gdict with
           | None | Some None => replace (key_slot key) "" unit
           | Some (Some slot) =>
               replace (key_slot key) (py_str (wrapped wrapper (inr key) slot)) unit
           end) unit mat.

(** What one element of [argv.raw_data] adds to [data]. *)
Definition shortcut_reg_unit (groups : list (option string))
    (gdict : list (string * option string)) (wrapper : ShortcutRegWrapper)
    (unit : pyval) : list pyval :=
  match unit with
  | VStr text =>
      let unit := escape ext text in
      match slot_fullmatch is_digit unit with
      | Some digits =>
          let index := int_of_digits digits in
          match groups !! index with
          | None | Some None => []
          | Some (Some slot) => [wrapped wrapper (inl index) slot]
          end
      | None =>
          match slot_fullmatch is_word unit with
          | Some key =>
              match od_get key gdict with
              | None | Some None => []
              | Some (Some slot) => [wrapped wrapper (inr key) slot]
              end
          | None =>
              let unit := substitute_indexes groups wrapper (slot_findall is_digit unit) unit in
              let unit := substitute_keys gdict wrapper (slot_findall is_word unit) unit in
              if String.eqb unit "" then [] else [VStr (unescape ext unit)]
          end
      end
  | _ => [unit]
  end.

Definition _handle_shortcut_reg (argv : Argv.t) (groups : list (option string))
    (gdict : list (string * option string)) (wrapper : ShortcutRegWrapper) : list pyval :=
  Argv.raw_data argv ≫= shortcut_reg_unit groups gdict wrapper.

End WithExt.

Arguments Returned {A} x.
Arguments Exhausted {A} x.

End Handlers.

(** ** Sample grammars and inputs *)

Module Samples.
Import PyDict Grammar Handlers.
Open Scope string_scope.

(** The external functions on the texts that the samples use: no regex
    metacharacter in an alias, no backslash to escape, one separator. *)
Definition sample_ext : Ext := {|
  split_once := λ text _ _, (text, "");
  pat_name := λ text, Some (lstrip_dash text);
  kwarg_match := λ _ _, None;
  alias_rest := λ al text,
    if String.prefix al text then Some (str_from (String.length al) text) else None;
  remainders := [];
  levenshtein := λ source target,
    match Levenshtein.levenshtein_norm source target with Ok q => q | Raise _ => 0%Q end;
  escape := λ text, text;
  unescape := λ text, text;
  repr := λ _, "<object>";
|}.

(** An argument vector as [build] leaves it for the tokens [data]. *)
Definition sample_argv (data : list pyval) : Argv.t :=
  {| Argv.raw_data := data; Argv.current_index := 0; Argv.ndata := length data;
     Argv.context := Argv.CtxNone;
     Argv.special := {["--help" := "help"]};
     Argv.disable_builtin_options := ∅;
     Argv.param_ids := ∅;
     Argv.fuzzy_match := false; Argv.fuzzy_threshold := (6 # 10)%Q;
     Argv.filter_crlf := true;
     Argv.converter := VList |}.

Definition with_param_ids (ids : gset string) (a : Argv.t) : Argv.t :=
  {| Argv.raw_data := Argv.raw_data a; Argv.current_index := Argv.current_index a;
     Argv.ndata := Argv.ndata a; Argv.context := Argv.context a;
     Argv.special := Argv.special a;
     Argv.disable_builtin_options := Argv.disable_builtin_options a;
     Argv.param_ids := ids;
     Argv.fuzzy_match := Argv.fuzzy_match a; Argv.fuzzy_threshold := Argv.fuzzy_threshold a;
     Argv.filter_crlf := Argv.filter_crlf a; Argv.converter := Argv.converter a |}.

Definition with_fuzzy_match (a : Argv.t) : Argv.t :=
  {| Argv.raw_data := Argv.raw_data a; Argv.current_index := Argv.current_index a;
     Argv.ndata := Argv.ndata a; Argv.context := Argv.context a;
     Argv.special := Argv.special a;
     Argv.disable_builtin_options := Argv.disable_builtin_options a;
     Argv.param_ids := Argv.param_ids a;
     Argv.fuzzy_match := true; Argv.fuzzy_threshold := Argv.fuzzy_threshold a;
     Argv.filter_crlf := Argv.filter_crlf a; Argv.converter := Argv.converter a |}.

(** The pattern of [str]: any string is valid. *)
Definition str_pattern : BasePattern := {|
  ident := STRING; alias := "str";
  validate := λ v _,
    match v with
    | VStr _ => {| res_flag := Valid; res_value := v |}
    | _ => {| res_flag := Error; res_value := VNone |}
    end;
|}.

(** The pattern of [int]: a string of digits is valid, and is converted. *)
Definition int_pattern : BasePattern := {|
  ident := OtherPattern; alias := "int";
  validate := λ v _,
    match v with
    | VInt _ => {| res_flag := Valid; res_value := v |}
    | VStr (String c rest) =>
        if forallb is_digit (String.list_ascii_of_string (String c rest))
        then {| res_flag := Valid; res_value := VInt (Z.of_nat (int_of_digits (String c rest))) |}
        else {| res_flag := Error; res_value := VNone |}
    | _ => {| res_flag := Error; res_value := VNone |}
    end;
|}.

(** [AllParam]: the wildcard. *)
Definition all_param : BasePattern := {|
  ident := OtherPattern; alias := "*";
  validate := λ v _, {| res_flag := Valid; res_value := v |};
|}.

Definition no_args : Args := mkArgs [] [] [] [] None.

(** [Arg(name, value)] with the separator [" "]. *)
Definition arg (name : string) (value : BasePattern) (default : option pyval)
    (optional : bool) : Arg :=
  {| Grammar.name := name; arg_value := value; separators := [" "];
     field_default := default; optional := optional |}.

(** [Args["pkg", MultiVar(str, flag), default]] *)
Definition pkg_value (flag : string) : MultiVar :=
  {| mv_base := str_pattern; mv_flag := flag; mv_length := (-1)%Z |}.

Definition pkg_arg (default : option pyval) : Arg := arg "pkg" str_pattern default false.

Definition pkg_args (flag : string) (default : option pyval) : Args :=
  mkArgs [] [] [(pkg_value flag, pkg_arg default)] [] None.

(** [Args["x", str]["rest", AllParam]["pkg", MultiVar(str, "*")]] *)
Definition x_arg : Arg := arg "x" str_pattern None false.

Definition rest_arg (optional : bool) : Arg := arg "rest" all_param None optional.

Definition wild_args : Args :=
  mkArgs [x_arg; rest_arg false] [] [(pkg_value "*", pkg_arg None)] [] None.

(** [Args["rest;?", AllParam]["pkg", MultiVar(str, "*")]] *)
Definition optional_wild_args : Args :=
  mkArgs [rest_arg true] [] [(pkg_value "*", pkg_arg None)] [] None.

(** [Option(name, args, action=Action(type, value), compact=compact)]
    with [name] as its only alias. *)
Definition option (name : string) (opt_args : Args) (nargs : nat) (act_type : nat)
    (act_value : pyval) (compact : bool) : Option :=
  {| opt_name := name; aliases := [name]; dest := lstrip_dash name; opt_args := opt_args;
     opt_separators := [" "]; action := {| act_type := act_type; act_value := act_value |};
     Grammar.compact := compact; Grammar.nargs := nargs |}.

(** [Option("-v", action=count)] *)
Definition verbose : Option := option "-v" no_args 0 2 (VInt 1) false.

(** [Option("-v", Args["x", int], action=count)] *)
Definition verbose_int : Option :=
  option "-v" (mkArgs [arg "x" int_pattern None false] [] [] [] None) 1 2 (VInt 1) false.

(** [Option("-vv", Args["y", str], compact=True)] *)
Definition vv_compact : Option :=
  option "-vv" (mkArgs [arg "y" str_pattern None false] [] [] [] None) 1 0 VNone true.

(** [Option("-x", compact=True)] *)
Definition x_compact : Option := option "-x" no_args 0 0 VNone true.

(** The analyser of a scope with the given parameters and nothing parsed. *)
Definition analyser (params : gmap string Param) (compacts : list Param) : Analyser :=
  {| command_nargs := 0; self_args := no_args; compile_params := params;
     compact_params := compacts; options_result := []; subcommands_result := [];
     args_result := []; extra_allow := false |}.

(** [Option("-f", Args["x;?", int], action=append)] *)
Definition append_opt : Option :=
  option "-f" (mkArgs [arg "x" int_pattern None true] [] [] [] None) 1 1 (VList []) false.

(** [Option("-v", action=count, compact=True)] *)
Definition verbose_compact : Option := option "-v" no_args 0 2 (VInt 1) true.


(** The header of [Alconna("ping", prefixes=["!", "?"])]. *)
Definition ping_header : Header :=
  {| origin_command := "ping"; origin_prefixes := [PrefixStr "!"; PrefixStr "?"];
     content := CSet {["!ping"; "?ping"]}; mapping := []; hd_compact := false;
     compact_pattern := CompNone |}.

End Samples.

(** ** util.py: [split_once] and [split] *)

Module Text.

(** A character of a text as the one-character string that the loops of
    [split_once] and [split] see. *)
Definition char_str (c : ascii) : string := String c EmptyString.

(** [char in {...}] for the set of the two quotation marks, single and
    double. *)
Definition is_quote (c : ascii) : bool :=
  Ascii.eqb c "'" || Ascii.eqb c "034".

(** [char in {"\n", "\r"}] *)
Definition is_newline (c : ascii) : bool :=
  Ascii.eqb c "010" || Ascii.eqb c "013".

(** [text[n:]] *)
Fixpoint str_drop (n : nat) (text : string) : string :=
  match n, text with
  | S n', String _ rest => str_drop n' rest
  | _, _ => text
  end.

(** A string written in ASCII: every character of the model is then one
    character of the Python string, and [String.length] is its [len]. *)
Definition is_ascii (s : string) : bool :=
  forallb (λ c, Nat.ltb (nat_of_ascii c) 128) (String.list_ascii_of_string s).

(** The argument [separates] of [split_once]: a string or a set of strings. *)
Inductive Separates : Type :=
  | SepStr (s : string)
  | SepSet (s : gset string).

(** [separates if isinstance(separates, set) else {separates}] *)
Definition as_set (separates : Separates) : gset string :=
  match separates with
  | SepStr s => {[ s ]}
  | SepSet s => s
  end.

(** The loop of [split_once], from one character of [text] on: the state is
    [(quotation, is_split)], the value is what the loop adds to [out_text]
    until it stops. *)
Fixpoint split_once_loop (separates : gset string) (quotation : string) (is_split : bool)
    (text : string) : string :=
  match text with
  | EmptyString => EmptyString
  | String char rest =>
      let '(quotation, is_split) :=
        if is_quote char then
          if String.eqb quotation "" then (char_str char, false)
          else if String.eqb (char_str char) quotation then (EmptyString, true)
          else (quotation, is_split)
        else (quotation, is_split) in
      if bool_decide (char_str char ∈ separates) && is_split then EmptyString
      else String char (split_once_loop separates quotation is_split rest)
  end.

Definition split_once (text : string) (separates : Separates) : string * string :=
  let result := split_once_loop (as_set separates) "" true text in
  (result, str_drop (String.length result + 1) text).

(** The loop of [split], from one character of [text] on. [prev] is
    [text[index - 1]], and is [None] at index 0; the value is [(result,
    cache)] when the loop ends. *)
Fixpoint split_loop (separates : gset string) (prev : option ascii) (result : list string)
    (quotation cache : string) (text : string) : list string * string :=
  match text with
  | EmptyString => (result, cache)
  | String char rest =>
      (* [index and text[index - 1] == "\\"] *)
      let escaped := match prev with Some p => Ascii.eqb p "\" | None => false end in
      if is_quote char then
        if String.eqb quotation "" then
          split_loop separates (Some char) result (char_str char)
            (if escaped then cache ++ char_str char else cache) rest
        else if String.eqb (char_str char) quotation then
          split_loop separates (Some char) result EmptyString
            (if escaped then cache ++ char_str char else cache) rest
        else split_loop separates (Some char) result quotation cache rest
      else if is_newline char ||
              (String.eqb quotation "" && bool_decide (char_str char ∈ separates) &&
               negb (String.eqb cache "")) then
        split_loop separates (Some char) (result ++ [cache]) quotation EmptyString rest
      else if negb (Ascii.eqb char "\") &&
              (negb (bool_decide (char_str char ∈ separates)) || negb (String.eqb quotation ""))
      then split_loop separates (Some char) result quotation (cache ++ char_str char) rest
      else split_loop separates (Some char) result quotation cache rest
  end.

(** [separates or {" "}] *)
Definition or_space (separates : option (gset string)) : gset string :=
  match separates with
  | Some s => if decide (s = ∅) then {[ " "%string ]} else s
  | None => {[ " "%string ]}
  end.

Definition split (text : string) (separates : option (gset string)) : list string :=
  let '(result, cache) := split_loop (or_space separates) None [] "" "" text in
  if String.eqb cache "" then result else result ++ [cache].

(** [sep.join(words)] *)
Fixpoint join (sep : string) (words : list string) : string :=
  match words with
  | [] => EmptyString
  | [w] => w
  | w :: words' => w ++ sep ++ join sep words'
  end.

(** A word that [split] hands back as it is: not empty, and without quote,
    backslash, line break or separator. *)
Definition plain (separates : gset string) (w : string) : Prop :=
  w ≠ EmptyString ∧
  Forall (λ c, is_quote c = false ∧ is_newline c = false ∧ c ≠ "\"%char ∧
               char_str c ∉ separates)
    (String.list_ascii_of_string w).

End Text.

(** ** util.py: [LruCache], the methods that only read *)

Module LruCacheQueries.
Import PyDict LruCache.

(** [l[:stop:-1]]: the slice that starts at the last element and walks back
    to the index [stop], which it leaves out. The indices are adjusted as
    Python does for a negative step: a negative [stop] counts from the end
    and is cut off at [-1], one beyond the end is cut off at [len(l) - 1]. *)
Definition slice_back {A : Type} (l : list A) (stop : Z) : list A :=
  let len := Z.of_nat (length l) in
  let start := (len - 1)%Z in
  let stop :=
    if (stop <? 0)%Z then (if (stop + len <? 0)%Z then (-1)%Z else (stop + len)%Z)
    else if (len <=? stop)%Z then (len - 1)%Z else stop in
  let slicelength := if (stop <? start)%Z then (start - stop)%Z else 0%Z in
  omap (λ i, l !! Z.to_nat (start - Z.of_nat i)) (seq 0 (Z.to_nat slicelength)).

Section Queries.
Context {K V : Type} `{Countable K}.

(** [size] *)
Definition size (c : t K V) : Z := size_ c.

(** [has], [__contains__] *)
Definition has (key : K) (c : t K V) : bool := od_mem key (cache c).

(** [recent]: [list(self.cache.keys())[-1]] raises [IndexError] on an empty
    cache, which [contextlib.suppress(KeyError)] lets through; [Ok None] is
    the [return None] after a suppressed [KeyError]. *)
Definition recent (c : t K V) : res (option V) :=
  match last (od_keys (cache c)) with
  | None => Raise IndexError
  | Some key =>
      match od_get key (cache c) with
      | Some v => Ok (Some v)
      | None => Ok None
      end
  end.

(** [items]: the list behind the iterator that is returned. Slicing never
    raises, so the [IndexError] that the source suppresses cannot occur. *)
Definition items (size : Z) (c : t K V) : list (K * V) :=
  if (0 <? size)%Z then slice_back (cache c) (- size) else cache c.

(** [__size - len(cache)]: what the counter is ahead of the entries. *)
Definition lead (c : t K V) : Z := (size_ c - Z.of_nat (len c))%Z.

(** A call that neither deletes nor clears. *)
Definition keeps (o : op K V) : bool :=
  match o with
  | OpSet _ _ _ | OpGet _ => true
  | OpDelete _ | OpClear => false
  end.

(** Every entry has its record, the counter is the number of entries, and
    within [max_size] when there is a bound. *)
Definition exact (c : t K V) : Prop :=
  recorded c ∧ size_ c = Z.of_nat (length (cache c)) ∧
  ((0 < max_size c)%Z → (size_ c ≤ max_size c)%Z).

(** A cache with a bound that stores nothing any more: it is empty and its
    counter has reached the bound. *)
Definition stuck (M : Z) (c : t K V) : Prop :=
  max_size c = M ∧ cache c = [] ∧ record c = ∅ ∧ (M ≤ size_ c)%Z.

End Queries.

End LruCacheQueries.

(** ** _internal/_handlers.py: the defaults of options *)

Module Defaults.
Import PyDict Grammar.

(** [x == 1] for a Python object: the integer 1, and [True]. *)
Definition py_eq_one (v : pyval) : bool :=
  match v with
  | VInt n => Z.eqb n 1
  | VBool b => b
  | _ => false
  end.

(** [d.setdefault(key, value)], the dictionary that is left. *)
Definition od_setdefault {V : Type} (key : string) (value : V) (d : list (string * V)) :
    list (string * V) :=
  if od_mem key d then d else od_set key value d.

(** [[
for key, value in v[0].args.items():
    data[k].args.setdefault(key, [value] if v[1].value == 1 else value)
]] [args] is [data[k].args] before the loop, the result is what it is after. *)
Definition fill_args (act : Action) (default_args args : list (string * pyval)) :
    list (string * pyval) :=
  foldl (λ acc kv,
           od_setdefault kv.1 (if py_eq_one (act_value act) then VList [kv.2] else kv.2) acc)
    args default_args.

(** The body of the loop of [handle_opt_default] for one item [k, v] of
    [defaults]. When [data[k]] is the object [v[0]] that was just stored, the
    inner loop calls [setdefault] on the dictionary it iterates over, with
    keys that are all present: nothing changes (lemma [fill_args_same]). *)
Definition opt_default_step (data : list (string * OptionResult))
    (item : string * (OptionResult * Action)) : list (string * OptionResult) :=
  let '(k, (v0, v1)) := item in
  let data := if od_mem k data then data else od_set k v0 data in
  match args v0 with
  | [] => data
  | _ =>
      match od_get k data with
      | Some cur =>
          od_set k {| value_ := value_ cur; args := fill_args v1 (args v0) (args cur) |} data
      | None => data
      end
  end.

(** [handle_opt_default]: the dictionary [data] as the call leaves it. *)
Definition handle_opt_default (defaults : list (string * (OptionResult * Action)))
    (data : list (string * OptionResult)) : list (string * OptionResult) :=
  foldl opt_default_step data defaults.

(** The value that [setdefault] stores for a missing argument. *)
Definition default_arg (act : Action) (v : pyval) : pyval :=
  if py_eq_one (act_value act) then VList [v] else v.

(** What one item [(v0, v1)] of [defaults] makes of the entry [cur] that
    [data] has under its key. *)
Definition defaulted (v0 : OptionResult) (v1 : Action) (cur : option OptionResult) :
    OptionResult :=
  match cur with
  | None => v0
  | Some cur =>
      match args v0 with
      | [] => cur
      | _ => {| value_ := value_ cur; args := fill_args v1 (args v0) (args cur) |}
      end
  end.

End Defaults.

(** ** _internal/_handlers.py: the data of a shortcut *)

Module ShortcutData.
Import Grammar.

(** The body of the loop of [_gen_extend]: a string that follows a string
    is appended to it after [sep], anything else is a new element. *)
Definition gen_extend_step (sep : string) (extend : list pyval) (slot : pyval) : list pyval :=
  match slot, last extend with
  | VStr s, Some (VStr prev) => removelast extend ++ [VStr (prev ++ sep ++ s)]
  | _, _ => extend ++ [slot]
  end.

Definition _gen_extend (data : list pyval) (sep : string) : list pyval :=
  foldl (gen_extend_step sep) [] data.

(** Two strings next to each other in a list. *)
Definition adjacent_strings (l : list pyval) : Prop :=
  ∃ l1 s1 s2 l2, l = l1 ++ VStr s1 :: VStr s2 :: l2.

End ShortcutData.

(** ** typing.py: [MultiVar] *)

Module Typing.
Import Grammar.

(** [MultiVar.__init__(value, flag)] for a [value] that is a pattern: [flag]
    is an integer or one of the strings ["+"] and ["*"]. The alias only
    names the pattern and is left out. *)
Definition MultiVar_init (base : BasePattern) (flag : Z + string) : MultiVar :=
  match flag with
  | inr f => {| mv_base := base; mv_flag := f; mv_length := (-1)%Z |}
  | inl n =>
      if (1 <? n)%Z then {| mv_base := base; mv_flag := "+"; mv_length := n |}
      else {| mv_base := base; mv_flag := "+"; mv_length := 1%Z |}
  end.

End Typing.

(** ** _internal/_handlers.py: a unit of a regex shortcut without slot *)

Module ShortcutText.
Import Grammar.

(** What [_handle_shortcut_reg] adds to [data] for a unit in which no slot
    is found: the unit itself when it is no string, and for a string the
    text after [escape] and [unescape], unless it is empty. *)
Definition plain_unit (ext : Ext) (unit : pyval) : list pyval :=
  match unit with
  | VStr text =>
      if String.eqb (escape ext text) "" then [] else [VStr (unescape ext (escape ext text))]
  | _ => [unit]
  end.

End ShortcutText.

(** ** _internal/_handlers.py: the slots of a shortcut's data *)

Module ShortcutSlots.
Import PyDict Grammar Handlers ShortcutData.

(** The exceptions that the list and string operations of
    [_handle_shortcut_data] can raise. *)
Inductive slot_exn : Type :=
  | SlotIndexError    (* [IndexError]: an assignment beyond the end of a list *)
  | SlotValueError.   (* [ValueError]: [left, right = ...] on a list of one element *)

(** [l[i] = v], and the list as it is left. *)
Definition list_assign (l : list pyval) (i : nat) (v : pyval) : option slot_exn * list pyval :=
  if Nat.ltb i (length l) then (None, <[i := v]> l) else (Some SlotIndexError, l).

(** [l.insert(i, v)]: an index beyond the end appends. *)
Definition list_insert_at (l : list pyval) (i : nat) (v : pyval) : list pyval :=
  take i l ++ v :: drop i l.

(** [c.isspace()] on the characters of ASCII. *)
Definition is_space (c : ascii) : bool :=
  let n := nat_of_ascii c in
  (Nat.leb 9 n && Nat.leb n 13) || (Nat.leb 28 n && Nat.leb n 32).

(** The characters that are left when the leading white space is taken off. *)
Fixpoint lstrip_chars (chars : list ascii) : list ascii :=
  match chars with
  | c :: rest => if is_space c then lstrip_chars rest else chars
  | [] => []
  end.

(** [text.strip()] *)
Definition strip (text : string) : string :=
  String.string_of_list_ascii
    (reverse (lstrip_chars (reverse (lstrip_chars (String.list_ascii_of_string text))))).

(** [text.split(sep, 1)] for a non-empty [sep]: the two parts when [sep]
    occurs in [text]; [None] when the list returned has one element. *)
Fixpoint split_first (sep text : string) : option (string * string) :=
  match text with
  | EmptyString => None
  | String c rest =>
      if String.prefix sep text then Some (EmptyString, str_from (String.length sep) text)
      else
        match split_first sep rest with
        | Some (left_, right_) => Some (String c left_, right_)
        | None => None
        end
  end.

(** [f"{{%{index}}}"] *)
Definition pct_slot (index : nat) : string := ("{%" ++ pretty index ++ "}")%string.

(** Group 1 of [INDEX_SLOT.fullmatch(unit)] for [INDEX_SLOT = \{%(\d+)\}]. *)
Definition index_fullmatch (unit : string) : option string :=
  match unit with
  | String "{"%char (String "%"%char rest) =>
      match span is_digit rest with
      | (String c body, String "}"%char EmptyString) => Some (String c body)
      | _ => None
      end
  | _ => None
  end.

(** Where the scan of [INDEX_SLOT.findall] is: outside a slot, after an
    opening brace, or after ["{%"] with the digits read so far. *)
Inductive scan : Type :=
  | Outside
  | AfterBrace
  | InDigits (body : string).

(** [INDEX_SLOT.findall(unit)], from one character on. *)
Fixpoint index_findall_from (st : scan) (text : string) : list string :=
  match text with
  | EmptyString => []
  | String c rest =>
      if Ascii.eqb c "{" then index_findall_from AfterBrace rest
      else
        match st with
        | Outside => index_findall_from Outside rest
        | AfterBrace =>
            if Ascii.eqb c "%" then index_findall_from (InDigits EmptyString) rest
            else index_findall_from Outside rest
        | InDigits body =>
            if is_digit c
            then index_findall_from (InDigits (body ++ String c EmptyString)%string) rest
            else if Ascii.eqb c "}" && negb (String.eqb body "")
            then body :: index_findall_from Outside rest
            else index_findall_from Outside rest
        end
  end.

Definition index_findall (unit : string) : list string :=
  index_findall_from Outside unit.

(** The longest prefix of [text] that a closing brace follows: what the
    greedy group of [WILDCARD_SLOT] takes in front of the closing brace, any
    character being allowed ([re.DOTALL]). *)
Fixpoint up_to_last_brace (text : string) : option string :=
  match text with
  | EmptyString => None
  | String c rest =>
      match up_to_last_brace rest with
      | Some g => Some (String c g)
      | None => if Ascii.eqb c "}" then Some EmptyString else None
      end
  end.

(** Group 1 of [WILDCARD_SLOT.search(unit)], from one character on;
    [WILDCARD_SLOT] is an opening brace, a star, the group (any text, as
    long as possible) and a closing brace. [after_brace] tells that the
    character before is an opening brace. *)
Fixpoint wildcard_search_from (after_brace : bool) (text : string) : option string :=
  match text with
  | EmptyString => None
  | String c rest =>
      if after_brace && Ascii.eqb c "*" then
        match up_to_last_brace rest with
        | Some g => Some g
        | None => wildcard_search_from false rest
        end
      else wildcard_search_from (Ascii.eqb c "{") rest
  end.

Definition wildcard_search (unit : string) : option string :=
  wildcard_search_from false unit.

(** [f"{{*{group}}}"] *)
Definition wildcard_slot (group : string) : string := ("{*" ++ group ++ "}")%string.

Section WithExt.
Variable ext : Ext.

(** [_handle_multi_slot]: the exception if one is raised, [argv.raw_data]
    as the call leaves it, and the offset returned. *)
Definition _handle_multi_slot (raw_data : list pyval) (unit : string) (data : list pyval)
    (index current offset : nat) : option slot_exn * list pyval * nat :=
  match data !! index with
  | None => (Some SlotIndexError, raw_data, offset)
  | Some (VStr slot) =>
      let '(e, raw_data) :=
        list_assign raw_data (current + offset)
          (VStr (unescape ext (replace (pct_slot index) slot unit))) in
      (e, raw_data, offset)
  | Some slot =>
      match split_first (pct_slot index) unit with
      | None => (Some SlotValueError, raw_data, offset)
      | Some (left_, right_) =>
          let '(e, raw_data) :=
            if String.eqb (strip left_) "" then (None, raw_data)
            else list_assign raw_data current (VStr (strip left_)) in
          match e with
          | Some e => (Some e, raw_data, offset)
          | None =>
              let raw_data := list_insert_at raw_data (current + 1) slot in
              if String.eqb (strip right_) "" then (None, raw_data, offset)
              else
                let '(e, raw_data) :=
                  list_assign raw_data (current + 2) (VStr (strip right_)) in
                match e with
                | Some e => (Some e, raw_data, offset)
                | None => (None, raw_data, offset + 1)
                end
          end
      end
  end.

(** What the loop of [_handle_shortcut_data] carries: [argv.raw_data],
    [offset] and [record]. *)
Record slots_state : Type := {
  st_raw : list pyval;
  st_offset : nat;
  st_record : gset nat;
}.

(** How the body of the loop ends for one unit: the loop goes on, it is
    left by [break] (after [data.clear()]), or an exception is raised. *)
Inductive unit_exit : Type :=
  | GoOn (st : slots_state)
  | Leave (st : slots_state)
  | Failure (e : slot_exn) (st : slots_state).

(** [[
for index in map(int, res):
    if index >= data_len: continue
    offset = _handle_multi_slot(argv, unit, data, index, i, offset)
    record.add(index)
]] *)
Fixpoint multi_slots (data : list pyval) (unit : string) (i : nat) (found : list string)
    (st : slots_state) : unit_exit :=
  match found with
  | [] => GoOn st
  | digits :: found' =>
      let index := int_of_digits digits in
      if Nat.leb (length data) index then multi_slots data unit i found' st
      else
        match _handle_multi_slot (st_raw st) unit data index i (st_offset st) with
        | (Some e, raw_data, offset) =>
            Failure e {| st_raw := raw_data; st_offset := st_offset st;
                         st_record := st_record st |}
        | (None, raw_data, offset) =>
            multi_slots data unit i found'
              {| st_raw := raw_data; st_offset := offset;
                 st_record := {[ index ]} ∪ st_record st |}
        end
  end.

(** The body of the loop of [_handle_shortcut_data] for the unit at index
    [i] of the copy of [argv.raw_data]. *)
Definition shortcut_data_unit (data : list pyval) (i : nat) (unit : pyval)
    (st : slots_state) : unit_exit :=
  match unit with
  | VStr text =>
      let unit := escape ext text in
      match index_fullmatch unit with
      | Some digits =>
          let index := int_of_digits digits in
          if Nat.leb (length data) index then GoOn st
          else
            match data !! index with
            | None => Failure SlotIndexError st
            | Some slot =>
                match list_assign (st_raw st) (i + st_offset st) slot with
                | (Some e, raw_data) =>
                    Failure e {| st_raw := raw_data; st_offset := st_offset st;
                                 st_record := st_record st |}
                | (None, raw_data) =>
                    GoOn {| st_raw := raw_data; st_offset := st_offset st;
                            st_record := {[ index ]} ∪ st_record st |}
                end
            end
      | None =>
          match index_findall unit with
          | digits :: found => multi_slots data unit i (digits :: found) st
          | [] =>
              match wildcard_search unit with
              | Some group =>
                  let extend :=
                    _gen_extend data (if String.eqb group "" then " " else group) in
                  if String.eqb unit (wildcard_slot group) then
                    Leave {| st_raw := st_raw st ++ extend; st_offset := st_offset st;
                             st_record := st_record st |}
                  else
                    let joined := foldr (λ v acc, py_str ext v ++ acc)%string EmptyString extend in
                    match list_assign (st_raw st) (i + st_offset st)
                            (VStr (unescape ext (replace (wildcard_slot group) joined unit))) with
                    | (Some e, raw_data) =>
                        Failure e {| st_raw := raw_data; st_offset := st_offset st;
                                     st_record := st_record st |}
                    | (None, raw_data) =>
                        Leave {| st_raw := raw_data; st_offset := st_offset st;
                                 st_record := st_record st |}
                    end
              | None => GoOn st
              end
          end
      end
  | _ => GoOn st
  end.

(** [for i, unit in enumerate(argv.raw_data.copy()): ...], from the unit at
    index [i] on. *)
Fixpoint shortcut_data_loop (data : list pyval) (i : nat) (units : list pyval)
    (st : slots_state) : unit_exit :=
  match units with
  | [] => GoOn st
  | unit :: units' =>
      match shortcut_data_unit data i unit st with
      | GoOn st' => shortcut_data_loop data (S i) units' st'
      | exit => exit
      end
  end.

(** [[unit for i, unit in enumerate(data) if i not in record]] *)
Definition unused (data : list pyval) (record : gset nat) : list pyval :=
  (imap (λ i unit, (i, unit)) data) ≫=
    (λ iu, if bool_decide (iu.1 ∈ record) then [] else [iu.2]).

(** [_handle_shortcut_data]: the list returned or the exception raised,
    with [argv.raw_data] and [data] as the call leaves them. *)
Definition _handle_shortcut_data (raw_data data : list pyval) :
    (list pyval + slot_exn) * list pyval * list pyval :=
  match data with
  | [] => (inl [], raw_data, data)
  | _ =>
      match shortcut_data_loop data 0 raw_data
              {| st_raw := raw_data; st_offset := 0; st_record := ∅ |} with
      | GoOn st => (inl (unused data (st_record st)), st_raw st, data)
      | Leave st => (inl [], st_raw st, [])
      | Failure e st => (inr e, st_raw st, data)
      end
  end.

(** What a unit that is one index slot is replaced by: the element of
    [data] that it names, when there is one. *)
Definition filled (data : list pyval) (unit : pyval) : pyval :=
  match unit with
  | VStr text =>
      match index_fullmatch (escape ext text) with
      | Some digits => default unit (data !! int_of_digits digits)
      | None => unit
      end
  | _ => unit
  end.

(** The indexes that the units that are one index slot name. *)
Definition named (data : list pyval) (units : list pyval) : gset nat :=
  list_to_set
    (units ≫= λ unit,
       match unit with
       | VStr text =>
           match index_fullmatch (escape ext text) with
           | Some digits =>
               if Nat.ltb (int_of_digits digits) (length data) then [int_of_digits digits]
               else []
           | None => []
           end
       | _ => []
       end).

(** A unit that is one index slot, or in which no slot can start. *)
Definition whole_slot (unit : pyval) : Prop :=
  ∀ text, unit = VStr text →
    is_Some (index_fullmatch (escape ext text)) ∨
    Forall (λ c, c ≠ "{"%char) (String.list_ascii_of_string (escape ext text)).

(** A unit in which no slot can start: no string, or a string without
    opening brace once escaped. *)
Definition slotless (unit : pyval) : Prop :=
  ∀ text, unit = VStr text →
    Forall (λ c, c ≠ "{"%char) (String.list_ascii_of_string (escape ext text)).

End WithExt.

End ShortcutSlots.

(** * Theorems *)

Module LevenshteinFacts.
Import Levenshtein.

Section Distance.
Variables source target : string.

Lemma dist_0_l j : dist source target 0 j = j.
Proof. reflexivity. Qed.

Lemma dist_S_0 i : dist source target (S i) 0 = S i.
Proof. reflexivity. Qed.

Lemma dist_S_S i j :
  dist source target (S i) (S j) =
  Nat.min (Nat.min (dist source target i (S j) + 1) (dist source target (S i) j + 1))
    (dist source target i j + cost source target (S i) (S j)).
Proof. reflexivity. Qed.

Lemma dist_0_r i : dist source target i 0 = i.
Proof. destruct i; reflexivity. Qed.

Lemma cost_le_1 i j : cost source target i j <= 1.
Proof. unfold cost. case_decide; lia. Qed.

Lemma dist_le_max i j : dist source target i j <= Nat.max i j.
Proof.
  revert j. induction i as [|i IHi]; intros j.
  - rewrite dist_0_l. lia.
  - induction j as [|j IHj].
    + rewrite dist_S_0. lia.
    + rewrite dist_S_S. pose proof (IHi j). pose proof (cost_le_1 (S i) (S j)). lia.
Qed.

Lemma dist_zero_prefix i j :
  dist source target i j = 0 ->
  i = j /\ forall n, n < i -> String.get n source = String.get n target.
Proof.
  revert j. induction i as [|i IHi]; intros j.
  - rewrite dist_0_l. intros ->. split; [done | intros; lia].
  - destruct j as [|j].
    + rewrite dist_S_0. discriminate.
    + rewrite dist_S_S. intros H.
      assert (Hd : dist source target i j = 0) by lia.
      assert (Hc : cost source target (S i) (S j) = 0) by lia.
      destruct (IHi j Hd) as [-> Hpre]. split; [done |].
      intros n Hn. destruct (decide (n = j)) as [-> | Hne].
      * unfold cost in Hc. simpl in Hc. rewrite !Nat.sub_0_r in Hc.
        case_decide; [done | discriminate].
      * apply Hpre. lia.
Qed.

End Distance.

Lemma dist_diag_same source i : dist source source i i = 0.
Proof.
  induction i as [|i IHi]; [done |].
  rewrite dist_S_S, IHi. unfold cost. rewrite decide_True by done. lia.
Qed.

Lemma get_beyond s n : String.length s <= n -> String.get n s = None.
Proof.
  revert n. induction s as [|c s IHs]; intros n Hn; [done |].
  destruct n as [|n]; simpl in *; [lia |]. apply IHs. lia.
Qed.

Lemma dist_zero_iff source target :
  dist source target (String.length source) (String.length target) = 0 <-> source = target.
Proof.
  split.
  - intros H. apply dist_zero_prefix in H as [Hlen Hpre].
    apply String.get_correct. intros n.
    destruct (decide (n < String.length source)) as [Hlt | Hge]; [by apply Hpre |].
    rewrite !get_beyond; [done | lia | lia].
  - intros ->. apply dist_diag_same.
Qed.

(** *** The two loops fill the matrix with [dist] *)

Section Matrix.
Variables (source target : string) (l_s l_t : nat).

#[local] Abbreviation shaped := (shaped l_s l_t).
#[local] Abbreviation inv := (inv source target l_s l_t).




Lemma shaped_mset m i j v : shaped m -> shaped (mset m i j v).
Proof.
  intros [Hlen Hrow]. unfold mset. split.
  - by rewrite length_insert.
  - intros i' Hi'. rewrite nth_lookup.
    destruct (decide (i' = i)) as [-> | Hne].
    + rewrite list_lookup_insert_eq by lia. simpl.
      rewrite length_insert. by apply Hrow.
    + rewrite list_lookup_insert_ne by done. rewrite <- nth_lookup. by apply Hrow.
Qed.

Lemma mget_mset_eq m i j v :
  shaped m -> i <= l_s -> j <= l_t -> mget (mset m i j v) i j = v.
Proof.
  intros [Hlen Hrow] Hi Hj. unfold mget, mset.
  rewrite (nth_lookup _ i), list_lookup_insert_eq by lia. simpl.
  rewrite nth_lookup, list_lookup_insert_eq; [done |].
  rewrite Hrow by done. lia.
Qed.

Lemma mget_mset_ne m i j v i' j' :
  (i' <> i \/ j' <> j) -> mget (mset m i j v) i' j' = mget m i' j'.
Proof.
  intros Hne. unfold mget, mset.
  destruct (decide (i' = i)) as [-> | Hi].
  - destruct (decide (i < length m)) as [Hlt | Hge].
    + rewrite (nth_lookup _ i), list_lookup_insert_eq by done. simpl.
      rewrite !(nth_lookup _ j'), list_lookup_insert_ne; [done |].
      destruct Hne; [done | by intros ->].
    + rewrite list_insert_ge by lia. done.
  - rewrite !(nth_lookup _ i'), list_lookup_insert_ne by done. done.
Qed.

Lemma mget_init i j :
  i <= l_s -> j <= l_t ->
  mget (init_matrix l_s l_t) i j = if Nat.eqb j 0 then i else j.
Proof.
  intros Hi Hj. unfold mget, init_matrix.
  rewrite (nth_lookup _ i), list_lookup_fmap, lookup_seq_lt by lia.
  cbn [fmap option_fmap option_map default from_option id].
  rewrite nth_lookup, list_lookup_fmap, lookup_seq_lt by lia. done.
Qed.

Lemma inv_init : inv 0 0 (init_matrix l_s l_t).
Proof.
  split.
  - split.
    + unfold init_matrix. by rewrite length_fmap, length_seq.
    + intros i Hi. unfold init_matrix.
      rewrite nth_lookup, list_lookup_fmap, lookup_seq_lt by lia.
      cbn [fmap option_fmap option_map default from_option id].
      by rewrite length_fmap, length_seq.
  - intros i' j' Hi' Hj' Hf. rewrite mget_init by done.
    destruct Hf as [-> | [-> | [Hlt | [-> Hle]]]].
    + rewrite dist_0_l. by destruct j'.
    + by rewrite dist_0_r.
    + lia.
    + rewrite dist_0_l. by destruct j'.
Qed.

Lemma inv_inner_step i j m :
  i < l_s -> j < l_t ->
  inv (S i) j m -> inv (S i) (S j) (inner_step source target (S i) m (S j)).
Proof.
  intros Hi Hj [Hsh Hcell]. split; [by apply shaped_mset |].
  intros i' j' Hi' Hj' Hf. unfold inner_step. simpl. rewrite !Nat.sub_0_r.
  destruct (decide (i' = S i /\ j' = S j)) as [[-> ->] | Hne].
  - rewrite mget_mset_eq by (done || lia).
    rewrite dist_S_S.
    rewrite !Hcell by (try lia; unfold filled; lia).
    done.
  - rewrite mget_mset_ne by lia.
    apply Hcell; [done | done |]. unfold filled in *. lia.
Qed.

Lemma inv_inner_loop i k j m :
  i < l_s -> j + k <= l_t ->
  inv (S i) j m ->
  inv (S i) (j + k) (foldl (inner_step source target (S i)) m (seq (S j) k)).
Proof.
  intros Hi. revert j m. induction k as [|k IHk]; intros j m Hk Hinv.
  - by rewrite Nat.add_0_r.
  - simpl. replace (j + S k) with (S j + k) by lia.
    apply IHk; [lia |]. apply inv_inner_step; [done | lia | done].
Qed.

Lemma inv_next_row i m : inv i l_t m -> inv (S i) 0 m.
Proof.
  intros [Hsh Hcell]. split; [done |].
  intros i' j' Hi' Hj' Hf. apply Hcell; [done | done |]. unfold filled in *. lia.
Qed.

Lemma inv_outer_loop k i m :
  i + k <= l_s ->
  inv i l_t m ->
  inv (i + k) l_t (foldl (outer_step source target l_t) m (seq (S i) k)).
Proof.
  revert i m. induction k as [|k IHk]; intros i m Hk Hinv.
  - by rewrite Nat.add_0_r.
  - simpl. replace (i + S k) with (S i + k) by lia.
    apply IHk; [lia |]. unfold outer_step.
    apply (inv_inner_loop i l_t 0 m); [lia | lia |]. by apply inv_next_row.
Qed.

End Matrix.

Lemma inv_row_0 source target l_s l_t m :
  inv source target l_s l_t 0 0 m -> inv source target l_s l_t 0 l_t m.
Proof.
  intros [Hsh Hcell]. split; [done |].
  intros i' j' Hi' Hj' Hf.
  destruct (decide (i' = 0)) as [-> | Hne].
  - apply Hcell; [done | done |]. by left.
  - apply Hcell; [done | done |]. unfold filled in *. lia.
Qed.

Lemma fill_matrix_dist source target :
  mget (fill_matrix source target) (String.length source) (String.length target) =
  dist source target (String.length source) (String.length target).
Proof.
  unfold fill_matrix.
  pose proof (inv_outer_loop source target (String.length source) (String.length target)
                (String.length source) 0 _ (le_n _)
                (inv_row_0 _ _ _ _ _ (inv_init source target _ _))) as [_ Hcell].
  apply Hcell; [done | done |]. unfold filled. simpl. lia.
Qed.

Lemma similarity_bounds (d m : nat) :
  0 < m -> d <= m ->
  (0 <= 1 - (Z.of_nat d # Pos.of_nat m) <= 1)%Q /\
  ((1 - (Z.of_nat d # Pos.of_nat m) == 1)%Q <-> d = 0).
Proof.
  intros Hm Hd.
  assert (Hpos : Z.pos (Pos.of_nat m) = Z.of_nat m).
  { rewrite <- positive_nat_Z, Nat2Pos.id by lia. done. }
  unfold Qle, Qeq, Qminus, Qplus, Qopp. simpl.
  rewrite ?Pos2Z.inj_mul, ?Hpos. split; [split |]; nia.
Qed.

(** C9: when at least one of the two strings is non-empty,
    [levenshtein_norm source target] returns a value in the closed interval
    [0, 1], and that value is 1 exactly when [source] equals [target]. *)
Theorem levenshtein_norm_range (source target : string) :
  source <> ""%string \/ target <> ""%string ->
  exists q : Q,
    levenshtein_norm source target = Ok q /\
    (0 <= q <= 1)%Q /\
    ((q == 1)%Q <-> source = target).
Proof.
  intros Hne.
  assert (Hm : 0 < Nat.max (String.length source) (String.length target)).
  { destruct Hne as [H | H]; [destruct source | destruct target]; simpl; try done; lia. }
  unfold levenshtein_norm.
  destruct (Nat.eqb_spec (Nat.max (String.length source) (String.length target)) 0) as [E | _];
    [lia |].
  eexists. split; [reflexivity |].
  rewrite fill_matrix_dist.
  pose proof (dist_le_max source target (String.length source) (String.length target)) as Hd.
  destruct (similarity_bounds _ _ Hm Hd) as [Hrange Hone].
  split; [exact Hrange |].
  rewrite Hone. apply dist_zero_iff.
Qed.

Lemma levenshtein_norm_range_witness :
  exists q : Q,
    levenshtein_norm "kitten" "sitting" = Ok q /\
    (0 <= q <= 1)%Q /\
    ((q == 1)%Q <-> "kitten"%string = "sitting"%string).
Proof. apply (levenshtein_norm_range "kitten" "sitting"). left. discriminate. Defined.

End LevenshteinFacts.

Module PyDictFacts.
Import PyDict.

Section OrderedDictFacts.
Context {K V : Type} `{EqDecision K}.
Implicit Types (d : list (K * V)) (key : K).

Lemma od_mem_true key d : od_mem key d = true <-> key ∈ od_keys d.
Proof. unfold od_mem. apply bool_decide_eq_true. Qed.

Lemma od_mem_false key d : od_mem key d = false <-> key ∉ od_keys d.
Proof. unfold od_mem. apply bool_decide_eq_false. Qed.

Lemma od_keys_app d1 d2 : od_keys (d1 ++ d2) = od_keys d1 ++ od_keys d2.
Proof. unfold od_keys. apply fmap_app. Qed.

Lemma od_set_new key value d :
  key ∉ od_keys d → od_set key value d = d ++ [(key, value)].
Proof.
  induction d as [|[k v] d IH]; simpl; intros Hn; [done |].
  apply not_elem_of_cons in Hn as [Hne Hn].
  rewrite decide_False by done. f_equal. by apply IH.
Qed.

Lemma od_split key d :
  key ∈ od_keys d →
  exists d1 v d2,
    d = d1 ++ (key, v) :: d2 ∧ (key ∉ od_keys d1) ∧
    od_get key d = Some v ∧ od_remove key d = d1 ++ d2.
Proof.
  induction d as [|[k v] d IH]; simpl.
  - intros Hin. by apply elem_of_nil in Hin.
  - intros Hin. destruct (decide (k = key)) as [-> | Hne].
    + exists [], v, d. split_and!; try done. apply not_elem_of_nil.
    + apply elem_of_cons in Hin as [-> | Hin]; [done |].
      destruct (IH Hin) as (d1 & v' & d2 & -> & Hn & Hg & Hr).
      exists ((k, v) :: d1), v', d2. rewrite Hg, Hr. split_and!; try done.
      simpl. apply not_elem_of_cons. split; [congruence | done].
Qed.

Lemma od_get_last key v d : key ∉ od_keys d → od_get key (d ++ [(key, v)]) = Some v.
Proof.
  induction d as [|[k v'] d IH]; simpl; intros Hn.
  - by rewrite decide_True.
  - apply not_elem_of_cons in Hn as [Hne Hn].
    rewrite decide_False by done. by apply IH.
Qed.

End OrderedDictFacts.

End PyDictFacts.

Module LruCacheFacts.
Import PyDict PyDictFacts LruCache.

Section CacheFacts.
Context {K V : Type} `{Countable K}.
Implicit Types (c : t K V) (o : op K V) (key : K) (st : K → option nat).

(** *** What [set] does to the entries *)

Lemma set_record_cache key expiration c :
  cache (set_record key expiration c).2 = cache c.
Proof. unfold set_record. by destruct (timedelta_fits expiration). Qed.

Lemma set_record_size key expiration c :
  size_ (set_record key expiration c).2 = size_ c.
Proof. unfold set_record. by destruct (timedelta_fits expiration). Qed.

Lemma set_record_max_size key expiration c :
  max_size (set_record key expiration c).2 = max_size c.
Proof. unfold set_record. by destruct (timedelta_fits expiration). Qed.

(** The entries after [set] with a new key, whatever the call returns or
    raises: the new entry is last, and the head is dropped when the counter
    is beyond the bound. *)
Lemma set_cache c key value expiration :
  key ∉ od_keys (cache c) →
  cache (set key value expiration c).2 =
    if bool_decide (0 < max_size c)%Z && bool_decide (max_size c < size_ c + 1)%Z
    then tail (cache c ++ [(key, value)])
    else cache c ++ [(key, value)].
Proof.
  intros Hnew. unfold set. rewrite (proj2 (od_mem_false key (cache c))) by done.
  rewrite od_set_new by done.
  destruct (_ && _); [| by rewrite set_record_cache].
  destruct (cache c ++ [(key, value)]) as [| [k0 v0] cache2]; [done |].
  destruct (record c !! k0); [by rewrite set_record_cache | done].
Qed.

Lemma set_size c key value expiration :
  (size_ c ≤ size_ (set key value expiration c).2 ≤ size_ c + 1)%Z.
Proof.
  unfold set. destruct (od_mem key (cache c)); [simpl; lia |].
  destruct (_ && _); [| rewrite set_record_size; simpl; lia].
  destruct (od_set key value (cache c)) as [| [k0 v0] cache2]; [simpl; lia |].
  destruct (record c !! k0); [rewrite set_record_size |]; simpl; lia.
Qed.

(** *** The invariant *)

Lemma wf_init M : wf M (init M : t K V).
Proof.
  unfold wf, init. simpl. split_and!; [done | constructor | | lia | lia].
  intros k [e He]. by rewrite lookup_empty in He.
Qed.

Lemma wf_len M c : (0 < M)%Z → wf M c → (Z.of_nat (len c) ≤ M)%Z.
Proof. intros HM (_ & _ & _ & _ & Hb). by apply Hb. Qed.

Lemma wf_clear M c : wf M c → wf M (clear c).
Proof.
  intros (HM & _ & _ & Hsz & _). unfold wf, clear. simpl.
  split_and!; [done | constructor | | lia | lia].
  intros k [e He]. by rewrite lookup_empty in He.
Qed.

Lemma wf_get M c key : wf M c → wf M (snd (get key c)).
Proof.
  intros Hwf. unfold get, getitem.
  destruct (od_mem key (cache c)) eqn:Hmem; [| done].
  apply od_mem_true in Hmem.
  destruct (od_split key (cache c) Hmem) as (d1 & v & d2 & Hc & Hn1 & Hg & Hr).
  destruct Hwf as (HM & Hnd & Hrec & Hsz & Hb).
  assert (Hwf' : wf M {| max_size := max_size c; cache := od_move_to_end key (cache c);
                         record := record c; size_ := size_ c |}).
  { unfold od_move_to_end. rewrite Hg, Hr. unfold wf. simpl.
    rewrite Hc in Hnd, Hrec, Hsz, Hb.
    rewrite !od_keys_app in *. simpl in *.
    split_and!; [done | | | |].
    - apply NoDup_app in Hnd as (Hnd1 & Hdisj & Hnd2).
      apply NoDup_cons in Hnd2 as [Hn2 Hnd2].
      rewrite <- app_assoc. apply NoDup_app. split_and!; [done | | ].
      + intros x Hx Hx'. apply (Hdisj x Hx).
        apply elem_of_app in Hx' as [Hx' | Hx']; [by right |].
        apply list_elem_of_singleton in Hx' as ->. by left.
      + apply NoDup_app. split_and!; [done | | apply NoDup_singleton].
        intros x Hx Hx'. apply list_elem_of_singleton in Hx' as ->. done.
    - intros k Hk. apply Hrec in Hk.
      rewrite elem_of_app, elem_of_cons in Hk.
      rewrite !elem_of_app, list_elem_of_singleton. tauto.
    - rewrite !length_app in *. simpl in *. lia.
    - intros HM'. specialize (Hb HM'). rewrite !length_app in *. simpl in *. lia. }
  cbn [cache]. destruct (od_get key (od_move_to_end key (cache c))); exact Hwf'.
Qed.

Lemma wf_delete M c key : wf M c → wf M (snd (delete key c)).
Proof.
  intros Hwf. unfold delete.
  destruct (od_mem key (cache c)) eqn:Hmem; [| done].
  apply od_mem_true in Hmem.
  destruct (od_split key (cache c) Hmem) as (d1 & v & d2 & Hc & Hn1 & Hg & Hr).
  destruct Hwf as (HM & Hnd & Hrec & Hsz & Hb).
  rewrite Hr. rewrite Hc in Hnd, Hrec, Hsz, Hb.
  rewrite !od_keys_app in *. simpl in *.
  apply NoDup_app in Hnd as (Hnd1 & Hdisj & Hnd2).
  apply NoDup_cons in Hnd2 as [Hn2 Hnd2].
  assert (Hnd' : NoDup (od_keys d1 ++ od_keys d2)).
  { apply NoDup_app. split_and!; [done | | done].
    intros x Hx Hx'. apply (Hdisj x Hx). by right. }
  assert (Hsz' : (Z.of_nat (length (d1 ++ d2)) ≤ size_ c)%Z).
  { rewrite !length_app in *. simpl in *. lia. }
  assert (Hb' : (0 < M)%Z → (Z.of_nat (length (d1 ++ d2)) ≤ M)%Z).
  { intros HM'. specialize (Hb HM'). rewrite !length_app in *. simpl in *. lia. }
  destruct (record c !! key) eqn:Hk; unfold wf; simpl; rewrite od_keys_app;
    (split_and!; [done | done | | done | done]).
  - intros k [e He]. destruct (decide (k = key)) as [-> | Hne].
    + by rewrite lookup_delete_eq in He.
    + rewrite lookup_delete_ne in He by done.
      assert (k ∈ od_keys d1 ++ key :: od_keys d2) as Hin by (apply Hrec; by eexists).
      rewrite elem_of_app, elem_of_cons in Hin. rewrite elem_of_app. tauto.
  - intros k Hk'.
    assert (k ≠ key) as Hne by (intros ->; destruct Hk' as [e He]; congruence).
    apply Hrec in Hk'. rewrite elem_of_app, elem_of_cons in Hk'.
    rewrite elem_of_app. tauto.
Qed.

Lemma NoDup_snoc_fresh (l : list K) (x : K) : NoDup l → x ∉ l → NoDup (l ++ [x]).
Proof.
  intros Hnd Hx. apply NoDup_app. split_and!; [done | | apply NoDup_singleton].
  intros y Hy Hy'. apply list_elem_of_singleton in Hy' as ->. done.
Qed.

Lemma wf_set_record M c key expiration :
  wf M c → key ∈ od_keys (cache c) → wf M (set_record key expiration c).2.
Proof.
  intros Hwf Hin. unfold set_record. destruct (timedelta_fits expiration); [| done].
  destruct Hwf as (HM & Hnd & Hrec & Hsz & Hb).
  unfold wf. simpl. split_and!; try done.
  intros k Hk. destruct (decide (k = key)) as [-> | Hne]; [done |].
  rewrite lookup_insert_ne in Hk by done. by apply Hrec.
Qed.

Lemma wf_set M c key value expiration :
  wf M c → wf M (snd (set key value expiration c)).
Proof.
  intros Hwf. unfold set.
  destruct (od_mem key (cache c)) eqn:Hmem; [done |].
  apply od_mem_false in Hmem. rewrite od_set_new by done.
  destruct Hwf as (HMc & Hnd & Hrec & Hsz & Hb). rewrite HMc.
  destruct (bool_decide (0 < M)%Z && bool_decide (M < size_ c + 1)%Z) eqn:Hfull.
  - apply andb_true_iff in Hfull as [HM Hfull].
    apply bool_decide_eq_true in HM. apply bool_decide_eq_true in Hfull.
    specialize (Hb HM).
    destruct (cache c) as [| [k0 v0] rest] eqn:Hc; cbn [app].
    + assert (record c !! key = None) as ->.
      { apply eq_None_not_Some. intros Hk. apply Hrec in Hk. by apply elem_of_nil in Hk. }
      unfold wf. simpl. split_and!; [done | constructor | done | lia | lia].
    + simpl in Hnd, Hrec, Hmem, Hsz, Hb.
      apply NoDup_cons in Hnd as [Hk0 Hnd].
      apply not_elem_of_cons in Hmem as [Hne Hmem].
      destruct (record c !! k0) as [e0 |] eqn:He0.
      * apply wf_set_record; [| cbn [cache]; rewrite od_keys_app, elem_of_app; right; by left].
        unfold wf. simpl. rewrite od_keys_app, length_app. simpl.
        split_and!; [done | by apply NoDup_snoc_fresh | | lia | lia].
        intros k [e He]. destruct (decide (k = k0)) as [-> | Hk].
        -- by rewrite lookup_delete_eq in He.
        -- rewrite lookup_delete_ne in He by done.
           assert (k ∈ k0 :: od_keys rest) as Hin by (apply Hrec; by eexists).
           apply elem_of_cons in Hin as [-> | Hin]; [done |].
           rewrite elem_of_app. by left.
      * unfold wf. simpl. rewrite od_keys_app, length_app. simpl.
        split_and!; [done | by apply NoDup_snoc_fresh | | lia | lia].
        intros k Hk.
        assert (k ≠ k0) as Hk' by (intros ->; destruct Hk as [e He]; congruence).
        apply Hrec in Hk. apply elem_of_cons in Hk as [-> | Hin]; [done |].
        rewrite elem_of_app. by left.
  - apply andb_false_iff in Hfull.
    apply wf_set_record; [| cbn [cache]; rewrite od_keys_app, elem_of_app; right; by left].
    unfold wf. simpl. rewrite od_keys_app, length_app. simpl.
    split_and!; [done | by apply NoDup_snoc_fresh | | lia |].
    + intros k Hk. rewrite elem_of_app. left. by apply Hrec.
    + intros HM. destruct Hfull as [Hf | Hf]; apply bool_decide_eq_false in Hf; lia.
Qed.

Lemma wf_step M c o : wf M c → wf M (step c o).
Proof.
  intros Hwf. destruct o; simpl.
  - by apply wf_set.
  - by apply wf_get.
  - by apply wf_delete.
  - by apply wf_clear.
Qed.

Lemma wf_run M ops c : wf M c → wf M (run ops c).
Proof.
  revert c. induction ops as [|o ops IH]; intros c Hwf; [done |].
  simpl. apply IH. by apply wf_step.
Qed.

Lemma wf_reachable M ops : wf M (run ops (init M : t K V)).
Proof. apply wf_run, wf_init. Qed.

(** *** Every entry has its record while the expirations fit *)

Lemma recorded_init M : recorded (init M : t K V).
Proof. intros k Hk. by apply elem_of_nil in Hk. Qed.

Lemma recorded_step M c o :
  fits o = true → wf M c → recorded c → recorded (step c o).
Proof.
  intros Hfits (_ & Hnd & _ & _ & _) Hrec.
  destruct o as [key value expiration | key | key |]; simpl.
  - simpl in Hfits. unfold set.
    destruct (od_mem key (cache c)) eqn:Hmem; [done |].
    apply od_mem_false in Hmem. rewrite od_set_new by done.
    unfold set_record. rewrite Hfits.
    destruct (_ && _).
    + destruct (cache c) as [| [k0 v0] rest] eqn:Hc; cbn [app].
      * destruct (record c !! key); intros k Hk; simpl in Hk; by apply elem_of_nil in Hk.
      * unfold recorded in Hrec. rewrite Hc in Hrec. simpl in Hrec, Hnd, Hmem.
        apply NoDup_cons in Hnd as [Hk0 Hnd].
        destruct (Hrec k0) as [e0 He0]; [by left |]. rewrite He0.
        intros k Hk. simpl in *. rewrite od_keys_app in Hk.
        apply elem_of_app in Hk as [Hk | Hk].
        -- destruct (decide (k = key)) as [-> | Hne]; [rewrite lookup_insert_eq; by eexists |].
           rewrite lookup_insert_ne by done.
           rewrite lookup_delete_ne by (intros <-; done). apply Hrec. by right.
        -- apply list_elem_of_singleton in Hk as ->. rewrite lookup_insert_eq. by eexists.
    + intros k Hk. simpl in *. rewrite od_keys_app in Hk.
      apply elem_of_app in Hk as [Hk | Hk].
      * destruct (decide (k = key)) as [-> | Hne]; [rewrite lookup_insert_eq; by eexists |].
        rewrite lookup_insert_ne by done. by apply Hrec.
      * apply list_elem_of_singleton in Hk as ->. rewrite lookup_insert_eq. by eexists.
  - unfold get, getitem. destruct (od_mem key (cache c)) eqn:Hmem; [| done].
    apply od_mem_true in Hmem.
    destruct (od_split key (cache c) Hmem) as (d1 & v & d2 & Hc & Hn1 & Hg & Hr).
    assert (recorded {| max_size := max_size c; cache := od_move_to_end key (cache c);
                        record := record c; size_ := size_ c |}) as Hrec'.
    { intros k Hk. simpl in *. apply Hrec. unfold od_move_to_end in Hk.
      rewrite Hg, Hr in Hk. rewrite Hc.
      rewrite !od_keys_app in *. simpl in *.
      rewrite !elem_of_app, list_elem_of_singleton in Hk.
      rewrite elem_of_app, elem_of_cons. tauto. }
    cbn [cache]. destruct (od_get key (od_move_to_end key (cache c))); exact Hrec'.
  - unfold delete. destruct (od_mem key (cache c)) eqn:Hmem; [| done].
    apply od_mem_true in Hmem.
    destruct (od_split key (cache c) Hmem) as (d1 & v & d2 & Hc & Hn1 & Hg & Hr).
    destruct (Hrec key Hmem) as [e He]. rewrite He, Hr.
    rewrite Hc in Hnd. rewrite od_keys_app in Hnd. simpl in Hnd.
    apply NoDup_app in Hnd as (_ & Hdisj & Hnd2). apply NoDup_cons in Hnd2 as [Hn2 _].
    intros k Hk. simpl in *. rewrite od_keys_app in Hk.
    assert (k ≠ key) as Hne.
    { intros ->. apply elem_of_app in Hk as [Hk | Hk]; done. }
    rewrite lookup_delete_ne by done. apply Hrec. rewrite Hc, od_keys_app. simpl.
    rewrite elem_of_app in Hk. rewrite elem_of_app, elem_of_cons. tauto.
  - intros k Hk. by apply elem_of_nil in Hk.
Qed.

Lemma recorded_run M ops c :
  forallb fits ops = true → wf M c → recorded c → recorded (run ops c).
Proof.
  revert c. induction ops as [|o ops IH]; intros c Hfits Hwf Hrec; [done |].
  simpl in Hfits. apply andb_true_iff in Hfits as [Ho Hfits].
  simpl. apply IH; [done | by apply wf_step | by eapply recorded_step].
Qed.

(** *** The order of the entries is the order of their last use *)

Lemma sorted_stamps_nil st now : sorted_stamps st now [].
Proof. split; constructor. Qed.

Lemma sorted_stamps_ext st st' now now' l :
  (∀ k, k ∈ l → st' k = st k) → now ≤ now' →
  sorted_stamps st now l → sorted_stamps st' now' l.
Proof.
  intros Hext Hle [Hs Hf]. split.
  - induction Hs as [|x l Hs IH Hx]; constructor.
    + apply IH; [intros k Hk; apply Hext; by right |].
      by apply Forall_cons in Hf as [_ Hf].
    + apply Forall_forall. intros y Hy.
      rewrite Forall_forall in Hx. destruct (Hx y Hy) as (n1 & n2 & H1 & H2 & Hlt).
      exists n1, n2. rewrite !Hext; [done | by right | by left].
  - apply Forall_forall. intros k Hk. rewrite Forall_forall in Hf.
    destruct (Hf k Hk) as (n & Hn & Hlt). exists n. rewrite Hext by done. split; [done | lia].
Qed.

Lemma sorted_stamps_tail st now x l : sorted_stamps st now (x :: l) → sorted_stamps st now l.
Proof.
  intros [Hs Hf]. apply StronglySorted_cons in Hs as [_ Hs].
  apply Forall_cons in Hf as [_ Hf]. by split.
Qed.

Lemma sorted_stamps_drop st now l1 x l2 :
  sorted_stamps st now (l1 ++ x :: l2) → sorted_stamps st now (l1 ++ l2).
Proof.
  intros [Hs Hf]. apply StronglySorted_app in Hs as (Hcross & Hs1 & Hs2).
  apply StronglySorted_cons in Hs2 as [_ Hs2].
  apply Forall_app in Hf as [Hf1 Hf2]. apply Forall_cons in Hf2 as [_ Hf2].
  split.
  - apply StronglySorted_app. split_and!; [| done | done].
    intros x1 x2 Hx1 Hx2. apply Hcross; [done | by right].
  - apply Forall_app. by split.
Qed.

Lemma sorted_stamps_snoc st now l x :
  x ∉ l → sorted_stamps st now l →
  sorted_stamps (touch st now (Some x)) (S now) (l ++ [x]).
Proof.
  intros Hx Hsl.
  assert (Hl : sorted_stamps (touch st now (Some x)) (S now) l).
  { apply (sorted_stamps_ext st _ now); [| lia | done].
    intros k Hk. unfold touch. rewrite decide_False; [done |]. intros [= ->]. done. }
  destruct Hsl as [_ Hf]. destruct Hl as [Hs' Hf'].
  assert (Hnow : touch st now (Some x) x = Some now).
  { unfold touch. by rewrite decide_True. }
  split.
  - apply StronglySorted_app. split_and!; [| done | repeat constructor].
    intros x1 x2 Hx1 Hx2. apply list_elem_of_singleton in Hx2 as ->.
    rewrite Forall_forall in Hf. destruct (Hf x1 Hx1) as (n & Hn & Hlt).
    exists n, now. split_and!; [| done | done].
    unfold touch. rewrite decide_False; [done |]. intros [= ->]. done.
  - apply Forall_app. split; [done |]. constructor; [| constructor].
    exists now. split; [done | lia].
Qed.

Lemma touch_None st now k : touch st now None k = st k.
Proof. unfold touch. by rewrite decide_False. Qed.

Lemma stamped_step M st now c o :
  wf M c → stamped st now c →
  stamped (touch st now (touched c o)) (S now) (step c o).
Proof.
  intros (_ & Hnd & _ & _) Hst. unfold stamped in *.
  assert (Hsame : ∀ l, sorted_stamps st now l → sorted_stamps (touch st now None) (S now) l).
  { intros l. apply sorted_stamps_ext; [intros; apply touch_None | lia]. }
  destruct o as [key value expiration | key | key |]; simpl.
  - destruct (od_mem key (cache c)) eqn:Hmem.
    + unfold set. rewrite Hmem. by apply Hsame.
    + apply od_mem_false in Hmem. rewrite set_cache by done.
      assert (sorted_stamps (touch st now (Some key)) (S now)
                (od_keys (cache c ++ [(key, value)]))) as Hsnoc.
      { rewrite od_keys_app. by apply sorted_stamps_snoc. }
      destruct (_ && _); [| done].
      destruct (cache c ++ [(key, value)]) as [| [k0 v0] cache2]; [done |].
      simpl in *. by apply sorted_stamps_tail in Hsnoc.
  - unfold get, getitem. destruct (od_mem key (cache c)) eqn:Hmem; [| by apply Hsame].
    apply od_mem_true in Hmem.
    destruct (od_split key (cache c) Hmem) as (d1 & v & d2 & Hc & Hn1 & Hg & Hr).
    cbn [cache].
    assert (Hgoal : sorted_stamps (touch st now (Some key)) (S now)
                      (od_keys (od_move_to_end key (cache c)))).
    { unfold od_move_to_end. rewrite Hg, Hr. rewrite Hc in Hst, Hnd.
      rewrite !od_keys_app in *. simpl in *.
      apply sorted_stamps_snoc; [| by apply (sorted_stamps_drop _ _ _ key)].
      apply NoDup_app in Hnd as (_ & _ & Hnd2). apply NoDup_cons in Hnd2 as [Hn2 _].
      rewrite elem_of_app. tauto. }
    destruct (od_get key (od_move_to_end key (cache c))); exact Hgoal.
  - unfold delete. destruct (od_mem key (cache c)) eqn:Hmem; [| by apply Hsame].
    apply od_mem_true in Hmem.
    destruct (od_split key (cache c) Hmem) as (d1 & v & d2 & Hc & Hn1 & Hg & Hr).
    rewrite Hr. rewrite Hc in Hst. rewrite !od_keys_app in *. simpl in *.
    apply Hsame in Hst. apply sorted_stamps_drop in Hst.
    destruct (record c !! key); simpl; by rewrite od_keys_app.
  - apply sorted_stamps_nil.
Qed.

Lemma stamped_run M ops c st now :
  wf M c → stamped st now c →
  stamped (λ k, match last_use ops c now k with Some n => Some n | None => st k end)
    (now + length ops) (run ops c).
Proof.
  revert c st now. induction ops as [|o ops IH]; intros c st now Hwf Hst.
  - simpl. by apply (sorted_stamps_ext st _ now); [| lia |].
  - simpl. replace (now + S (length ops)) with (S now + length ops) by lia.
    pose proof (IH (step c o) _ (S now) (wf_step _ _ o Hwf)
                  (stamped_step _ _ _ _ o Hwf Hst)) as Hrun.
    refine (sorted_stamps_ext _ _ _ _ _ _ (le_n _) Hrun).
    intros k _. simpl.
    destruct (last_use ops (step c o) (S now) k); [done |].
    unfold touch. by destruct (decide (touched c o = Some k)).
Qed.

(** C10: a cache built with [max_size > 0] never holds more than [max_size]
    entries, whatever calls of [set], [get], [delete] and [clear] are made
    and whatever they raise. When it is full, [set] with a new key stores
    the new entry last and drops exactly the head entry, whose last
    insertion or access is older than that of every entry that stays; this
    is so whether the call returns or raises, and it returns normally when
    [timedelta] accepts its expiration and those of the calls before. *)
Theorem lru_cache_bounded_evicts_oldest (M : Z) (ops : list (op K V)) :
  (0 < M)%Z →
  let c := run ops (init M) in
  (Z.of_nat (len c) ≤ M)%Z ∧
  ∀ key value expiration,
    od_mem key (cache c) = false →
    Z.of_nat (len c) = M →
    ∃ k0 v0 rest,
      cache c = (k0, v0) :: rest ∧
      cache (set key value expiration c).2 = rest ++ [(key, value)] ∧
      (∀ k1, k1 ∈ od_keys rest →
         ∃ n0 n1, last_use ops (init M) 0 k0 = Some n0 ∧
                  last_use ops (init M) 0 k1 = Some n1 ∧ n0 < n1) ∧
      (forallb fits ops = true → timedelta_fits expiration = true →
       (set key value expiration c).1 = Ok tt).
Proof.
  intros HM c.
  pose proof (wf_reachable M ops) as Hwf. fold c in Hwf.
  split; [by apply (wf_len M) |].
  intros key value expiration Hmem Hlen.
  pose proof Hwf as (HMc & Hnd & Hrec & Hsz & Hb).
  unfold len in Hlen.
  assert (∃ k0 v0 rest, cache c = (k0, v0) :: rest) as (k0 & v0 & rest & Hc).
  { destruct (cache c) as [| [k0 v0] rest]; [simpl in Hlen; lia | by eexists _, _, _]. }
  assert (bool_decide (0 < max_size c)%Z && bool_decide (max_size c < size_ c + 1)%Z = true)
    as Hfull.
  { rewrite HMc. rewrite bool_decide_eq_true_2 by done.
    rewrite bool_decide_eq_true_2 by lia. done. }
  exists k0, v0, rest. split_and!; [done | | |].
  - apply od_mem_false in Hmem. rewrite set_cache by done.
    by rewrite Hfull, Hc.
  - intros k1 Hk1.
    pose proof (stamped_run M ops (init M) (λ _, None) 0 (wf_init M)
                  (sorted_stamps_nil _ _)) as [Hs _].
    fold c in Hs. rewrite Hc in Hs. simpl in Hs.
    apply StronglySorted_cons in Hs as [Hall _].
    rewrite Forall_forall in Hall. destruct (Hall k1 Hk1) as (n0 & n1 & H0 & H1 & Hlt).
    exists n0, n1.
    destruct (last_use ops (init M) 0 k0); [| done].
    destruct (last_use ops (init M) 0 k1); [| done].
    by simplify_eq.
  - intros Hfits Hexp.
    pose proof (recorded_run M ops (init M) Hfits (wf_init M) (recorded_init M)) as Hall.
    fold c in Hall.
    destruct (Hall k0) as [e0 He0]; [rewrite Hc; by left |].
    unfold set. rewrite Hmem, Hfull. apply od_mem_false in Hmem.
    rewrite od_set_new by done. rewrite Hc. cbn [app]. rewrite He0.
    unfold set_record. by rewrite Hexp.
Qed.

End CacheFacts.

Lemma lru_cache_bounded_evicts_oldest_witness :
  let ops := [OpSet 1 "a"%string 0%Z; OpSet 2 "b"%string 0%Z; OpGet 1] in
  let c := run ops (init 2) in
  (Z.of_nat (len c) ≤ 2)%Z ∧
  ∃ k0 v0 rest,
    cache c = (k0, v0) :: rest ∧
    cache (set 3 "c"%string 0%Z c).2 = rest ++ [(3, "c"%string)] ∧
    (∀ k1, k1 ∈ od_keys rest →
       ∃ n0 n1, last_use ops (init 2) 0 k0 = Some n0 ∧
                last_use ops (init 2) 0 k1 = Some n1 ∧ n0 < n1) ∧
    (set 3 "c"%string 0%Z c).1 = Ok tt.
Proof.
  intros ops c.
  assert (0 < 2)%Z as Hpos by lia.
  split; [exact (proj1 (lru_cache_bounded_evicts_oldest 2 ops Hpos)) |].
  assert (od_mem 3 (cache c) = false) as Hnew by reflexivity.
  assert (Z.of_nat (len c) = 2%Z) as Hfull by reflexivity.
  destruct (proj2 (lru_cache_bounded_evicts_oldest 2 ops Hpos) 3 "c"%string 0%Z
              Hnew Hfull) as (k0 & v0 & rest & Hc & Hset & Hold & Hok).
  exists k0, v0, rest. split_and!; [exact Hc | exact Hset | exact Hold |].
  exact (Hok eq_refl eq_refl).
Defined.

(** The run of the witness: the entry of the key 2, not used since it was
    stored, is the one that [set] drops. *)
Example lru_cache_evicts_unused :
  let c := run [OpSet 1 "a"%string 0%Z; OpSet 2 "b"%string 0%Z; OpGet 1] (init 2) in
  cache c = [(2, "b"%string); (1, "a"%string)] ∧
  cache (set 3 "c"%string 0%Z c).2 = [(1, "a"%string); (3, "c"%string)].
Proof. vm_compute. done. Qed.

(** Beyond the range of [timedelta] the entry is stored and counted, but
    without a record; the next [set] that drops it raises [KeyError]. *)
Example lru_cache_overflow_then_key_error :
  let r1 := set 1 "a"%string (10 ^ 18)%Z (init 1) in
  let r2 := set 2 "b"%string 0%Z r1.2 in
  r1.1 = Raise OverflowError ∧ cache r1.2 = [(1, "a"%string)] ∧ size_ r1.2 = 1%Z ∧
  record r1.2 = ∅ ∧
  r2.1 = Raise KeyError ∧ cache r2.2 = [(2, "b"%string)] ∧ size_ r2.2 = 2%Z.
Proof. vm_compute. done. Qed.

End LruCacheFacts.

Module HandlersFacts.
Import PyDict PyDictFacts Grammar Handlers.

(** *** The [while] loops end *)

Section Loops.
Context {A : Type} (body : A → M (ctl A)).


Lemma while_loop_total fuel acc a :
  consuming body →
  length (Argv.raw_data a) - Argv.current_index a < fuel →
  is_Some (while_loop fuel body acc a).
Proof.
  intros Hbody. revert acc a. induction fuel as [|fuel IH]; intros acc a Hlt; [lia |].
  simpl. destruct (body acc a) as [[[acc' | acc'] | e] a'] eqn:Hb; [| by eexists ..].
  apply IH. specialize (Hbody _ _ _ _ Hb). lia.
Qed.

Lemma run_loop_total acc a :
  consuming body →
  ∃ r, while_loop (rounds a) body acc a = Some r ∧ run_loop body acc a = r.
Proof.
  intros Hbody. unfold run_loop.
  destruct (while_loop_total (rounds a) acc a Hbody) as [r Hr]; [unfold rounds; lia |].
  exists r. by rewrite Hr.
Qed.

End Loops.

Lemma next_consumes a v _str a' :
  Argv.current_index a ≠ Argv.ndata a →
  Argv.next true a = (Ok (v, _str), a') →
  Argv.raw_data a !! Argv.current_index a = Some v ∧ _str = is_str v ∧
  a' = Argv.set_current_index (S (Argv.current_index a)) a.
Proof.
  intros Hne. unfold Argv.next.
  destruct (Nat.eqb_spec (Argv.current_index a) (Argv.ndata a)) as [? | _]; [done |].
  destruct (Argv.raw_data a !! Argv.current_index a) as [v' |] eqn:Hv; [| done].
  intros [= <- <- <-]. done.
Qed.

Lemma raise_if_special_state may_arg _str a r a' :
  raise_if_special may_arg _str a = (r, a') → a' = a.
Proof.
  unfold raise_if_special. intros H.
  repeat case_match; by simplify_eq.
Qed.

Section Rounds.
Variable ext : Ext.

Lemma varpos_round_consuming args value arg kwonly_seps :
  consuming (varpos_round ext args value arg kwonly_seps).
Proof.
  intros [_result count] a [_result' count'] a' H.
  unfold varpos_round, bind, get_argv in H.
  destruct (Nat.eqb_spec (Argv.current_index a) (Argv.ndata a)) as [? | Hne]; [done |].
  destruct (Argv.next true a) as [[[may_arg _str] | e] a1] eqn:Hnext; [| done].
  apply next_consumes in Hnext as (Hv & -> & ->); [| done].
  apply lookup_lt_Some in Hv.
  destruct (raise_if_special _ _ _) as [[[] | e] a2] eqn:Hsp; [| done].
  apply raise_if_special_state in Hsp as ->.
  repeat (case_match; simplify_eq; try done);
    unfold ret, raise in *; simplify_eq; try (simpl; lia).
Qed.

Lemma varkey_round_consuming value arg : consuming (varkey_round ext value arg).
Proof.
  intros [_result count] a [_result' count'] a' H.
  unfold varkey_round, bind, get_argv in H.
  destruct (Nat.eqb_spec (Argv.current_index a) (Argv.ndata a)) as [? | Hne]; [done |].
  destruct (Argv.next true a) as [[[may_arg _str] | e] a1] eqn:Hnext; [| done].
  apply next_consumes in Hnext as (Hv & -> & ->); [| done].
  apply lookup_lt_Some in Hv.
  destruct (raise_if_special _ _ _) as [[[] | e] a2] eqn:Hsp; [| done].
  apply raise_if_special_state in Hsp as ->.
  repeat (case_match; simplify_eq; try done);
    unfold ret, raise, Argv.next in *; repeat (case_match; simplify_eq; try done);
    simplify_eq; simpl in *; lia.
Qed.

(** [step_varpos] runs its loop to the end: the loop returns or raises
    before the rounds allowed to it are used up. *)
Lemma step_varpos_loop_total args value arg kwonly_seps a :
  ∃ r, while_loop (rounds a) (varpos_round ext args value arg kwonly_seps) ([], 0%Z) a = Some r ∧
       run_loop (varpos_round ext args value arg kwonly_seps) ([], 0%Z) a = r.
Proof. apply run_loop_total, varpos_round_consuming. Qed.

Lemma step_varkey_loop_total value arg a :
  ∃ r, while_loop (rounds a) (varkey_round ext value arg) ([], 0%Z) a = Some r ∧
       run_loop (varkey_round ext value arg) ([], 0%Z) a = r.
Proof. apply run_loop_total, varkey_round_consuming. Qed.

End Rounds.

(** *** C4: [step_varpos] with nothing collected *)

Section VarPos.
Variable ext : Ext.


End VarPos.



(** *** C7: the wildcard slot of [analyse_args] *)

Section Wildcard.
Variable ext : Ext.

Lemma normal_loop_app pre post result a r1 a1 :
  normal_loop ext pre result a = (Ok (Exhausted r1), a1) →
  normal_loop ext (pre ++ post) result a = normal_loop ext post r1 a1.
Proof.
  revert result a. induction pre as [|arg pre IH]; intros result a.
  - simpl. unfold ret. by intros [= -> ->].
  - simpl. unfold bind, set_context, get_argv.
    intros H. repeat (case_match; simplify_eq; try done); eauto.
Qed.

Lemma raise_if_special_quiet may_arg _str a :
  (∀ s which, may_arg = VStr s → Argv.special a !! s = Some which →
     which ∈ Argv.disable_builtin_options a) →
  raise_if_special may_arg _str a = (Ok tt, a).
Proof.
  intros Hq. unfold raise_if_special.
  destruct may_arg as [| | | s | | | |]; try done.
  destruct _str; [| done].
  destruct (Argv.special a !! s) as [which |] eqn:Hs; [| done].
  by rewrite bool_decide_eq_true_2 by eauto.
Qed.

Lemma next_at a v :
  Argv.current_index a ≠ Argv.ndata a →
  Argv.raw_data a !! Argv.current_index a = Some v →
  Argv.next true a = (Ok (v, is_str v), Argv.set_current_index (S (Argv.current_index a)) a).
Proof.
  intros Hne Hv. unfold Argv.next.
  destruct (Nat.eqb_spec (Argv.current_index a) (Argv.ndata a)) as [? | _]; [done |].
  by rewrite Hv.
Qed.

Lemma rollback_after_next a v :
  truthy v = true →
  Argv.rollback v false (Argv.set_current_index (S (Argv.current_index a)) a) =
  (Ok tt, Argv.set_current_index (Argv.current_index a)
            (Argv.set_current_index (S (Argv.current_index a)) a)).
Proof.
  intros Hv. unfold Argv.rollback. simpl. rewrite Nat.sub_0_r.
  destruct v as [| | | [|c s] | | | |]; done.
Qed.

Lemma normal_loop_wildcard arg post result a may_arg :
  alias (arg_value arg) = "*"%string →
  Argv.current_index a ≠ Argv.ndata a →
  Argv.raw_data a !! Argv.current_index a = Some may_arg →
  truthy may_arg = true →
  (∀ s which, may_arg = VStr s → Argv.special a !! s = Some which →
     which ∈ Argv.disable_builtin_options a) →
  is_param_id a may_arg (is_str may_arg) && optional arg = false →
  normal_loop ext (arg :: post) result a =
    (Ok (Returned (od_set (name arg)
                     (Argv.converter a (drop (Argv.current_index a) (Argv.raw_data a))) result)),
     Argv.set_current_index (Argv.ndata a) (Argv.set_context (Argv.CtxArg (name arg)) a)).
Proof.
  intros Halias Hne Htok Htruthy Hquiet Hid.
  cbn [normal_loop]. unfold bind at 1. unfold set_context at 1.
  set (a2 := Argv.set_context (Argv.CtxArg (name arg)) a).
  unfold bind at 1. rewrite (next_at a2 may_arg) by done.
  unfold bind at 1. rewrite (raise_if_special_quiet may_arg) by done.
  unfold bind at 1. unfold get_argv at 1.
  change (is_param_id _ may_arg (is_str may_arg)) with (is_param_id a may_arg (is_str may_arg)).
  rewrite Hid, Htruthy. cbn [negb]. rewrite Halias. cbn [String.eqb Ascii.eqb Bool.eqb].
  unfold bind at 1. rewrite (rollback_after_next a2 may_arg) by done.
  reflexivity.
Qed.

(** C7, as amended: when the slots before a wildcard slot have been
    processed and the token fetched for the wildcard slot is not empty, does
    not trigger a built-in option, and is not a registered param id while the
    slot is optional, then all the remaining tokens (that token first) are
    bound to the slot, [current_index] becomes [ndata], and [analyse_args]
    returns at once: the result does not depend on the later normal slots nor
    on the unpack, variadic and keyword-only slots. *)
Theorem analyse_args_wildcard (pre : list Arg) (arg : Arg) (post : list Arg)
    (kwonly : list (string * (KeyWordVar * Arg))) (varpos : list (MultiVar * Arg))
    (varkey : list (MultiKeyWordVar * Arg))
    (unpack_slot : option (Arg * (list (string * pyval) → res pyval) * Args))
    (a a1 : Argv.t) (result : list (string * pyval)) (may_arg : pyval) :
  normal_loop ext pre [] a = (Ok (Exhausted result), a1) →
  alias (arg_value arg) = "*"%string →
  Argv.current_index a1 ≠ Argv.ndata a1 →
  Argv.raw_data a1 !! Argv.current_index a1 = Some may_arg →
  truthy may_arg = true →
  (∀ s which, may_arg = VStr s → Argv.special a1 !! s = Some which →
     which ∈ Argv.disable_builtin_options a1) →
  is_param_id a1 may_arg (is_str may_arg) && optional arg = false →
  analyse_args ext (mkArgs (pre ++ arg :: post) kwonly varpos varkey unpack_slot) a =
    (Ok (od_set (name arg)
           (Argv.converter a1 (drop (Argv.current_index a1) (Argv.raw_data a1))) result),
     Argv.set_current_index (Argv.ndata a1) (Argv.set_context (Argv.CtxArg (name arg)) a1)).
Proof.
  intros Hpre Halias Hne Htok Htruthy Hquiet Hid.
  cbn [analyse_args]. unfold bind at 1.
  rewrite (normal_loop_app _ _ _ _ _ _ Hpre).
  by rewrite (normal_loop_wildcard arg post result a1 may_arg).
Qed.

End Wildcard.

Lemma analyse_args_wildcard_witness :
  let a := Samples.sample_argv [VStr "foo"; VStr "bar"; VStr "baz"] in
  (analyse_args Samples.sample_ext Samples.wild_args a).1 =
    Ok [("x"%string, VStr "foo"); ("rest"%string, VList [VStr "bar"; VStr "baz"])] ∧
  Argv.current_index (analyse_args Samples.sample_ext Samples.wild_args a).2 = 3.
Proof.
  intros a.
  assert (H : analyse_args Samples.sample_ext Samples.wild_args a =
              (Ok [("x"%string, VStr "foo"); ("rest"%string, VList [VStr "bar"; VStr "baz"])],
               Argv.set_current_index 3
                 (Argv.set_context (Argv.CtxArg "rest")
                    (Argv.set_current_index 1 (Argv.set_context (Argv.CtxArg "x") a))))).
  { apply (analyse_args_wildcard Samples.sample_ext [Samples.x_arg] (Samples.rest_arg false) []
             [] [(Samples.pkg_value "*", Samples.pkg_arg None)] [] None a
             (Argv.set_current_index 1 (Argv.set_context (Argv.CtxArg "x") a))
             [("x"%string, VStr "foo")] (VStr "bar")).
    - reflexivity.
    - reflexivity.
    - simpl. lia.
    - reflexivity.
    - reflexivity.
    - intros s which [= <-]. vm_compute. discriminate.
    - reflexivity. }
  rewrite H. split; reflexivity.
Defined.

(** C7 as stated fails: a slot whose pattern has alias ["*"] does not absorb
    the remaining tokens when the token fetched for it triggers a built-in
    option ([SpecialOptionTriggered] is raised), when no token is left
    ([ArgumentMissing] is raised for a required slot), or when the token is a
    registered param id and the slot is optional (nothing is bound, the index
    stays where it was, and the later variadic slot is processed). *)
Lemma analyse_args_wildcard_counterexample :
  (analyse_args Samples.sample_ext Samples.wild_args
     (Samples.sample_argv [VStr "foo"; VStr "--help"])).1 =
    Raise (SpecialOptionTriggered "help") ∧
  (analyse_args Samples.sample_ext Samples.wild_args (Samples.sample_argv [VStr "foo"])).1 =
    Raise ArgumentMissing ∧
  (let a := Samples.with_param_ids {["-f"%string]} (Samples.sample_argv [VStr "-f"]) in
   (analyse_args Samples.sample_ext Samples.optional_wild_args a).1 =
     Ok [("pkg"%string, VTuple [])] ∧
   Argv.current_index (analyse_args Samples.sample_ext Samples.optional_wild_args a).2 = 0 ∧
   Argv.ndata (analyse_args Samples.sample_ext Samples.optional_wild_args a).2 = 1).
Proof. repeat split; vm_compute; reflexivity. Qed.

(** *** C3: speculative dispatch of the compact parameters *)

Section Compact.
Variable ext : Ext.

Lemma rejected_snapshot params an a an' a' :
  rejected ext params (an, a) (an', a') →
  Argv.raw_data a' = Argv.raw_data a ∧ Argv.current_index a' = Argv.current_index a.
Proof.
  intros H. remember (an, a) as s eqn:Hs. remember (an', a') as s' eqn:Hs'.
  revert an a Hs. induction H as [s | param params an0 a0 an1 a1 s' Hatt Hctx Hrej IH];
    intros an a Hs; simplify_eq; [done |].
  destruct (IH eq_refl _ _ eq_refl) as [-> ->]. done.
Qed.

Lemma compact_loop_rejected pre params an a s1 :
  rejected ext pre (an, a) s1 →
  compact_loop ext (pre ++ params) (an, a) = compact_loop ext params s1.
Proof.
  intros H. induction H as [s | param pre an0 a0 an1 a1 s' Hatt Hctx Hrej IH]; [done |].
  cbn [app compact_loop]. unfold Argv.data_set. rewrite Hatt.
  destruct (Argv.context a1) as [| nm | nm | nm] eqn:Hc; try exact IH. by destruct (Hctx nm).
Qed.

(** C3, as amended: after any number of candidates that raised
    [InvalidParam] outside an [Arg], the next candidate is tried on the data
    and the index of the snapshot. If it succeeds, its result is committed
    as it is, without restoring. If it raises [InvalidParam] while
    [argv.context] is not an [Arg], the data and the index of the snapshot
    are restored and the candidates that follow are tried. If it raises
    [InvalidParam] while [argv.context] is an [Arg], or raises anything
    else, the exception goes on to the caller and nothing is restored. *)
Theorem compact_loop_snapshot (pre : list Param) (param : Param) (post : list Param)
    (an : Analyser) (a : Argv.t) (s1 : Analyser * Argv.t) :
  rejected ext pre (an, a) s1 →
  Argv.raw_data s1.2 = Argv.raw_data a ∧
  Argv.current_index s1.2 = Argv.current_index a ∧
  compact_loop ext (pre ++ param :: post) (an, a) =
    match attempt ext param s1 with
    | (Ok _, s') => (Ok true, s')
    | (Raise InvalidParam, (an', a')) =>
        match Argv.context a' with
        | Argv.CtxArg _ => (Raise InvalidParam, (an', a'))
        | _ =>
            compact_loop ext post
              (an', Argv.data_reset (Argv.raw_data a) (Argv.current_index a) a')
        end
    | (Raise e, s') => (Raise e, s')
    end.
Proof.
  intros Hrej. destruct s1 as [an1 a1].
  destruct (rejected_snapshot _ _ _ _ _ Hrej) as [Hdata Hindex].
  split_and!; [done | done |].
  rewrite (compact_loop_rejected _ _ _ _ _ Hrej).
  cbn [compact_loop]. unfold Argv.data_set. rewrite Hdata, Hindex. done.
Qed.

End Compact.

Lemma compact_loop_snapshot_witness :
  let an := Samples.analyser ∅ [POption Samples.x_compact; POption Samples.verbose] in
  let a := Samples.sample_argv [VStr "-vv"] in
  let r := compact_loop Samples.sample_ext [POption Samples.x_compact; POption Samples.verbose]
             (an, a) in
  r.1 = Ok true ∧
  od_get "v"%string (options_result r.2.1) = Some {| value_ := VInt 2; args := [] |} ∧
  Argv.current_index r.2.2 = 1.
Proof.
  intros an a r.
  pose (a' := Argv.set_current_index 1 (Argv.set_context (Argv.CtxOption "-x") a)).
  assert (Hrej : rejected Samples.sample_ext [POption Samples.x_compact] (an, a)
                   (an, Argv.data_reset (Argv.raw_data a) (Argv.current_index a) a')).
  { apply (rejected_cons _ _ _ an a an a').
    - reflexivity.
    - intros nm. simpl. discriminate.
    - apply rejected_nil. }
  destruct (compact_loop_snapshot Samples.sample_ext [POption Samples.x_compact]
              (POption Samples.verbose) [] an a _ Hrej) as (_ & _ & H).
  cbn [app] in H. subst r. rewrite H. vm_compute. done.
Defined.

(** C3 as stated fails: the first candidate matches the token ["-vv"] as a
    count and raises [InvalidParam] on its argument ["foo"], with
    [argv.context] an [Arg]. The exception leaves [analyse_compact_params]:
    the index is not put back to that of the snapshot and the second
    candidate, which accepts the same tokens, is never tried. *)
Lemma compact_loop_arg_context_counterexample :
  let an := Samples.analyser ∅ [POption Samples.verbose_int; POption Samples.vv_compact] in
  let a := Samples.sample_argv [VStr "-vv"; VStr "foo"] in
  let r := analyse_compact_params Samples.sample_ext (an, a) in
  (attempt Samples.sample_ext (POption Samples.verbose_int) (an, a)).1 = Raise InvalidParam ∧
  r.1 = Raise InvalidParam ∧
  Argv.context r.2.2 = Argv.CtxArg "x" ∧
  Argv.current_index a = 0 ∧ Argv.current_index r.2.2 = 1 ∧
  (attempt Samples.sample_ext (POption Samples.vv_compact) (an, a)).1 = Ok tt.
Proof. vm_compute. done. Qed.

(** *** C1: merging the occurrences of an [append] option *)

Section DictLookup.
Context {V : Type}.
Implicit Types (d : list (string * V)) (key : string).

Lemma od_get_set d key key' (v : V) :
  od_get key' (od_set key v d) = if decide (key = key') then Some v else od_get key' d.
Proof.
  induction d as [|[k w] d IH]; simpl.
  - by destruct (decide (key = key')).
  - destruct (decide (k = key)) as [-> | Hk]; simpl.
    + by destruct (decide (key = key')).
    + rewrite IH. destruct (decide (k = key')) as [-> | Hk']; [| done].
      by rewrite decide_False by done.
Qed.

Lemma od_get_None d key : key ∉ od_keys d → od_get key d = None.
Proof.
  induction d as [|[k w] d IH]; simpl; [done |].
  intros [Hne Hn]%not_elem_of_cons. rewrite decide_False by done. by apply IH.
Qed.

Lemma od_get_is_Some d key : od_mem key d = true → is_Some (od_get key d).
Proof.
  intros Hm%od_mem_true. destruct (od_split key d Hm) as (_ & v & _ & _ & _ & Hg & _).
  by exists v.
Qed.

End DictLookup.

Section Append.

Lemma shape_ext d f g : (∀ key, f key = g key) → shape d f → shape d g.
Proof. intros Hfg Hd key. rewrite <- Hfg. apply Hd. Qed.

Lemma append_args_shape items d f :
  NoDup (od_keys items) → shape d f →
  ∃ d', append_args items d = (Ok tt, d') ∧
        shape d' (λ key, f key ++ option_list (od_get key items)).
Proof.
  revert d f. induction items as [|[k v] items IH]; intros d f Hnd Hd.
  - exists d. split; [done |]. eapply shape_ext; [| exact Hd].
    intros key. simpl. by rewrite app_nil_r.
  - simpl in Hnd. apply NoDup_cons in Hnd as [Hk Hnd].
    set (f1 := λ key, f key ++ (if decide (k = key) then [v] else [])).
    assert (Hd1 : ∀ l, l = f k ++ [v] → shape (od_set k (VList l) d) f1).
    { intros l -> key. rewrite od_get_set. unfold f1.
      destruct (decide (k = key)) as [<- | Hne].
      - by destruct (f k).
      - rewrite app_nil_r. apply Hd. }
    assert (Hstep : ∃ d1, shape d1 f1 ∧
              append_args ((k, v) :: items) d = append_args items d1).
    { simpl. rewrite (Hd k). destruct (f k) as [|x l] eqn:Hfk.
      - eexists. split; [by apply Hd1 | done].
      - eexists. split; [by apply Hd1 | done]. }
    destruct Hstep as (d1 & Hshape1 & ->).
    destruct (IH d1 f1 Hnd Hshape1) as (d' & Happ & Hd').
    exists d'. split; [done |]. eapply shape_ext; [| exact Hd'].
    intros key. unfold f1. simpl. rewrite <- app_assoc. f_equal.
    destruct (decide (k = key)) as [<- | Hne]; [| done].
    by rewrite (od_get_None items k Hk).
Qed.

Lemma od_get_wrap_args d key :
  od_get key (wrap_args d) = (λ v, VList [v]) <$> od_get key d.
Proof.
  induction d as [|[k v] d IH]; simpl; [done |].
  by destruct (decide (k = key)).
Qed.

Lemma collected_cons key opt_v occurrences :
  collected key (opt_v :: occurrences) =
  option_list (od_get key (args opt_v)) ++ collected key occurrences.
Proof. unfold collected. simpl. by destruct (od_get key (args opt_v)). Qed.

Lemma collected_length key occurrences :
  (∀ opt_v, opt_v ∈ occurrences → od_mem key (args opt_v) = true) →
  length (collected key occurrences) = length occurrences.
Proof.
  induction occurrences as [|opt_v occurrences IH]; intros Hall; [done |].
  rewrite collected_cons, length_app, IH by (intros; apply Hall; by right).
  destruct (od_get_is_Some (args opt_v) key) as [v ->]; [apply Hall; by left | done].
Qed.

Variables (opt : Option) (opt_n : string).
Hypothesis Happend : act_type (action opt) = 1.
Hypothesis Hnargs : nargs opt ≠ 0.

Lemma store_option_later opt_v an source f :
  od_get opt_n (options_result an) = Some source →
  shape (args source) f →
  NoDup (od_keys (args opt_v)) →
  ∃ an' merged,
    store_option opt opt_n opt_v an = (Ok tt, an') ∧
    od_get opt_n (options_result an') = Some merged ∧
    shape (args merged) (λ key, f key ++ option_list (od_get key (args opt_v))).
Proof.
  intros Hsrc Hshape Hnd. unfold store_option, handle_action. rewrite Hsrc, Happend.
  cbn [Nat.eqb]. destruct (Nat.eqb_spec (nargs opt) 0) as [? | _]; [done |].
  destruct (append_args_shape _ _ _ Hnd Hshape) as (d' & -> & Hd').
  eexists _, _. split; [reflexivity |]. simpl. rewrite od_get_set, decide_True by done.
  split; [reflexivity | exact Hd'].
Qed.

Lemma store_option_first opt_v an :
  od_get opt_n (options_result an) = None →
  ∃ an' merged,
    store_option opt opt_n opt_v an = (Ok tt, an') ∧
    od_get opt_n (options_result an') = Some merged ∧
    shape (args merged) (λ key, option_list (od_get key (args opt_v))).
Proof.
  intros Hnone. unfold store_option. rewrite Hnone, Happend. cbn [Nat.eqb andb].
  eexists _, _. split; [reflexivity |]. simpl. rewrite od_get_set, decide_True by done.
  split; [reflexivity |]. intros key.
  destruct (args opt_v) as [|kv d] eqn:Hargs.
  - rewrite bool_decide_eq_true_2 by done. cbn [negb]. by rewrite Hargs.
  - rewrite bool_decide_eq_false_2 by done. cbn [negb args].
    rewrite od_get_wrap_args. by destruct (od_get key (kv :: d)).
Qed.

Lemma store_all_later occurrences an source f :
  od_get opt_n (options_result an) = Some source →
  shape (args source) f →
  Forall (λ opt_v, NoDup (od_keys (args opt_v))) occurrences →
  ∃ an' merged,
    store_all opt opt_n occurrences an = (Ok tt, an') ∧
    od_get opt_n (options_result an') = Some merged ∧
    shape (args merged) (λ key, f key ++ collected key occurrences).
Proof.
  revert an source f.
  induction occurrences as [|opt_v occurrences IH]; intros an source f Hsrc Hshape Hnd.
  - exists an, source. split_and!; [done | done |].
    eapply shape_ext; [| exact Hshape]. intros key. by rewrite app_nil_r.
  - apply Forall_cons in Hnd as [Hnd1 Hnd].
    destruct (store_option_later opt_v an source f Hsrc Hshape Hnd1)
      as (an1 & m1 & Hstore & Hget1 & Hshape1).
    destruct (IH an1 m1 _ Hget1 Hshape1 Hnd) as (an' & merged & Hall & Hget & Hshape').
    exists an', merged. cbn [store_all]. rewrite Hstore. split_and!; [done | done |].
    eapply shape_ext; [| exact Hshape']. intros key. cbv beta.
    by rewrite collected_cons, app_assoc.
Qed.

(** C1, as amended: for an option with action kind append and with
    arguments, met in [N >= 1] occurrences whose results are merged in the
    order of arrival, the merging step succeeds and the merged
    [OptionResult] maps every key to the list of the values that the
    occurrences bound to it, in the order of arrival, none of them dropped;
    a key that no occurrence bound is absent. The list of a key has length
    [N] when every occurrence bound the key. *)
Theorem append_option_merge (occurrences : list OptionResult) (an : Analyser) :
  occurrences ≠ [] →
  od_get opt_n (options_result an) = None →
  Forall (λ opt_v, NoDup (od_keys (args opt_v))) occurrences →
  ∃ an' merged,
    store_all opt opt_n occurrences an = (Ok tt, an') ∧
    od_get opt_n (options_result an') = Some merged ∧
    ∀ key,
      od_get key (args merged) =
        match collected key occurrences with [] => None | l => Some (VList l) end ∧
      ((∀ opt_v, opt_v ∈ occurrences → od_mem key (args opt_v) = true) →
       od_get key (args merged) = Some (VList (collected key occurrences)) ∧
       length (collected key occurrences) = length occurrences).
Proof.
  intros Hne Hnone Hnd.
  destruct occurrences as [|opt_v occurrences']; [done |].
  pose proof Hnd as Hnd0. apply Forall_cons in Hnd as [_ Hnd].
  destruct (store_option_first opt_v an Hnone) as (an1 & m1 & Hstore & Hget1 & Hshape1).
  destruct (store_all_later occurrences' an1 m1 _ Hget1 Hshape1 Hnd)
    as (an' & merged & Hall & Hget & Hshape).
  exists an', merged. cbn [store_all]. rewrite Hstore. split_and!; [done | done |].
  intros key.
  assert (Hkey : od_get key (args merged) =
                 match collected key (opt_v :: occurrences') with
                 | [] => None
                 | l => Some (VList l)
                 end).
  { rewrite collected_cons. apply Hshape. }
  split; [exact Hkey |]. intros Hall'.
  pose proof (collected_length key _ Hall') as Hlen.
  split; [| exact Hlen]. rewrite Hkey.
  destruct (collected key (opt_v :: occurrences')); [done | done].
Qed.

End Append.

Lemma append_option_merge_witness :
  let occurrences := [ {| value_ := VNone; args := [("x"%string, VInt 1)] |};
                       {| value_ := VNone; args := [("x"%string, VInt 2)] |} ] in
  ∃ an' merged,
    store_all Samples.append_opt "f" occurrences (Samples.analyser ∅ []) = (Ok tt, an') ∧
    od_get "f"%string (options_result an') = Some merged ∧
    od_get "x"%string (args merged) = Some (VList [VInt 1; VInt 2]) ∧
    length (collected "x" occurrences) = 2.
Proof.
  intros occurrences.
  destruct (append_option_merge Samples.append_opt "f" eq_refl ltac:(simpl; lia)
              occurrences (Samples.analyser ∅ []))
    as (an' & merged & Hstore & Hget & Hkeys).
  - discriminate.
  - reflexivity.
  - repeat constructor; simpl; rewrite ?elem_of_nil; tauto.
  - exists an', merged. split_and!; [done | done | |].
    + destruct (Hkeys "x"%string) as [H _]. exact H.
    + reflexivity.
Defined.

(** C1 as stated fails: [Option("-f", Args["x;?", int], action=append)] is
    met twice in the input [-f 1 -f]; the second occurrence binds nothing
    to the optional [x], and the merged result maps [x] to a list of length
    1, not 2. *)
Lemma append_option_length_counterexample :
  let opt := Samples.append_opt in
  let an := Samples.analyser {["-f"%string := POption opt]} [] in
  let a := Samples.with_param_ids {["-f"%string]}
             (Samples.sample_argv [VStr "-f"; VStr "1"; VStr "-f"]) in
  let r := analyse_params Samples.sample_ext 2 (an, a) in
  act_type (action opt) = 1 ∧
  r.1 = Ok true ∧
  Argv.current_index r.2.2 = Argv.ndata r.2.2 ∧
  od_get "f"%string (options_result r.2.1) =
    Some {| value_ := VNone; args := [("x"%string, VList [VInt 1])] |}.
Proof. vm_compute. done. Qed.

(** *** C6: a count option matched without a trigger *)

Section Strings.






End Strings.

Section Count.
Variable ext : Ext.





Lemma handle_option_untriggered opt a text :
  compact opt = false → act_type (action opt) = 2 → nargs opt = 0 →
  Argv.current_index a ≠ Argv.ndata a →
  Argv.raw_data a !! Argv.current_index a = Some (VStr text) →
  handle_option ext opt None a =
    let a' := Argv.set_current_index (S (Argv.current_index a))
                (Argv.set_context (Argv.CtxOption (opt_name opt)) a) in
    match count_match (aliases opt) text with
    | Ok (Some cnt) =>
        (Ok (dest opt,
             {| value_ := if Nat.eqb cnt 0 then act_value (action opt)
                          else VInt (Z.of_nat cnt);
                args := [] |}), a')
    | Ok None =>
        (Raise (if Argv.fuzzy_match a &&
                   Qle_bool (Argv.fuzzy_threshold a) (levenshtein ext text (opt_name opt))
                then FuzzyMatchSuccess (opt_name opt) text else InvalidParam), a')
    | Raise e => (Raise e, a')
    end.
Proof.
  intros Hcompact Hcount Hnargs Hne Htok.
  unfold handle_option. unfold bind at 1. unfold set_context at 1.
  set (a2 := Argv.set_context (Argv.CtxOption (opt_name opt)) a).
  unfold bind at 1. unfold match_option. unfold bind at 1.
  rewrite (next_at a2 (VStr text)) by done.
  unfold bind at 1. unfold get_argv at 1.
  rewrite Hcompact, Hcount, Hnargs. cbn [Nat.eqb negb].
  cbv zeta. destruct (count_match (aliases opt) text) as [[cnt |] | e]; try done.
  cbn [Argv.fuzzy_match Argv.set_current_index Argv.fuzzy_threshold].
  change (Argv.fuzzy_match a2) with (Argv.fuzzy_match a).
  change (Argv.fuzzy_threshold a2) with (Argv.fuzzy_threshold a).
  by destruct (Argv.fuzzy_match a && _).
Qed.


End Count.



(** The test of [handle_option] compares lengths only: a token that starts
    with the alias is counted whatever follows. *)
Example count_match_compares_lengths :
  count_match ["-v"%string] "-vab" = Ok (Some 3) ∧
  count_match ["-a"%string; "-ab"%string] "-abab" = Ok (Some 4) ∧
  (handle_option Samples.sample_ext Samples.verbose None (Samples.sample_argv [VStr "-vab"])).1 =
    Ok ("v"%string, {| value_ := VInt 3; args := [] |}).
Proof. vm_compute. done. Qed.

(** *** C2: [-vvv] and [-v -v -v] *)

Section CountEquivalence.
Variable ext : Ext.
Variables (opt : Option) (an : Analyser) (a0 : Argv.t).
Hypothesis Haliases : aliases opt = ["-v"%string].
Hypothesis Hcompact : compact opt = false.
Hypothesis Haction : action opt = {| act_type := 2; act_value := VInt 1 |}.
Hypothesis Hnargs : nargs opt = 0.
Hypothesis Hparam : compile_params an !! "-v"%string = Some (POption opt).
Hypothesis Hlong : compile_params an !! "-vvv"%string = None.
Hypothesis Hcompacts : ∃ others, compact_params an = POption opt :: others.
Hypothesis Hfresh : od_get (dest opt) (options_result an) = None.
Hypothesis Hspecial : Argv.special a0 !! "-v"%string = None.
Hypothesis Hspecial_long : Argv.special a0 !! "-vvv"%string = None.

Lemma store_count_first an1 n :
  od_get (dest opt) (options_result an1) = None →
  ∃ an2, store_option opt (dest opt) {| value_ := VInt n; args := [] |} an1 = (Ok tt, an2) ∧
         od_get (dest opt) (options_result an2) = Some {| value_ := VInt n; args := [] |} ∧
         compile_params an2 = compile_params an1 ∧ compact_params an2 = compact_params an1.
Proof.
  intros Hnone. unfold store_option. rewrite Hnone, Haction. simpl.
  eexists. split; [reflexivity |]. simpl. by rewrite od_get_set, decide_True.
Qed.

Lemma store_count_later an1 n :
  od_get (dest opt) (options_result an1) = Some {| value_ := VInt n; args := [] |} →
  ∃ an2, store_option opt (dest opt) {| value_ := VInt 1; args := [] |} an1 = (Ok tt, an2) ∧
         od_get (dest opt) (options_result an2) =
           Some {| value_ := VInt (n + 1); args := [] |} ∧
         compile_params an2 = compile_params an1 ∧ compact_params an2 = compact_params an1.
Proof.
  intros Hsome. unfold store_option, handle_action. rewrite Hsome, Haction, Hnargs. simpl.
  eexists. split; [reflexivity |]. simpl. by rewrite od_get_set, decide_True.
Qed.

(** One call of [analyse_param] on the token ["-v"]. *)
Lemma analyse_param_triggered an1 an2 a :
  compile_params an1 !! "-v"%string = Some (POption opt) →
  Argv.special a !! "-v"%string = None →
  Argv.current_index a ≠ Argv.ndata a →
  Argv.raw_data a !! Argv.current_index a = Some (VStr "-v") →
  store_option opt (dest opt) {| value_ := VInt 1; args := [] |} an1 = (Ok tt, an2) →
  analyse_param ext (an1, a) =
    (Ok true,
     (an2, Argv.set_context Argv.CtxNone
             (Argv.set_context (Argv.CtxOption (opt_name opt))
                (Argv.set_current_index (S (Argv.current_index a)) a)))).
Proof.
  intros Hp Hsp Hne Htok Hstore.
  unfold analyse_param. unfold bind at 1. unfold on_argv at 1.
  rewrite (next_at a (VStr "-v")) by done.
  unfold bind at 1. unfold dispatch_param. cbn [is_str].
  unfold bind at 1. unfold on_argv at 1. unfold raise_if_special.
  cbn [Argv.special Argv.set_current_index]. rewrite Hsp.
  unfold bind at 1. unfold get_analyser at 1. rewrite Hp.
  unfold bind at 1. unfold analyse_option. unfold bind at 1. unfold on_argv at 1.
  unfold handle_option. unfold bind at 1. unfold set_context at 1.
  unfold bind at 1. unfold ret at 1. rewrite Hnargs, Haction. cbn [Nat.eqb negb act_value].
  unfold ret at 1. rewrite Hstore.
  reflexivity.
Qed.

(** One call of [analyse_param] on the token ["-vvv"]. *)
Lemma analyse_param_compact an1 an2 a :
  compile_params an1 !! "-vvv"%string = None →
  (∃ others, compact_params an1 = POption opt :: others) →
  Argv.special a !! "-vvv"%string = None →
  Argv.current_index a ≠ Argv.ndata a →
  Argv.raw_data a !! Argv.current_index a = Some (VStr "-vvv") →
  store_option opt (dest opt) {| value_ := VInt 3; args := [] |} an1 = (Ok tt, an2) →
  ∃ a', analyse_param ext (an1, a) = (Ok true, (an2, a')) ∧
        Argv.current_index a' = S (Argv.current_index a) ∧ Argv.ndata a' = Argv.ndata a.
Proof.
  intros Hp [others Hc] Hsp Hne Htok Hstore.
  unfold analyse_param. unfold bind at 1. unfold on_argv at 1.
  rewrite (next_at a (VStr "-vvv")) by done.
  unfold bind at 1. unfold dispatch_param. cbn [is_str].
  unfold bind at 1. unfold on_argv at 1. unfold raise_if_special.
  cbn [Argv.special Argv.set_current_index]. rewrite Hsp.
  unfold bind at 1. unfold get_analyser at 1. rewrite Hp.
  unfold ret at 1.
  unfold bind at 1. unfold on_argv at 1.
  rewrite (rollback_after_next a (VStr "-vvv")) by done.
  unfold bind at 1. unfold get_analyser at 1. rewrite Hc.
  unfold bind at 1. unfold analyse_compact_params. rewrite Hc.
  cbn [compact_loop attempt]. unfold Argv.data_set.
  unfold analyse_option. unfold bind at 1. unfold on_argv at 1.
  set (a1 := Argv.set_current_index (Argv.current_index a) _).
  assert (Hopt : handle_option ext opt None a1 =
                 (Ok (dest opt, {| value_ := VInt 3; args := [] |}),
                  Argv.set_current_index (S (Argv.current_index a1))
                    (Argv.set_context (Argv.CtxOption (opt_name opt)) a1))).
  { rewrite (handle_option_untriggered ext opt a1 "-vvv"); try done.
    - by rewrite Haliases.
    - by rewrite Haction. }
  rewrite Hopt, Hstore.
  eexists. split; [reflexivity |]. done.
Qed.

(** C2, as amended: for a count option with the single alias ["-v"], no
    arguments, the action [count] (increment 1) and not compact, in a scope
    where ["-v"] is dispatched to it, ["-vvv"] is no parameter name of its
    own and the option is the first compact candidate: the input of the one
    token ["-vvv"] and the input of the three tokens ["-v" "-v" "-v"] are
    both parsed to the end, and both leave the merged [OptionResult] with
    value 3. *)
Theorem count_option_equivalence :
  ∃ s1 s3,
    analyse_params ext 1 (an, Argv.build [VStr "-vvv"] a0) = (Ok true, s1) ∧
    analyse_params ext 3 (an, Argv.build [VStr "-v"; VStr "-v"; VStr "-v"] a0) = (Ok true, s3) ∧
    Argv.current_index s1.2 = Argv.ndata s1.2 ∧
    Argv.current_index s3.2 = Argv.ndata s3.2 ∧
    od_get (dest opt) (options_result s1.1) = Some {| value_ := VInt 3; args := [] |} ∧
    od_get (dest opt) (options_result s3.1) = Some {| value_ := VInt 3; args := [] |}.
Proof.
  destruct (store_count_first an 3 Hfresh) as (anc & Hstorec & Hgetc & _ & _).
  destruct (analyse_param_compact an anc (Argv.build [VStr "-vvv"] a0))
    as (ac & Hc & Hidx & Hnd); try done.
  destruct (store_count_first an 1 Hfresh) as (an1 & Hstore1 & Hget1 & Hcp1 & _).
  destruct (store_count_later an1 1 Hget1) as (an2 & Hstore2 & Hget2 & Hcp2 & _).
  destruct (store_count_later an2 2 Hget2) as (an3 & Hstore3 & Hget3 & _ & _).
  eexists (anc, ac), _. split_and!.
  - cbn [analyse_params]. unfold bind at 1. by rewrite Hc.
  - cbn [analyse_params]. unfold bind at 1.
    rewrite (analyse_param_triggered an an1) by done.
    unfold bind at 1.
    rewrite (analyse_param_triggered an1 an2) by first [done | by rewrite Hcp1].
    unfold bind at 1.
    rewrite (analyse_param_triggered an2 an3) by first [done | by rewrite Hcp2, Hcp1].
    reflexivity.
  - cbn [snd]. rewrite Hidx, Hnd. reflexivity.
  - reflexivity.
  - exact Hgetc.
  - exact Hget3.
Qed.

End CountEquivalence.

Lemma count_option_equivalence_witness :
  let an := Samples.analyser {["-v"%string := POption Samples.verbose]}
              [POption Samples.verbose] in
  let a0 := Samples.sample_argv [] in
  ∃ s1 s3,
    analyse_params Samples.sample_ext 1 (an, Argv.build [VStr "-vvv"] a0) = (Ok true, s1) ∧
    analyse_params Samples.sample_ext 3
      (an, Argv.build [VStr "-v"; VStr "-v"; VStr "-v"] a0) = (Ok true, s3) ∧
    Argv.current_index s1.2 = Argv.ndata s1.2 ∧
    Argv.current_index s3.2 = Argv.ndata s3.2 ∧
    od_get "v"%string (options_result s1.1) = Some {| value_ := VInt 3; args := [] |} ∧
    od_get "v"%string (options_result s3.1) = Some {| value_ := VInt 3; args := [] |}.
Proof.
  intros an a0.
  apply (count_option_equivalence Samples.sample_ext Samples.verbose an a0).
  - reflexivity.
  - reflexivity.
  - reflexivity.
  - reflexivity.
  - vm_compute. reflexivity.
  - vm_compute. reflexivity.
  - exists []. reflexivity.
  - reflexivity.
  - vm_compute. reflexivity.
  - vm_compute. reflexivity.
Defined.

(** C2 as stated fails for a compact option, which the claim does not
    exclude: in [handle_option] the compact branch comes before the count
    branch, so ["-vvv"] is matched as the alias ["-v"], the rest ["vv"] is
    put back and the value of the action, 1, is recorded; the next call of
    [analyse_param] finds no parameter for ["vv"] and the parse stops with
    the value 1, where the three tokens ["-v" "-v" "-v"] give 3. *)
Lemma count_option_compact_counterexample :
  let an := Samples.analyser {["-v"%string := POption Samples.verbose_compact]}
              [POption Samples.verbose_compact] in
  let a0 := Samples.sample_argv [] in
  let one := analyse_params Samples.sample_ext 2 (an, Argv.build [VStr "-vvv"] a0) in
  let three :=
    analyse_params Samples.sample_ext 3 (an, Argv.build [VStr "-v"; VStr "-v"; VStr "-v"] a0) in
  act_type (action Samples.verbose_compact) = 2 ∧
  aliases Samples.verbose_compact = ["-v"%string] ∧
  nargs Samples.verbose_compact = 0 ∧
  three.1 = Ok true ∧
  od_get "v"%string (options_result three.2.1) = Some {| value_ := VInt 3; args := [] |} ∧
  one.1 = Ok false ∧
  od_get "v"%string (options_result one.2.1) = Some {| value_ := VInt 1; args := [] |} ∧
  Argv.raw_data one.2.2 = [VStr "vv"] ∧ Argv.current_index one.2.2 = 0.
Proof. vm_compute. done. Qed.

(** *** C5: the failure path of [analyse_header] *)

Section HeaderFailure.
Variable ext : Ext.


Lemma next_steady fuzzy threshold a :
  steady fuzzy threshold a →
  ∃ v a', Argv.next true a = (Ok v, a') ∧ steady fuzzy threshold a'.
Proof.
  intros (Hnd & Hlen & Hidx & Hf & Ht). unfold Argv.next.
  destruct (Nat.eqb_spec (Argv.current_index a) (Argv.ndata a)) as [? | Hne].
  - eexists _, _. split; [reflexivity | done].
  - destruct (lookup_lt_is_Some_2 (Argv.raw_data a) (Argv.current_index a)) as [v ->]; [lia |].
    eexists _, _. split; [reflexivity |]. unfold steady. simpl. split_and!; try done. lia.
Qed.

Lemma rollback_steady fuzzy threshold data replace a :
  steady fuzzy threshold a →
  ∃ a', Argv.rollback data replace a = (Ok tt, a') ∧ steady fuzzy threshold a'.
Proof.
  intros (Hnd & Hlen & Hidx & Hf & Ht).
  assert (Hsame : ∃ a', (Ok tt, a) = (Ok tt, a') ∧ steady fuzzy threshold a').
  { by exists a. }
  assert (Hmove : ∃ a',
    (let i := if Nat.leb 1 (Argv.current_index a) then Argv.current_index a - 1
              else Argv.current_index a in
     let a' := Argv.set_current_index i a in
     if replace then
       if Nat.ltb i (length (Argv.raw_data a))
       then (Ok tt, Argv.set_raw_data (<[i := data]> (Argv.raw_data a)) a')
       else (Raise IndexError, a')
     else (Ok tt, a')) = (Ok tt, a') ∧ steady fuzzy threshold a').
  { cbv zeta.
    set (i := if Nat.leb 1 (Argv.current_index a) then _ else _).
    assert (Hi : i < length (Argv.raw_data a)).
    { subst i. destruct (Nat.leb_spec 1 (Argv.current_index a)); lia. }
    destruct replace.
    - destruct (Nat.ltb_spec i (length (Argv.raw_data a))) as [_ | ?]; [| lia].
      eexists. split; [reflexivity |]. unfold steady. simpl.
      rewrite length_insert. split_and!; try done. lia.
    - eexists. split; [reflexivity |]. unfold steady. simpl. split_and!; try done. lia. }
  unfold Argv.rollback. destruct data as [| | | [|c s] | | | |]; done.
Qed.

Lemma replay_steady fuzzy threshold calls a :
  steady fuzzy threshold a →
  ∃ a', replay calls a = (Ok tt, a') ∧ steady fuzzy threshold a'.
Proof.
  revert a. induction calls as [|[data replace] calls IH]; intros a Hs.
  - by exists a.
  - simpl. unfold bind.
    destruct (rollback_steady _ _ data replace a Hs) as (a1 & -> & Hs1). by apply IH.
Qed.

Lemma header_str_stage_steady fuzzy threshold header text a :
  header_wf header → steady fuzzy threshold a →
  ∃ r a', header_str_stage header text a = (Ok r, a') ∧ steady fuzzy threshold a'.
Proof.
  intros Hwf Hs. unfold header_str_stage, header_wf in *.
  destruct (content header) as [s | r | p | pairs | d] eqn:Hc.
  - destruct (bool_decide (text ∈ s)); [by eexists _, _ |].
    destruct (hd_compact header); [| by eexists _, _]. cbn [andb].
    destruct Hwf as [cr ->]; [done |].
    destruct (re_match cr text) as [[mat0 gd] |]; [| by eexists _, _].
    unfold bind. destruct (rollback_steady _ _ (VStr (str_from (String.length mat0) text))
                             true a Hs) as (a1 & -> & Hs1).
    by eexists _, _.
  - destruct (re_fullmatch r text); [by eexists _, _ |].
    destruct (hd_compact header); [| by eexists _, _]. cbn [andb].
    destruct Hwf as [cr ->]; [done |].
    destruct (re_match cr text) as [[mat0 gd] |]; [| by eexists _, _].
    unfold bind. destruct (rollback_steady _ _ (VStr (str_from (String.length mat0) text))
                             true a Hs) as (a1 & -> & Hs1).
    by eexists _, _.
  - rewrite andb_false_r. by eexists _, _.
  - rewrite andb_false_r. by eexists _, _.
  - rewrite andb_false_r. by eexists _, _.
Qed.

Lemma header_pattern_stage_steady fuzzy threshold header head_text _str a :
  header_wf header → steady fuzzy threshold a →
  ∃ r a', header_pattern_stage ext header head_text _str a = (Ok r, a') ∧
          steady fuzzy threshold a'.
Proof.
  intros Hwf Hs. unfold header_pattern_stage, header_wf in *.
  destruct (content header) as [s | r | p | pairs | d] eqn:Hc; try by eexists _, _.
  destruct (bool_decide _); [by eexists _, _ |].
  destruct (hd_compact header); [| by eexists _, _].
  destruct Hwf as [cp ->]; [done |].
  destruct (bool_decide _); [| by eexists _, _].
  unfold bind. destruct _str.
  - destruct (rollback_steady _ _
                (VStr (str_from (String.length (py_str ext (res_value (validate cp head_text None))))
                         (py_str ext head_text))) true a Hs) as (a1 & -> & Hs1).
    by eexists _, _.
  - by eexists _, _.
Qed.

Lemma header_pair_stage_steady fuzzy threshold header head_text may_cmd _str _m_str a :
  steady fuzzy threshold a →
  ∃ r a', header_pair_stage header head_text may_cmd _str _m_str a = (Ok r, a') ∧
          steady fuzzy threshold a'.
Proof.
  intros Hs. unfold header_pair_stage.
  destruct (match content header with CList _ => _ | _ => _ end) as [[r calls] |];
    [| by eexists _, _].
  unfold bind. destruct (replay_steady _ _ calls a Hs) as (a1 & -> & Hs1).
  by eexists _, _.
Qed.

(** With a string as first token, [analyse_header] returns a [HeadResult]
    or ends in the failure path of the string case. *)
Lemma analyse_header_outcome (header : Header) (a : Argv.t) (text : string) :
  header_wf header →
  Argv.ndata a = length (Argv.raw_data a) →
  Argv.raw_data a !! Argv.current_index a = Some (VStr text) →
  let reaches ht := Qle_bool (Argv.fuzzy_threshold a) (levenshtein ext text ht) in
  (∃ r a', analyse_header ext header a = (Ok r, a')) ∨
  (∃ a', analyse_header ext header a =
           (Raise (if Argv.fuzzy_match a then
                     match find reaches (headers_text header) with
                     | Some ht => FuzzyMatchSuccess ht text
                     | None => InvalidParam
                     end
                   else InvalidParam), a')).
Proof.
  intros Hwf Hnd Htok reaches.
  pose proof (lookup_lt_Some _ _ _ Htok) as Hlt.
  assert (Hne : Argv.current_index a ≠ Argv.ndata a) by lia.
  set (a1 := Argv.set_current_index (S (Argv.current_index a)) a).
  assert (Hs1 : steady (Argv.fuzzy_match a) (Argv.fuzzy_threshold a) a1).
  { unfold steady, a1. simpl. split_and!; try done; lia. }
  destruct (analyse_header ext header a) as [res a'] eqn:Hah.
  unfold analyse_header in Hah. unfold bind at 1 in Hah.
  rewrite (next_at a (VStr text)) in Hah by done.
  fold a1 in Hah. cbn [is_str] in Hah. unfold bind at 1 in Hah.
  destruct (header_str_stage_steady _ _ header text a1 Hwf Hs1) as (r1 & a2 & Hst1 & Hs2).
  rewrite Hst1 in Hah.
  destruct r1 as [r1 |]; [left; eexists _, _; by rewrite <- Hah |].
  unfold bind at 1 in Hah.
  destruct (header_pattern_stage_steady _ _ header (VStr text) true a2 Hwf Hs2)
    as (r2 & a3 & Hst2 & Hs3).
  rewrite Hst2 in Hah.
  destruct r2 as [r2 |]; [left; eexists _, _; by rewrite <- Hah |].
  unfold bind at 1 in Hah.
  destruct (next_steady _ _ a3 Hs3) as ([may_cmd _m_str] & a4 & Hnext & Hs4).
  rewrite Hnext in Hah. unfold bind at 1 in Hah.
  destruct (header_pair_stage_steady _ _ header (VStr text) may_cmd true _m_str a4 Hs4)
    as (r3 & a5 & Hst3 & Hs5).
  rewrite Hst3 in Hah.
  destruct r3 as [r3 |]; [left; eexists _, _; by rewrite <- Hah |].
  right. unfold bind at 1 in Hah.
  destruct (rollback_steady _ _ may_cmd false a5 Hs5) as (a6 & Hroll & Hs6).
  rewrite Hroll in Hah.
  destruct Hs6 as (_ & _ & _ & Hf & Ht).
  unfold header_error, bind, get_argv, _handle_fuzzy in Hah.
  rewrite Hf, Ht in Hah. cbn [py_str] in Hah. fold reaches in Hah.
  exists a'. unfold raise in Hah.
  destruct (Argv.fuzzy_match a); [| by simplify_eq].
  destruct (find reaches (headers_text header)); by simplify_eq.
Qed.

(** When no variant matches, each block of [analyse_header] falls through
    and leaves the vector as it is. *)
Lemma header_str_stage_unmatched header text may_cmd _m_str a :
  header_wf header → header_unmatched header text may_cmd _m_str →
  header_str_stage header text a = (Ok None, a).
Proof.
  intros Hwf Hun. unfold header_str_stage, header_wf, header_unmatched in *.
  destruct (content header) as [s | r | p | pairs | d].
  - destruct Hun as [Hnot Hcomp]. rewrite bool_decide_eq_false_2 by done.
    destruct (hd_compact header); [| done]. cbn [andb].
    destruct Hwf as [cr Hcr]; [done |]. rewrite Hcr. by rewrite (Hcomp eq_refl cr Hcr).
  - destruct Hun as [Hnot Hcomp]. rewrite Hnot.
    destruct (hd_compact header); [| done]. cbn [andb].
    destruct Hwf as [cr Hcr]; [done |]. rewrite Hcr. by rewrite (Hcomp eq_refl cr Hcr).
  - by rewrite andb_false_r.
  - by rewrite andb_false_r.
  - by rewrite andb_false_r.
Qed.

Lemma header_pattern_stage_unmatched header text may_cmd _m_str a :
  header_wf header → header_unmatched header text may_cmd _m_str →
  header_pattern_stage ext header (VStr text) true a = (Ok None, a).
Proof.
  intros Hwf Hun. unfold header_pattern_stage, header_wf, header_unmatched in *.
  destruct (content header) as [s | r | p | pairs | d]; try done.
  destruct Hun as [Hnot Hcomp]. rewrite bool_decide_eq_false_2 by done.
  destruct (hd_compact header); [| done].
  destruct Hwf as [cp Hcp]; [done |]. rewrite Hcp.
  by rewrite bool_decide_eq_false_2 by (by apply (Hcomp eq_refl cp)).
Qed.

Lemma header_pair_stage_unmatched header text may_cmd _m_str a :
  header_unmatched header text may_cmd _m_str →
  header_pair_stage header (VStr text) may_cmd true _m_str a = (Ok None, a).
Proof.
  intros Hun. unfold header_pair_stage, header_unmatched in *.
  destruct (content header) as [s | r | p | pairs | d]; try done.
  - destruct _m_str; [by rewrite Hun | done].
  - by rewrite Hun.
Qed.

(** C5, as amended: on a vector as [build] leaves it and for a header as
    [Header.generate] makes it, when the first token is a string and no
    variant of the header matches it ([may_cmd] being the token that
    follows), [analyse_header] raises: with fuzzy matching enabled and a
    header text whose similarity to the input head reaches the threshold,
    [FuzzyMatchSuccess] with the first such header text as [source] and
    the input head as [target]; otherwise [InvalidParam]. Whatever the
    header, [FuzzyMatchSuccess] is raised only with fuzzy matching enabled
    and for a header text whose similarity to the input head reaches the
    threshold. *)
Theorem analyse_header_failure (header : Header) (a : Argv.t) (text : string) :
  header_wf header →
  Argv.ndata a = length (Argv.raw_data a) →
  Argv.raw_data a !! Argv.current_index a = Some (VStr text) →
  let reaches ht := Qle_bool (Argv.fuzzy_threshold a) (levenshtein ext text ht) in
  (∀ may_cmd _m_str a2,
     Argv.next true (Argv.set_current_index (S (Argv.current_index a)) a) =
       (Ok (may_cmd, _m_str), a2) →
     header_unmatched header text may_cmd _m_str →
     ∃ a', analyse_header ext header a =
             (Raise (if Argv.fuzzy_match a then
                       match find reaches (headers_text header) with
                       | Some ht => FuzzyMatchSuccess ht text
                       | None => InvalidParam
                       end
                     else InvalidParam), a')) ∧
  (∀ source target a',
     analyse_header ext header a = (Raise (FuzzyMatchSuccess source target), a') →
     Argv.fuzzy_match a = true ∧ target = text ∧ source ∈ headers_text header ∧
     (Argv.fuzzy_threshold a <= levenshtein ext text source)%Q).
Proof.
  intros Hwf Hnd Htok reaches. split.
  - intros may_cmd _m_str a2 Hnext Hun.
    pose proof (lookup_lt_Some _ _ _ Htok) as Hlt.
    assert (Hne : Argv.current_index a ≠ Argv.ndata a) by lia.
    set (a1 := Argv.set_current_index (S (Argv.current_index a)) a) in *.
    assert (Hs1 : steady (Argv.fuzzy_match a) (Argv.fuzzy_threshold a) a1).
    { unfold steady, a1. simpl. split_and!; try done; lia. }
    destruct (next_steady _ _ a1 Hs1) as (v & a2' & Hnext' & Hs2).
    rewrite Hnext in Hnext'. injection Hnext' as <- <-.
    destruct (rollback_steady _ _ may_cmd false a2 Hs2) as (a3 & Hroll & Hs3).
    exists a3. unfold analyse_header. unfold bind at 1.
    rewrite (next_at a (VStr text)) by done.
    fold a1. cbn [is_str]. unfold bind at 1.
    rewrite (header_str_stage_unmatched header text may_cmd _m_str a1) by done.
    unfold bind at 1.
    rewrite (header_pattern_stage_unmatched header text may_cmd _m_str a1) by done.
    unfold bind at 1. rewrite Hnext. unfold bind at 1.
    rewrite (header_pair_stage_unmatched header text may_cmd _m_str a2) by done.
    unfold bind at 1. rewrite Hroll.
    destruct Hs3 as (_ & _ & _ & Hf & Ht).
    unfold header_error, bind, get_argv, _handle_fuzzy.
    rewrite Hf, Ht. cbn [py_str]. fold reaches. unfold raise.
    destruct (Argv.fuzzy_match a); [| done].
    by destruct (find reaches (headers_text header)).
  - intros source target a' Hraise.
    pose proof (analyse_header_outcome header a text Hwf Hnd Htok) as Hmain.
    cbv zeta in Hmain. fold reaches in Hmain. rewrite Hraise in Hmain.
    destruct Hmain as [(r & a'' & [=]) | (a'' & Heq)].
    injection Heq as Heq _.
    destruct (Argv.fuzzy_match a); [| done].
    destruct (find reaches (headers_text header)) as [ht |] eqn:Hfind; [| done].
    injection Heq as -> ->.
    apply find_some in Hfind as [Hin Hreach].
    split_and!; [done | done | by apply list_elem_of_In |].
    by apply Qle_bool_iff.
Qed.

End HeaderFailure.

Lemma analyse_header_failure_witness :
  let a := Samples.with_fuzzy_match (Samples.sample_argv [VStr "!pong"]) in
  let reaches ht :=
    Qle_bool (Argv.fuzzy_threshold a) (levenshtein Samples.sample_ext "!pong" ht) in
  (∃ a', analyse_header Samples.sample_ext Samples.ping_header a =
           (Raise (if Argv.fuzzy_match a then
                     match find reaches (headers_text Samples.ping_header) with
                     | Some ht => FuzzyMatchSuccess ht "!pong"
                     | None => InvalidParam
                     end
                   else InvalidParam), a')) ∧
  (Argv.fuzzy_match a = true ∧ "!pong"%string = "!pong"%string ∧
   "!ping"%string ∈ headers_text Samples.ping_header ∧
   (Argv.fuzzy_threshold a <= levenshtein Samples.sample_ext "!pong" "!ping")%Q).
Proof.
  intros a reaches.
  assert (header_wf Samples.ping_header) as Hwf.
  { intros Hcompact. simpl in Hcompact. discriminate. }
  split.
  - apply (proj1 (analyse_header_failure Samples.sample_ext Samples.ping_header a "!pong"
                    Hwf eq_refl eq_refl)
             (VStr "") true (Argv.set_current_index 1 a)).
    + reflexivity.
    + split; [| intros Hcompact; simpl in Hcompact; discriminate].
      vm_compute. discriminate.
  - apply (proj2 (analyse_header_failure Samples.sample_ext Samples.ping_header a "!pong"
                    Hwf eq_refl eq_refl)
             "!ping"%string "!pong"%string
             (analyse_header Samples.sample_ext Samples.ping_header a).2).
    vm_compute. reflexivity.
Defined.

(** C5 as stated fails on the pair that the exception carries: for the
    input ["!pong"] and the header text ["!ping"] the message is formatted
    with the header text as [source] and the input as [target], not the
    other way round. *)
Lemma analyse_header_fuzzy_pair_counterexample :
  let r := analyse_header Samples.sample_ext Samples.ping_header
             (Samples.with_fuzzy_match (Samples.sample_argv [VStr "!pong"])) in
  r.1 = Raise (FuzzyMatchSuccess "!ping" "!pong") ∧
  r.1 ≠ Raise (FuzzyMatchSuccess "!pong" "!ping").
Proof. vm_compute. split; [done | discriminate]. Qed.

(** The header [!ping] suggested for the input [!pong], and no suggestion
    for [hello]. *)
Example analyse_header_fuzzy_examples :
  (analyse_header Samples.sample_ext Samples.ping_header
     (Samples.with_fuzzy_match (Samples.sample_argv [VStr "!pong"]))).1 =
    Raise (FuzzyMatchSuccess "!ping" "!pong") ∧
  (analyse_header Samples.sample_ext Samples.ping_header
     (Samples.with_fuzzy_match (Samples.sample_argv [VStr "hello"]))).1 = Raise InvalidParam ∧
  (analyse_header Samples.sample_ext Samples.ping_header
     (Samples.sample_argv [VStr "!pong"])).1 = Raise InvalidParam.
Proof. vm_compute. done. Qed.

(** *** C8: the slots of a regex shortcut *)

Section ShortcutReg.
Variable ext : Ext.

(** C8 fails on the code: the slot [{0}] inside the unit ["[{0}]"] names an
    existing group whose text is ["{hello}"]; the text is put in, and then
    taken out again by the pass over the named slots, which reads it as a
    slot of a missing group. The unit becomes ["[]"], not ["[{hello}]"]. *)
Theorem shortcut_reg_substitutes_twice (argv : Argv.t) (wrapper : ShortcutRegWrapper) :
  Argv.raw_data argv = [VStr "say"; VStr "[{0}]"] →
  escape ext "say" = "say"%string → escape ext "[{0}]" = "[{0}]"%string →
  unescape ext "say" = "say"%string → unescape ext "[]" = "[]"%string →
  wrapper (inl 0) "{hello}"%string = VNone →
  _handle_shortcut_reg ext argv [Some "{hello}"%string] [] wrapper = [VStr "say"; VStr "[]"].
Proof.
  intros Hdata Hesc1 Hesc2 Hun1 Hun2 Hwrap.
  unfold _handle_shortcut_reg. rewrite Hdata. cbn [mbind list_bind app].
  unfold shortcut_reg_unit. rewrite Hesc1, Hesc2.
  vm_compute slot_fullmatch. vm_compute slot_findall.
  unfold substitute_indexes. cbn [foldl].
  change (int_of_digits "0") with 0. cbn [lookup list_lookup].
  unfold wrapped. rewrite Hwrap. cbn [truthy py_str].
  change (replace (index_slot 0) "{hello}" "[{0}]") with "[{hello}]"%string.
  unfold substitute_keys. cbn [foldl od_get].
  change (replace (key_slot "hello") "" "[{hello}]") with "[]"%string.
  change ("say" =? "")%string with false. change ("[]" =? "")%string with false.
  by rewrite Hun1, Hun2.
Qed.

End ShortcutReg.

Lemma shortcut_reg_substitutes_twice_witness :
  _handle_shortcut_reg Samples.sample_ext (Samples.sample_argv [VStr "say"; VStr "[{0}]"])
    [Some "{hello}"%string] [] (λ _ _, VNone) = [VStr "say"; VStr "[]"].
Proof.
  apply (shortcut_reg_substitutes_twice Samples.sample_ext
           (Samples.sample_argv [VStr "say"; VStr "[{0}]"]) (λ _ _, VNone));
    reflexivity.
Defined.

(** The whole-unit path reads ["{01}"] as the group 1; inside a unit the
    same slot is looked for under the text ["{1}"], not found, and emptied by
    the pass over the named slots. *)
Example shortcut_reg_leading_zero :
  _handle_shortcut_reg Samples.sample_ext
    (Samples.sample_argv [VStr "{01}"; VStr "a{01}b"])
    [Some "x"%string; Some "y"%string] [] (λ _ _, VNone) = [VStr "y"; VStr "ab"].
Proof. vm_compute. done. Qed.

End HandlersFacts.

(** ** util.py: [split_once] and [split] *)

Module TextFacts.
Import Text.

Lemma append_cons (c : ascii) (s t : string) :
  (String c s ++ t)%string = String c (s ++ t).
Proof. reflexivity. Qed.

Lemma str_drop_app (r s : string) : str_drop (String.length r) (r ++ s) = s.
Proof. induction r as [| c r IH]; [by destruct s | exact IH]. Qed.

Lemma str_drop_all (s : string) : str_drop (String.length s + 1) s = EmptyString.
Proof. induction s as [| c s IH]; [done | exact IH]. Qed.

Lemma str_drop_past (r s : string) (c : ascii) :
  str_drop (String.length r + 1) (r ++ String c s) = s.
Proof. induction r as [| c' r IH]; [by destruct s | exact IH]. Qed.

Lemma string_app_nil_r (s : string) : (s ++ "")%string = s.
Proof. induction s as [| c s IH]; [done | rewrite append_cons; by f_equal]. Qed.

Lemma string_app_assoc (s1 s2 s3 : string) : ((s1 ++ s2) ++ s3)%string = (s1 ++ s2 ++ s3)%string.
Proof. induction s1 as [| c s1 IH]; [done | rewrite !append_cons; by f_equal]. Qed.

Lemma chars_app (s1 s2 : string) :
  String.list_ascii_of_string (s1 ++ s2) =
  String.list_ascii_of_string s1 ++ String.list_ascii_of_string s2.
Proof.
  induction s1 as [| c s1 IH]; [done |].
  rewrite append_cons. cbn [String.list_ascii_of_string app]. by f_equal.
Qed.

Lemma char_str_inj (c1 c2 : ascii) : char_str c1 = char_str c2 → c1 = c2.
Proof. by intros [= ->]. Qed.

Section SplitOnce.
Variable separates : gset string.

(** The loop stops in front of a separator, or runs to the end. *)
Lemma split_once_loop_stops text quotation is_split :
  split_once_loop separates quotation is_split text = text ∨
  ∃ c rest, char_str c ∈ separates ∧
    text = (split_once_loop separates quotation is_split text ++ String c rest)%string.
Proof.
  revert quotation is_split.
  induction text as [| char text IH]; intros quotation is_split; [by left |].
  cbn [split_once_loop].
  destruct (if is_quote char then _ else _) as [quotation' is_split'].
  destruct (bool_decide (char_str char ∈ separates)) eqn:Hsep; simpl.
  - apply bool_decide_eq_true in Hsep. destruct is_split'; simpl.
    + right. by exists char, text.
    + destruct (IH quotation' false) as [-> | (c & rest & Hc & Heq)]; [by left |].
      right. exists c, rest. split; [done |]. by rewrite append_cons, <- Heq.
  - destruct (IH quotation' is_split') as [-> | (c & rest & Hc & Heq)]; [by left |].
    right. exists c, rest. split; [done |]. by rewrite append_cons, <- Heq.
Qed.

(** Nothing stops the loop when no separator is one character long. *)
Lemma split_once_loop_long quotation is_split text :
  (∀ s, s ∈ separates → String.length s ≠ 1) →
  split_once_loop separates quotation is_split text = text.
Proof.
  intros Hlong. revert quotation is_split.
  induction text as [| char text IH]; intros quotation is_split; [done |].
  cbn [split_once_loop].
  destruct (if is_quote char then _ else _) as [quotation' is_split'].
  rewrite bool_decide_eq_false_2; [simpl; by rewrite IH |].
  intros Hin. by apply Hlong in Hin.
Qed.

(** Without a quotation mark the loop stays in its first state, and what it
    keeps has no separator. *)
Lemma split_once_loop_unquoted text :
  Forall (λ c, is_quote c = false) (String.list_ascii_of_string text) →
  Forall (λ c, char_str c ∉ separates)
    (String.list_ascii_of_string (split_once_loop separates "" true text)).
Proof.
  induction text as [| char text IH]; intros Hq; [constructor |].
  apply Forall_cons in Hq as [Hchar Hq].
  cbn [split_once_loop]. rewrite Hchar.
  destruct (bool_decide (char_str char ∈ separates)) eqn:Hsep; simpl; [constructor |].
  apply bool_decide_eq_false in Hsep. constructor; [done | by apply IH].
Qed.

(** Inside a quotation nothing stops the loop before the closing mark. *)
Lemma split_once_loop_quoted q body suffix :
  is_quote q = true →
  Forall (λ c, c ≠ q) (String.list_ascii_of_string body) →
  split_once_loop separates (char_str q) false (body ++ suffix) =
  (body ++ split_once_loop separates (char_str q) false suffix)%string.
Proof.
  intros Hq. induction body as [| char body IH]; intros Hbody; [done |].
  apply Forall_cons in Hbody as [Hchar Hbody].
  assert (String.eqb (char_str char) (char_str q) = false) as Hne.
  { apply String.eqb_neq. by intros ?%char_str_inj. }
  rewrite !append_cons. cbn [split_once_loop].
  change (String.eqb (char_str q) "") with false. cbv iota. rewrite Hne.
  destruct (is_quote char); cbv iota beta; rewrite andb_false_r; f_equal; by apply IH.
Qed.

End SplitOnce.

(** X1: [split_once] cuts the text at one separator character and loses
    nothing else: either it returns the whole text and an empty rest, or the
    text is the first part, one character of [separates], and the rest. *)
Theorem split_once_reassembles (text : string) (separates : Separates) :
  split_once text separates = (text, EmptyString) ∨
  ∃ c, char_str c ∈ as_set separates ∧
    text = ((split_once text separates).1 ++ String c (split_once text separates).2)%string.
Proof.
  unfold split_once. cbn [fst snd].
  destruct (split_once_loop_stops (as_set separates) text "" true)
    as [-> | (c & rest & Hc & Heq)].
  - left. by rewrite str_drop_all.
  - right. exists c. split; [done |].
    remember (split_once_loop (as_set separates) "" true text) as r eqn:Hr. clear Hr.
    subst text. by rewrite str_drop_past.
Qed.

(** X2: a separator that is not exactly one character long never splits:
    when every string of [separates] is written in ASCII and none is one
    character long (for instance the single string [", "]), [split_once]
    returns the whole text and an empty rest. *)
Theorem split_once_long_separator (text : string) (separates : Separates) :
  (∀ s, s ∈ as_set separates → is_ascii s = true ∧ String.length s ≠ 1) →
  split_once text separates = (text, EmptyString).
Proof.
  intros Hlong. unfold split_once.
  rewrite split_once_loop_long by (intros s Hs; by apply Hlong).
  by rewrite str_drop_all.
Qed.

Lemma split_once_long_separator_witness :
  split_once "a, b" (SepStr ", ") = ("a, b"%string, EmptyString).
Proof.
  apply (split_once_long_separator "a, b" (SepStr ", ")).
  intros s Hs. cbn [as_set] in Hs. apply elem_of_singleton in Hs as ->.
  split; [reflexivity | simpl; lia].
Defined.

(** X3: in a text without quotation marks the first part that [split_once]
    returns holds no separator character, so the cut is at the first one. *)
Theorem split_once_unquoted (text : string) (separates : Separates) :
  Forall (λ c, is_quote c = false) (String.list_ascii_of_string text) →
  Forall (λ c, char_str c ∉ as_set separates)
    (String.list_ascii_of_string (split_once text separates).1).
Proof. intros Hq. by apply split_once_loop_unquoted. Qed.

Lemma split_once_unquoted_witness :
  Forall (λ c, char_str c ∉ as_set (SepStr " "))
    (String.list_ascii_of_string (split_once "pip install" (SepStr " ")).1).
Proof.
  apply (split_once_unquoted "pip install" (SepStr " ")).
  repeat constructor.
Defined.

(** X4: a quoted segment at the start of the text is passed over whole: for
    a quotation mark [q] that is no separator and a [body] without [q], the
    separators inside [q body q] do not cut, and the text is cut where
    [split_once] cuts what follows the closing mark. *)
Theorem split_once_quoted_segment (q : ascii) (body tail : string) (separates : Separates) :
  is_quote q = true →
  Forall (λ c, c ≠ q) (String.list_ascii_of_string body) →
  char_str q ∉ as_set separates →
  split_once (String q (body ++ String q tail)) separates =
  ((String q (body ++ String q (split_once tail separates).1))%string,
   (split_once tail separates).2).
Proof.
  intros Hq Hbody Hsep. unfold split_once. cbn [fst snd].
  assert (split_once_loop (as_set separates) "" true (String q (body ++ String q tail)) =
          String q (body ++ String q (split_once_loop (as_set separates) "" true tail))) as ->.
  { cbn [split_once_loop]. rewrite Hq. cbn [String.eqb]. rewrite andb_false_r.
    f_equal. rewrite split_once_loop_quoted by done. f_equal.
    cbn [split_once_loop]. rewrite Hq. cbn [String.eqb char_str].
    rewrite Ascii.eqb_refl. cbn [String.eqb].
    by rewrite bool_decide_eq_false_2. }
  f_equal.
  generalize (split_once_loop (as_set separates) "" true tail) as r. intros r.
  cbn [String.length Nat.add str_drop].
  induction body as [| c body IH]; [done |].
  apply Forall_cons in Hbody as [_ Hbody]. cbn [String.append String.length Nat.add str_drop].
  by apply IH.
Qed.

Lemma split_once_quoted_segment_witness :
  split_once (String "'" ("a b" ++ String "'" " c")) (SepStr " ") =
  ((String "'" ("a b" ++ String "'" (split_once " c" (SepStr " ")).1))%string,
   (split_once " c" (SepStr " ")).2).
Proof.
  apply (split_once_quoted_segment "'" "a b" " c" (SepStr " ")).
  - reflexivity.
  - repeat constructor; discriminate.
  - intros Hin. cbn [as_set] in Hin. apply elem_of_singleton in Hin. discriminate.
Defined.

Section Split.
Variable separates : gset string.

Lemma split_loop_nonempty text prev result quotation cache :
  Forall (λ c, is_newline c = false) (String.list_ascii_of_string text) →
  Forall (λ w, w ≠ EmptyString) result →
  Forall (λ w, w ≠ EmptyString) (split_loop separates prev result quotation cache text).1.
Proof.
  revert prev result quotation cache.
  induction text as [| char text IH]; intros prev result quotation cache Hnl Hres; [done |].
  apply Forall_cons in Hnl as [Hchar Hnl].
  cbn [split_loop]. rewrite Hchar. cbn [orb].
  repeat case_match; try by apply IH.
  apply IH; [done |]. apply Forall_app. split; [done |].
  constructor; [| constructor].
  match goal with
  | H : _ && negb (String.eqb cache "") = true |- _ =>
      apply andb_true_iff in H as [_ H]; apply negb_true_iff, String.eqb_neq in H
  end.
  done.
Qed.

(** A word without special characters goes to the cache as it is. *)
Lemma split_loop_word w rest prev result cache :
  Forall (λ c, is_quote c = false ∧ is_newline c = false ∧ c ≠ "\"%char ∧
               char_str c ∉ separates)
    (String.list_ascii_of_string w) →
  ∃ prev',
    split_loop separates prev result "" cache (w ++ rest) =
    split_loop separates prev' result "" (cache ++ w) rest.
Proof.
  revert prev cache.
  induction w as [| char w IH]; intros prev cache Hw.
  - exists prev. by rewrite string_app_nil_r.
  - apply Forall_cons in Hw as [(Hq & Hnl & Hbs & Hsep) Hw].
    rewrite append_cons. cbn [split_loop]. rewrite Hq, Hnl.
    rewrite bool_decide_eq_false_2 by done. cbn [orb andb negb String.eqb].
    replace (Ascii.eqb char "\") with false by (symmetry; by apply Ascii.eqb_neq).
    cbn [negb andb].
    destruct (IH (Some char) (cache ++ char_str char)%string Hw) as [prev' ->].
    exists prev'. by rewrite string_app_assoc.
Qed.

Lemma split_loop_join c ws prev result :
  char_str c ∈ separates → is_quote c = false →
  Forall (plain separates) ws → ws ≠ [] →
  ∃ w, last ws = Some w ∧
    split_loop separates prev result "" "" (join (char_str c) ws) =
    (result ++ removelast ws, w).
Proof.
  intros Hc Hq Hws. revert prev result.
  induction Hws as [| w ws [Hne Hw] Hws IH]; intros prev result Hnil; [done |].
  destruct ws as [| w2 ws].
  - exists w. split; [done |]. cbn [join removelast].
    destruct (split_loop_word w "" prev result "" Hw) as [prev' Heq].
    rewrite string_app_nil_r in Heq. rewrite Heq. cbn [split_loop].
    change ("" ++ w)%string with w. by rewrite app_nil_r.
  - destruct (IH (Some c) (result ++ [w]) ltac:(done)) as (w' & Hlast & Heq).
    exists w'. split; [exact Hlast |].
    change (join (char_str c) (w :: w2 :: ws))
      with (w ++ char_str c ++ join (char_str c) (w2 :: ws))%string.
    destruct (split_loop_word w (char_str c ++ join (char_str c) (w2 :: ws)) prev result "" Hw)
      as [prev' ->].
    change (char_str c ++ join (char_str c) (w2 :: ws))%string
      with (String c (join (char_str c) (w2 :: ws))).
    change ("" ++ w)%string with w.
    cbn [split_loop]. rewrite Hq.
    rewrite bool_decide_eq_true_2 by done.
    replace (String.eqb w "") with false by (symmetry; by apply String.eqb_neq).
    cbn [String.eqb andb negb]. rewrite orb_true_r.
    rewrite Heq. change (removelast (w :: w2 :: ws)) with (w :: removelast (w2 :: ws)).
    by rewrite <- app_assoc.
Qed.

End Split.

(** X5: without a line break in the text, [split] returns no empty
    element. *)
Theorem split_no_empty_element (text : string) (separates : option (gset string)) :
  Forall (λ c, is_newline c = false) (String.list_ascii_of_string text) →
  Forall (λ w, w ≠ EmptyString) (split text separates).
Proof.
  intros Hnl. unfold split.
  pose proof (split_loop_nonempty (or_space separates) text None [] "" "" Hnl (Forall_nil_2 _))
    as Hres.
  destruct (split_loop _ _ _ _ _ _) as [result cache]. cbn [fst] in Hres.
  destruct (String.eqb_spec cache ""); [done |].
  apply Forall_app. split; [done |]. by repeat constructor.
Qed.

Lemma split_no_empty_element_witness :
  Forall (λ w, w ≠ EmptyString) (split "pip  install 'a b'" None).
Proof.
  apply (split_no_empty_element "pip  install 'a b'" None).
  repeat constructor.
Defined.

(** X6: joining and splitting is a round trip: words that are not empty and
    hold no quotation mark, backslash, line break or separator, joined with
    one separator character that is no quotation mark, are what [split]
    returns for the joined text. *)
Theorem split_join (c : ascii) (words : list string) (separates : option (gset string)) :
  char_str c ∈ or_space separates →
  is_quote c = false →
  Forall (plain (or_space separates)) words →
  split (join (char_str c) words) separates = words.
Proof.
  intros Hc Hq Hws. unfold split.
  destruct words as [| w ws]; [done |].
  remember (w :: ws) as words eqn:Hwords.
  destruct (split_loop_join (or_space separates) c words None [] Hc Hq Hws ltac:(by subst))
    as (w' & Hlast & ->).
  apply last_Some in Hlast as [l' ->].
  assert (w' ≠ EmptyString) as Hne.
  { apply Forall_app in Hws as [_ Hws]. by apply Forall_cons in Hws as [[? _] _]. }
  replace (String.eqb w' "") with false by (symmetry; by apply String.eqb_neq).
  cbn [app]. by rewrite removelast_last.
Qed.

Lemma split_join_witness :
  split (join (char_str " ") ["pip"; "install"; "alconna"]%string) None =
  ["pip"; "install"; "alconna"]%string.
Proof.
  apply (split_join " " ["pip"; "install"; "alconna"]%string None).
  - cbn [or_space]. by apply elem_of_singleton_2.
  - reflexivity.
  - repeat constructor; try discriminate;
      intros Hin; cbn [or_space] in Hin; apply elem_of_singleton in Hin; discriminate.
Defined.

End TextFacts.

(** ** util.py: the methods of [LruCache] that only read *)

Module LruCacheQueriesFacts.
Import PyDict PyDictFacts LruCache LruCacheFacts LruCacheQueries.

Section SliceFacts.
Context {A : Type}.

Lemma omap_lookup_down (l : list A) (n : nat) :
  n ≤ length l →
  omap (λ i, l !! Z.to_nat (Z.of_nat (length l) - 1 - Z.of_nat i)) (seq 0 n) =
  take n (reverse l).
Proof.
  induction n as [| n IH]; intros Hn; [done |].
  rewrite seq_S, omap_app, IH by lia. cbn [omap Nat.add].
  assert (is_Some (reverse l !! n)) as [x Hx].
  { apply lookup_lt_is_Some. rewrite length_reverse. lia. }
  rewrite (take_S_r _ _ _ Hx). rewrite reverse_lookup in Hx by lia.
  f_equal. unfold omap. cbn [list_omap].
  replace (Z.to_nat (Z.of_nat (length l) - 1 - Z.of_nat n)) with (length l - S n) by lia.
  by rewrite Hx.
Qed.

Lemma slice_back_take (l : list A) (size : Z) :
  (0 < size)%Z → slice_back l (- size) = take (Z.to_nat (size - 1)) (reverse l).
Proof.
  intros Hsize. unfold slice_back.
  replace (- size <? 0)%Z with true by (symmetry; apply Z.ltb_lt; lia).
  destruct (Z.ltb_spec (- size + Z.of_nat (length l)) 0) as [Hbig | Hsmall].
  - destruct (Z.ltb_spec (-1) (Z.of_nat (length l) - 1)) as [Hlen | Hlen].
    + replace (Z.to_nat (Z.of_nat (length l) - 1 - -1)) with (length l) by lia.
      rewrite omap_lookup_down by done.
      by rewrite !take_ge by (rewrite length_reverse; lia).
    + destruct l; [| simpl in Hlen; lia]. by destruct (Z.to_nat (size - 1)).
  - destruct (Z.ltb_spec (- size + Z.of_nat (length l)) (Z.of_nat (length l) - 1))
      as [Hmany | Hone].
    + replace (Z.to_nat (Z.of_nat (length l) - 1 - (- size + Z.of_nat (length l))))
        with (Z.to_nat (size - 1)) by lia.
      apply omap_lookup_down. lia.
    + by replace (Z.to_nat (size - 1)) with 0 by lia.
Qed.

End SliceFacts.

Section Reachable.
Context {K V : Type} `{Countable K}.
Implicit Types (c : t K V) (o : op K V) (key : K).

Lemma od_get_in (d : list (K * V)) key v : od_get key d = Some v → key ∈ od_keys d.
Proof.
  induction d as [| [k v'] d IH]; [done |]. simpl.
  destruct (decide (k = key)) as [-> | Hne]; [by left | right; by apply IH].
Qed.

Lemma od_get_fresh (d : list (K * V)) key : key ∉ od_keys d → od_get key d = None.
Proof.
  intros Hn. destruct (od_get key d) as [v |] eqn:Hg; [| done].
  by apply od_get_in in Hg.
Qed.

Lemma od_move_to_end_length (d : list (K * V)) key :
  length (od_move_to_end key d) = length d.
Proof.
  unfold od_move_to_end. destruct (od_get key d) as [v |] eqn:Hg; [| done].
  assert (key ∈ od_keys d) as Hin by (by eapply od_get_in).
  destruct (od_split key d Hin) as (d1 & v' & d2 & -> & _ & _ & ->).
  rewrite !length_app. simpl. lia.
Qed.

Lemma od_remove_length (d : list (K * V)) key :
  length (od_remove key d) ≤ length d.
Proof.
  induction d as [| [k v] d IH]; [done |]. simpl.
  destruct (decide (k = key)); simpl; lia.
Qed.

(** A key that is moved to the end is found there. *)
Lemma od_move_to_end_found (d : list (K * V)) key v :
  NoDup (od_keys d) → od_get key d = Some v →
  ∃ d', od_move_to_end key d = d' ++ [(key, v)] ∧ (key ∉ od_keys d') ∧
        od_get key (od_move_to_end key d) = Some v.
Proof.
  intros Hnd Hg. unfold od_move_to_end. rewrite Hg.
  assert (key ∈ od_keys d) as Hin by (by eapply od_get_in).
  destruct (od_split key d Hin) as (d1 & v' & d2 & -> & Hn1 & Hg' & ->).
  rewrite od_keys_app in Hnd. simpl in Hnd.
  apply NoDup_app in Hnd as (_ & _ & Hnd2). apply NoDup_cons in Hnd2 as [Hn2 _].
  assert (key ∉ od_keys (d1 ++ d2)) as Hn.
  { rewrite od_keys_app. by intros [?|?]%elem_of_app. }
  exists (d1 ++ d2). split_and!; [done | done |]. by apply od_get_last.
Qed.

(** The entry used last is the one that [recent] reads. *)
Lemma recent_snoc c (d : list (K * V)) key v :
  cache c = d ++ [(key, v)] → key ∉ od_keys d → recent c = Ok (Some v).
Proof.
  intros Hc Hd. unfold recent. rewrite Hc, od_keys_app. simpl.
  rewrite last_snoc. by rewrite od_get_last.
Qed.

(** The entries after [set] with a new key: either none is left, or the new
    entry is last, after entries that the cache had before. *)
Lemma set_new_last c key value expiration :
  key ∉ od_keys (cache c) →
  cache (set key value expiration c).2 = [] ∨
  ∃ d, cache (set key value expiration c).2 = d ++ [(key, value)] ∧ key ∉ od_keys d.
Proof.
  intros Hnew. rewrite set_cache by done.
  destruct (_ && _); [| right; by exists (cache c)].
  destruct (cache c) as [| [k0 v0] rest]; [by left |].
  right. exists rest. split; [done |].
  simpl in Hnew. by apply not_elem_of_cons in Hnew as [_ ?].
Qed.

(** [max_size] is set once. *)
Lemma max_size_step c o : max_size (step c o) = max_size c.
Proof.
  destruct o as [key value e | key | key |]; simpl; [| | | done].
  - unfold set. repeat case_match; rewrite ?set_record_max_size; done.
  - unfold get, getitem. repeat case_match; simplify_eq; done.
  - unfold delete. repeat case_match; done.
Qed.

Lemma max_size_run ops c : max_size (run ops c) = max_size c.
Proof.
  revert c. induction ops as [| o ops IH]; intros c; [done |].
  simpl. by rewrite IH, max_size_step.
Qed.

(** The number of entries after one call, against the counter. *)
Lemma len_step c o :
  (Z.of_nat (len (step c o)) - Z.of_nat (len c) ≤ size_ (step c o) - size_ c)%Z ∧
  ((0 < max_size c)%Z →
   (Z.of_nat (len (step c o)) ≤ Z.of_nat (len c))%Z ∨ (size_ (step c o) ≤ max_size c)%Z).
Proof.
  unfold len. destruct o as [key value e | key | key |]; simpl.
  - pose proof (set_size c key value e) as Hsize.
    destruct (od_mem key (cache c)) eqn:Hmem.
    + unfold set in *. rewrite Hmem in *. simpl. split; [lia | left; lia].
    + apply od_mem_false in Hmem. rewrite set_cache by done.
      unfold set in *. rewrite (proj2 (od_mem_false key (cache c))) in * by done.
      rewrite od_set_new in * by done.
      destruct (bool_decide (0 < max_size c)%Z) eqn:Hpos;
        [apply bool_decide_eq_true in Hpos | apply bool_decide_eq_false in Hpos];
        (destruct (bool_decide (max_size c < size_ c + 1)%Z) eqn:Hfull;
         [apply bool_decide_eq_true in Hfull | apply bool_decide_eq_false in Hfull]);
        cbn [andb] in *.
      * destruct (cache c) as [| [k0 v0] rest]; cbn [app tail length] in *.
        -- split; [lia | left; lia].
        -- rewrite length_app. simpl. split; [| left; lia].
           destruct (record c !! k0); [rewrite set_record_size |]; simpl; lia.
      * rewrite length_app, set_record_size. simpl. split; [lia | right; lia].
      * rewrite length_app, set_record_size. simpl. split; [lia | intros; lia].
      * rewrite length_app, set_record_size. simpl. split; [lia | intros; lia].
  - unfold get, getitem. destruct (od_mem key (cache c)); [| simpl; split; [lia | left; lia]].
    cbn [cache].
    destruct (od_get key (od_move_to_end key (cache c))); simpl;
      rewrite od_move_to_end_length; (split; [lia | left; lia]).
  - unfold delete. destruct (od_mem key (cache c)); [| simpl; split; [lia | left; lia]].
    pose proof (od_remove_length (cache c) key).
    destruct (record c !! key); simpl; (split; [lia | left; lia]).
  - split; [lia | left; lia].
Qed.

(** No call lets the entries catch up with the counter. *)
Lemma lead_step c o : (lead c ≤ lead (step c o))%Z.
Proof. unfold lead. pose proof (len_step c o) as [Hlen _]. lia. Qed.

Lemma lead_run ops c : (lead c ≤ lead (run ops c))%Z.
Proof.
  revert c. induction ops as [| o ops IH]; intros c; [done |].
  simpl. etrans; [apply lead_step | apply IH].
Qed.

(** The entries never become more than there are now, or than the bound
    less the lead of the counter. *)
Lemma capacity_run M ops c (B : Z) :
  (0 < M)%Z → max_size c = M →
  (Z.of_nat (len c) ≤ B)%Z → (M - lead c ≤ B)%Z →
  (Z.of_nat (len (run ops c)) ≤ B)%Z.
Proof.
  intros HM. revert c. induction ops as [| o ops IH]; intros c Hmax Hlen Hlead; [done |].
  simpl. pose proof (len_step c o) as [Hstep Hbound].
  pose proof (lead_step c o) as Hmono.
  apply IH; [by rewrite max_size_step | | lia].
  destruct Hbound as [Hsame | Hroom]; [lia | lia |].
  unfold lead in *. lia.
Qed.

Lemma exact_init M : exact (init M : t K V).
Proof.
  split_and!; [apply recorded_init | done |]. simpl. lia.
Qed.

Lemma exact_step c o :
  keeps o = true → fits o = true → wf (max_size c) c → exact c → exact (step c o).
Proof.
  intros Hk Hfits Hwf (Hrec & Hsz & Hmax).
  split; [by eapply recorded_step |].
  rewrite max_size_step.
  destruct o as [key value e | key | key |]; try done; simpl.
  - simpl in Hfits. unfold set. destruct (od_mem key (cache c)) eqn:Hmem; [done |].
    apply od_mem_false in Hmem. rewrite od_set_new by done.
    unfold set_record. rewrite Hfits.
    destruct (bool_decide (0 < max_size c)%Z) eqn:Hpos;
      [apply bool_decide_eq_true in Hpos | apply bool_decide_eq_false in Hpos];
      (destruct (bool_decide (max_size c < size_ c + 1)%Z) eqn:Hfull;
       [apply bool_decide_eq_true in Hfull | apply bool_decide_eq_false in Hfull]);
      cbn [andb]; try (simpl; rewrite length_app; simpl; split; lia).
    destruct (cache c) as [| [k0 v0] rest] eqn:Hcache; [simpl in Hsz; lia |].
    destruct (Hrec k0) as [e0 He0]; [rewrite Hcache; by left |].
    cbn [app]. rewrite He0. simpl. rewrite length_app. simpl in *. split; lia.
  - unfold get, getitem. destruct (od_mem key (cache c)); [| done].
    cbn [cache].
    destruct (od_get key (od_move_to_end key (cache c))); simpl;
      rewrite od_move_to_end_length; done.
Qed.

Lemma exact_run ops c :
  forallb keeps ops = true → forallb fits ops = true →
  wf (max_size c) c → exact c → exact (run ops c).
Proof.
  revert c. induction ops as [| o ops IH]; intros c Hk Hf Hwf Hc; [done |].
  simpl in Hk, Hf. apply andb_true_iff in Hk as [Ho Hk]. apply andb_true_iff in Hf as [Hfo Hf].
  simpl. apply IH; [done | done | | by apply exact_step].
  rewrite max_size_step. by apply wf_step.
Qed.

Lemma stuck_step M c o : (0 < M)%Z → stuck M c → stuck M (step c o).
Proof.
  intros HM (Hmax & Hcache & Hrec & Hsz).
  destruct o as [key value e | key | key |]; simpl.
  - unfold set. rewrite Hcache, Hmax, Hrec. simpl.
    rewrite bool_decide_eq_true_2 by done.
    rewrite bool_decide_eq_true_2 by lia. simpl.
    rewrite lookup_empty. unfold stuck. simpl. split_and!; [done.. | lia].
  - unfold get, getitem. rewrite Hcache. by simpl.
  - unfold delete. rewrite Hcache. by simpl.
  - unfold stuck, clear. by simpl.
Qed.

Lemma stuck_run M ops c : (0 < M)%Z → stuck M c → stuck M (run ops c).
Proof.
  intros HM. revert c. induction ops as [| o ops IH]; intros c Hc; [done |].
  simpl. apply IH. by apply stuck_step.
Qed.

End Reachable.

(** X7: [recent] on a cache reached from a new one: on an empty cache it
    raises [IndexError] (it does not return [None]); after a lookup that
    found a value it returns that value; after a [set] with a new key,
    whether the call returned or raised, it returns the value given, unless
    the call left the cache empty. *)
Theorem recent_is_last_use {K V : Type} `{Countable K} (M : Z) (ops : list (op K V)) :
  let c := run ops (init M) in
  (cache c = [] → recent c = Raise IndexError) ∧
  (∀ key v c', getitem key c = (Ok v, c') → recent c' = Ok (Some v)) ∧
  (∀ key value expiration,
     od_mem key (cache c) = false →
     recent (set key value expiration c).2 =
       match cache (set key value expiration c).2 with
       | [] => Raise IndexError
       | _ => Ok (Some value)
       end).
Proof.
  intros c. pose proof (wf_reachable M ops) as (_ & Hnd & _). fold c in Hnd.
  split_and!.
  - intros Hnil. unfold recent. by rewrite Hnil.
  - intros key v c' Hget. unfold getitem in Hget.
    destruct (od_mem key (cache c)) eqn:Hmem; [| done].
    cbn [cache] in Hget.
    apply od_mem_true in Hmem.
    destruct (od_split key (cache c) Hmem) as (d1 & v0 & d2 & _ & _ & Hg & _).
    destruct (od_move_to_end_found (cache c) key v0 Hnd Hg) as (d' & Hmoved & Hn & Hfound).
    rewrite Hfound in Hget. injection Hget as <- <-.
    by apply (recent_snoc _ d' key).
  - intros key value expiration Hmem. apply od_mem_false in Hmem.
    destruct (set_new_last c key value expiration Hmem) as [Hnil | (d & Hd & Hfresh)].
    + rewrite Hnil. unfold recent. by rewrite Hnil.
    + rewrite (recent_snoc _ d key value) by done. rewrite Hd. by destruct d.
Qed.

(** X8: for [size > 0], [items(size)] gives the [size - 1] entries used
    last, the newest first (all of them, reversed, when there are fewer); so
    [items(1)] gives nothing. *)
Theorem items_newest_first {K V : Type} `{Countable K} (c : t K V) (size : Z) :
  (0 < size)%Z →
  items size c = take (Z.to_nat (size - 1)) (reverse (cache c)).
Proof.
  intros Hsize. unfold items.
  replace (0 <? size)%Z with true by (symmetry; apply Z.ltb_lt; lia).
  by apply slice_back_take.
Qed.

Lemma items_newest_first_witness :
  items 2 (run [OpSet "a"%string 1%Z 0%Z; OpSet "b"%string 2%Z 0%Z; OpSet "c"%string 3%Z 0%Z]
             (init (-1))) =
  take (Z.to_nat (2 - 1))
    (reverse (cache (run [OpSet "a"%string 1%Z 0%Z; OpSet "b"%string 2%Z 0%Z; OpSet "c"%string 3%Z 0%Z]
                       (init (-1))))).
Proof. apply (items_newest_first _ 2). lia. Defined.

(** X9: [size()] is never less than [len()] on a cache reached from a new
    one, whatever the calls raised; the two agree as long as nothing was
    deleted or cleared and [timedelta] accepted every expiration. *)
Theorem size_counts_entries {K V : Type} `{Countable K} (M : Z) (ops : list (op K V)) :
  let c := run ops (init M) in
  (Z.of_nat (len c) ≤ size c)%Z ∧
  (forallb keeps ops = true → forallb fits ops = true → size c = Z.of_nat (len c)).
Proof.
  intros c. split.
  - by pose proof (wf_reachable M ops) as (_ & _ & _ & Hsz & _).
  - intros Hk Hf.
    by destruct (exact_run ops (init M) Hk Hf (wf_init M) (exact_init M)) as (_ & Hsz & _).
Qed.

(** Without a delete or clear, but with an expiration that [timedelta]
    refuses: the counter runs ahead of the entries. *)
Example size_ahead_after_overflow :
  let c := run [OpSet 1 "a"%string (10 ^ 18)%Z; OpSet 2 "b"%string 0%Z] (init 1) in
  size c = 2%Z ∧ len c = 1.
Proof. vm_compute. done. Qed.

(** X10: what the counter is ahead of the entries is never given back: when
    the counter of a cache with bound [M] is [d] ahead of its entries, no
    later sequence of calls brings the cache to more entries than it has
    now, or than [M - d] if that is more. *)
Theorem lru_cache_capacity_shrinks {K V : Type} `{Countable K}
    (M : Z) (ops ops' : list (op K V)) :
  (0 < M)%Z →
  let c := run ops (init M) in
  (Z.of_nat (len (run ops' c)) ≤ Z.max (Z.of_nat (len c)) (M - lead c))%Z.
Proof.
  intros HM c.
  apply (capacity_run M); [done | | lia | lia].
  unfold c. by rewrite max_size_run.
Qed.

Lemma lru_cache_capacity_shrinks_witness :
  (Z.of_nat (len (run [OpSet "c"%string 3%Z 0%Z; OpSet "d"%string 4%Z 0%Z]
                    (run [OpSet "a"%string 1%Z 0%Z; OpSet "b"%string 2%Z 0%Z; OpDelete "a"%string]
                       (init 2))))
   ≤ Z.max
       (Z.of_nat (len (run [OpSet "a"%string 1%Z 0%Z; OpSet "b"%string 2%Z 0%Z; OpDelete "a"%string]
                         (init 2))))
       (2 - lead (run [OpSet "a"%string 1%Z 0%Z; OpSet "b"%string 2%Z 0%Z; OpDelete "a"%string]
                    (init 2))))%Z.
Proof.
  apply (lru_cache_capacity_shrinks 2
           [OpSet "a"%string 1%Z 0%Z; OpSet "b"%string 2%Z 0%Z; OpDelete "a"%string]
           [OpSet "c"%string 3%Z 0%Z; OpSet "d"%string 4%Z 0%Z]).
  lia.
Defined.

(** X11: a cache with bound [M] that is cleared when it is full stores
    nothing any more: after [clear], whatever calls follow, the cache is
    empty and every [set] raises [KeyError]. *)
Theorem lru_cache_clear_when_full {K V : Type} `{Countable K}
    (M : Z) (ops ops' : list (op K V)) (key : K) (value : V) (expiration : Z) :
  (0 < M)%Z →
  Z.of_nat (len (run ops (init M))) = M →
  let c := run ops' (clear (run ops (init M))) in
  cache c = [] ∧ (set key value expiration c).1 = Raise KeyError.
Proof.
  intros HM Hfull c.
  assert (stuck M (clear (run ops (init M)))) as Hstuck.
  { pose proof (wf_reachable M ops) as (Hmax & _ & _ & Hsz & _).
    unfold stuck, clear. simpl. split_and!; [done.. |].
    unfold len in Hfull. lia. }
  apply (stuck_run M ops') in Hstuck as (Hmax & Hcache & Hrec & Hsz); [| done].
  fold c in Hmax, Hcache, Hrec, Hsz. split; [done |].
  unfold set. rewrite Hcache, Hmax, Hrec. simpl.
  rewrite bool_decide_eq_true_2 by done.
  rewrite bool_decide_eq_true_2 by lia. simpl.
  by rewrite lookup_empty.
Qed.

Lemma lru_cache_clear_when_full_witness :
  let c := run [OpSet "b"%string 2%Z 0%Z; OpGet "b"%string]
             (clear (run [OpSet "a"%string 1%Z 0%Z] (init 1))) in
  cache c = [] ∧ (set "c"%string 3%Z 0%Z c).1 = Raise KeyError.
Proof.
  apply (lru_cache_clear_when_full 1 [OpSet "a"%string 1%Z 0%Z]
           [OpSet "b"%string 2%Z 0%Z; OpGet "b"%string] "c"%string 3%Z 0%Z).
  - lia.
  - reflexivity.
Defined.

(** X12: [set] never overwrites: on a cache reached from a new one, after a
    [set(key, value)] that did not raise [KeyError] (it returned, or it
    raised [OverflowError], which comes after the entry is stored),
    [get(key)] gives the value that [key] had before the call when it had
    one, and [value] otherwise. *)
Theorem set_then_get {K V : Type} `{Countable K}
    (M : Z) (ops : list (op K V)) (key : K) (value : V) (expiration : Z) :
  let c := run ops (init M) in
  (set key value expiration c).1 ≠ Raise KeyError →
  (get key (set key value expiration c).2).1 =
    Some (default value (od_get key (cache c))).
Proof.
  intros c Hset.
  pose proof (wf_reachable M ops) as Hwf. fold c in Hwf.
  pose proof (wf_set M c key value expiration Hwf) as (_ & Hnd' & _).
  destruct Hwf as (_ & Hnd & Hrec & _).
  assert (od_get key (cache (set key value expiration c).2) =
          Some (default value (od_get key (cache c)))) as Hg.
  { destruct (od_mem key (cache c)) eqn:Hmem.
    - unfold set. rewrite Hmem. apply od_mem_true in Hmem.
      destruct (od_split key (cache c) Hmem) as (d1 & v0 & d2 & _ & _ & Hg & _).
      by rewrite Hg.
    - pose proof Hmem as Hnew. apply od_mem_false in Hnew.
      rewrite (od_get_fresh (cache c) key) by done. cbn [default].
      destruct (set_new_last c key value expiration Hnew) as [Hnil | (d & -> & Hfresh)];
        [| by apply od_get_last].
      exfalso. apply Hset. rewrite set_cache in Hnil by done.
      unfold set. rewrite Hmem. rewrite od_set_new by done.
      destruct (_ && _); [| by destruct (cache c)].
      destruct (cache c) as [| [k0 v0] rest] eqn:Hc; [| by destruct rest].
      cbn [app].
      assert (record c !! key = None) as ->; [| done].
      apply eq_None_not_Some. intros Hk. apply Hrec in Hk. by apply elem_of_nil in Hk. }
  unfold get, getitem.
  assert (od_mem key (cache (set key value expiration c).2) = true) as ->.
  { apply od_mem_true. by eapply od_get_in. }
  cbn [cache].
  destruct (od_move_to_end_found (cache (set key value expiration c).2) key _ Hnd' Hg)
    as (_ & _ & _ & ->).
  done.
Qed.

Lemma set_then_get_witness :
  let c := run [OpSet "a"%string 1%Z 0%Z] (init 2) in
  (get "a"%string (set "a"%string 7%Z 0%Z c).2).1 =
    Some (default 7%Z (od_get "a"%string (cache c))) ∧
  (get "b"%string (set "b"%string 7%Z (10 ^ 18)%Z c).2).1 =
    Some (default 7%Z (od_get "b"%string (cache c))).
Proof.
  intros c. split.
  - apply (set_then_get 2 [OpSet "a"%string 1%Z 0%Z] "a"%string 7%Z 0%Z).
    vm_compute. discriminate.
  - apply (set_then_get 2 [OpSet "a"%string 1%Z 0%Z] "b"%string 7%Z (10 ^ 18)%Z).
    vm_compute. discriminate.
Defined.

(** The two calls of the witness: the first finds the key and keeps its
    value, the second stores the new entry and then raises. *)
Example set_then_get_examples :
  let c := run [OpSet "a"%string 1%Z 0%Z] (init 2) in
  (get "a"%string (set "a"%string 7%Z 0%Z c).2).1 = Some 1%Z ∧
  (set "b"%string 7%Z (10 ^ 18)%Z c).1 = Raise OverflowError ∧
  (get "b"%string (set "b"%string 7%Z (10 ^ 18)%Z c).2).1 = Some 7%Z.
Proof. vm_compute. done. Qed.

End LruCacheQueriesFacts.

(** ** _internal/_handlers.py: defaults and shortcut data *)

Module DefaultsFacts.
Import PyDict PyDictFacts Grammar Defaults.
Import HandlersFacts.

Section SetDefault.
Context {V : Type}.
Implicit Types (d : list (string * V)) (key : string).

Lemma od_get_setdefault d key key' (v : V) :
  od_get key' (od_setdefault key v d) =
  match od_get key' d with
  | Some w => Some w
  | None => if decide (key = key') then Some v else None
  end.
Proof.
  unfold od_setdefault. destruct (od_mem key d) eqn:Hmem.
  - destruct (od_get key' d) as [w |] eqn:Hg; [done |].
    destruct (decide (key = key')) as [-> | Hne]; [| done].
    apply od_get_is_Some in Hmem as [w Hw]. congruence.
  - rewrite od_get_set. apply od_mem_false, od_get_None in Hmem.
    destruct (decide (key = key')) as [<- | Hne]; [by rewrite Hmem |].
    by destruct (od_get key' d).
Qed.

Lemma od_setdefault_present d key (v : V) :
  key ∈ od_keys d → od_setdefault key v d = d.
Proof. intros Hin%od_mem_true. unfold od_setdefault. by rewrite Hin. Qed.

End SetDefault.

Lemma fill_args_get act default_args args key :
  od_get key (fill_args act default_args args) =
  match od_get key args with
  | Some w => Some w
  | None => default_arg act <$> od_get key default_args
  end.
Proof.
  unfold fill_args. revert args.
  induction default_args as [| [k v] default_args IH]; intros args; simpl.
  - by destruct (od_get key args).
  - rewrite IH, od_get_setdefault.
    destruct (od_get key args) as [w |]; [done |].
    destruct (decide (k = key)); done.
Qed.

Lemma fill_args_present act default_args args :
  (∀ k, k ∈ od_keys default_args → k ∈ od_keys args) →
  fill_args act default_args args = args.
Proof.
  unfold fill_args.
  induction default_args as [| [k v] default_args IH]; intros Hin; [done |].
  simpl. rewrite od_setdefault_present by (apply Hin; by left).
  apply IH. intros k' Hk'. apply Hin. by right.
Qed.

(** On the dictionary that it iterates over, the inner loop changes
    nothing. *)
Lemma fill_args_same act args : fill_args act args args = args.
Proof. by apply fill_args_present. Qed.

Lemma opt_default_step_get data k v0 v1 key :
  od_get key (opt_default_step data (k, (v0, v1))) =
  if decide (k = key) then Some (defaulted v0 v1 (od_get k data)) else od_get key data.
Proof.
  unfold opt_default_step, defaulted.
  destruct (od_mem k data) eqn:Hmem.
  - destruct (od_get_is_Some data k Hmem) as [cur Hcur]. rewrite Hcur.
    destruct (args v0) as [| kv rest] eqn:Hargs.
    + destruct (decide (k = key)) as [<- | Hne]; [done | done].
    + rewrite od_get_set. by destruct (decide (k = key)).
  - apply od_mem_false, od_get_None in Hmem. rewrite Hmem.
    destruct (args v0) as [| kv rest] eqn:Hargs.
    + rewrite od_get_set. by destruct (decide (k = key)).
    + rewrite (od_get_set data k k), decide_True by done.
      rewrite !od_get_set. destruct (decide (k = key)) as [<- | Hne]; [| done].
      cbn [value_ Grammar.args]. rewrite <- Hargs, fill_args_same. by destruct v0.
Qed.

Lemma handle_opt_default_get defaults data key :
  NoDup (od_keys defaults) →
  od_get key (handle_opt_default defaults data) =
  match od_get key defaults with
  | Some (v0, v1) => Some (defaulted v0 v1 (od_get key data))
  | None => od_get key data
  end.
Proof.
  unfold handle_opt_default. revert data.
  induction defaults as [| [k [v0 v1]] defaults IH]; intros data Hnd; [done |].
  simpl in Hnd. apply NoDup_cons in Hnd as [Hk Hnd].
  cbn [foldl]. rewrite IH by done. cbn [od_get].
  rewrite opt_default_step_get.
  destruct (decide (k = key)) as [<- | Hne]; [| done].
  by rewrite (od_get_None defaults k Hk).
Qed.

(** X13: [handle_opt_default] replaces nothing that the parse produced: an
    option that is in [data] keeps its value, and every argument it has
    keeps the value it is bound to. *)
Theorem handle_opt_default_keeps_parsed
    (defaults : list (string * (OptionResult * Action))) (data : list (string * OptionResult))
    (k : string) (cur : OptionResult) :
  NoDup (od_keys defaults) →
  od_get k data = Some cur →
  ∃ cur', od_get k (handle_opt_default defaults data) = Some cur' ∧
    value_ cur' = value_ cur ∧
    ∀ key v, od_get key (args cur) = Some v → od_get key (args cur') = Some v.
Proof.
  intros Hnd Hcur. rewrite handle_opt_default_get, Hcur by done.
  destruct (od_get k defaults) as [[v0 v1] |]; [| by exists cur].
  unfold defaulted. destruct (args v0) as [| kv rest] eqn:Hargs; [by exists cur |].
  eexists. split; [reflexivity |]. split; [done |].
  intros key v Hv. cbn [args]. by rewrite fill_args_get, Hv.
Qed.

Lemma handle_opt_default_keeps_parsed_witness :
  ∃ cur',
    od_get "foo"%string
      (handle_opt_default
         [("foo"%string, ({| value_ := VNone; args := [("x"%string, VInt 0)] |},
                          {| act_type := 0; act_value := VNone |}))]
         [("foo"%string, {| value_ := VNone; args := [("x"%string, VInt 5)] |})]) = Some cur' ∧
    value_ cur' = VNone ∧
    ∀ key v, od_get key [("x"%string, VInt 5)] = Some v → od_get key (args cur') = Some v.
Proof.
  apply (handle_opt_default_keeps_parsed
           [("foo"%string, ({| value_ := VNone; args := [("x"%string, VInt 0)] |},
                            {| act_type := 0; act_value := VNone |}))]
           [("foo"%string, {| value_ := VNone; args := [("x"%string, VInt 5)] |})]
           "foo"%string {| value_ := VNone; args := [("x"%string, VInt 5)] |}).
  - repeat constructor. by intros ?%elem_of_nil.
  - reflexivity.
Defined.

(** X14: [handle_opt_default] fills in what is missing: an option of
    [defaults] that is not in [data] gets its default result as it is; in an
    option that is in [data], an argument without a value gets the default
    value of that argument, wrapped in a one-element list when the value of
    the action equals 1. *)
Theorem handle_opt_default_fills
    (defaults : list (string * (OptionResult * Action))) (data : list (string * OptionResult))
    (k : string) (v0 : OptionResult) (v1 : Action) :
  NoDup (od_keys defaults) →
  od_get k defaults = Some (v0, v1) →
  (od_get k data = None → od_get k (handle_opt_default defaults data) = Some v0) ∧
  (∀ cur key v,
     od_get k data = Some cur → od_get key (args cur) = None → od_get key (args v0) = Some v →
     ∃ cur', od_get k (handle_opt_default defaults data) = Some cur' ∧
       od_get key (args cur') =
         Some (if py_eq_one (act_value v1) then VList [v] else v)).
Proof.
  intros Hnd Hdef. rewrite handle_opt_default_get, Hdef by done. split.
  - by intros ->.
  - intros cur key v -> Hmiss Hv. unfold defaulted.
    destruct (args v0) as [| kv rest] eqn:Hargs; [done |].
    eexists. split; [reflexivity |]. cbn [args].
    by rewrite fill_args_get, Hmiss, Hv.
Qed.

Lemma handle_opt_default_fills_witness :
  let v0 := {| value_ := VNone; args := [("x"%string, VInt 0)] |} in
  let v1 := {| act_type := 1; act_value := VInt 1 |} in
  let defaults := [("foo"%string, (v0, v1))] in
  let data := [("foo"%string, {| value_ := VNone; args := [] |})] in
  (od_get "foo"%string data = None →
   od_get "foo"%string (handle_opt_default defaults data) = Some v0) ∧
  (∀ cur key v,
     od_get "foo"%string data = Some cur → od_get key (args cur) = None →
     od_get key (args v0) = Some v →
     ∃ cur', od_get "foo"%string (handle_opt_default defaults data) = Some cur' ∧
       od_get key (args cur') =
         Some (if py_eq_one (act_value v1) then VList [v] else v)).
Proof.
  apply (handle_opt_default_fills
           [("foo"%string, ({| value_ := VNone; args := [("x"%string, VInt 0)] |},
                            {| act_type := 1; act_value := VInt 1 |}))]
           [("foo"%string, {| value_ := VNone; args := [] |})]
           "foo"%string).
  - repeat constructor. by intros ?%elem_of_nil.
  - reflexivity.
Defined.

End DefaultsFacts.

Module ShortcutDataFacts.
Import Grammar ShortcutData.
Import TextFacts.

Section GenExtend.
Variable sep : string.

Lemma gen_extend_step_cases extend slot :
  (gen_extend_step sep extend slot = extend ++ [slot] ∧
   ∀ s prev, slot = VStr s → last extend = Some (VStr prev) → False) ∨
  (∃ s prev init, slot = VStr s ∧ extend = init ++ [VStr prev] ∧
     gen_extend_step sep extend slot = init ++ [VStr (prev ++ sep ++ s)]).
Proof.
  unfold gen_extend_step.
  destruct slot as [| | | s | | | |]; try (left; split; [done | by intros ? ? [=]]).
  destruct (last extend) as [prev |] eqn:Hlast; [| left; split; [done | by intros ? ? _ [=]]].
  destruct prev as [| | | prev | | | |]; try (left; split; [done | by intros ? ? _ [=]]).
  right. apply last_Some in Hlast as [init ->].
  exists s, prev, init. by rewrite removelast_last.
Qed.

Lemma gen_extend_step_objects extend slot :
  filter (λ v, is_str v = false) (gen_extend_step sep extend slot) =
  filter (λ v, is_str v = false) extend ++ filter (λ v, is_str v = false) [slot].
Proof.
  destruct (gen_extend_step_cases extend slot) as [[-> _] | (s & prev & init & -> & -> & ->)].
  - by rewrite filter_app.
  - rewrite !filter_app. cbn. by rewrite !app_nil_r.
Qed.

Lemma gen_extend_objects_from data extend :
  filter (λ v, is_str v = false) (foldl (gen_extend_step sep) extend data) =
  filter (λ v, is_str v = false) extend ++ filter (λ v, is_str v = false) data.
Proof.
  revert extend. induction data as [| slot data IH]; intros extend.
  - by rewrite app_nil_r.
  - cbn [foldl]. rewrite IH, gen_extend_step_objects, <- app_assoc. f_equal.
    by rewrite <- filter_app.
Qed.

Lemma snoc_eq_adjacent (l : list pyval) (x : pyval) l1 s1 s2 l2 :
  l ++ [x] = l1 ++ VStr s1 :: VStr s2 :: l2 →
  (l2 = [] ∧ l = l1 ++ [VStr s1] ∧ x = VStr s2) ∨
  (∃ l2', l2 = l2' ++ [x] ∧ l = l1 ++ VStr s1 :: VStr s2 :: l2').
Proof.
  intros Heq. destruct l2 as [| y l2 _] using rev_ind.
  - left. change (l1 ++ [VStr s1; VStr s2]) with (l1 ++ [VStr s1] ++ [VStr s2]) in Heq.
    rewrite app_assoc in Heq. by apply app_inj_tail in Heq as [-> ->].
  - right. exists l2.
    change (l1 ++ VStr s1 :: VStr s2 :: l2 ++ [y])
      with (l1 ++ (VStr s1 :: VStr s2 :: l2) ++ [y]) in Heq.
    rewrite app_assoc in Heq. by apply app_inj_tail in Heq as [-> ->].
Qed.

Lemma gen_extend_step_adjacent extend slot :
  ¬ adjacent_strings extend → ¬ adjacent_strings (gen_extend_step sep extend slot).
Proof.
  intros Hno (l1 & s1 & s2 & l2 & Heq). apply Hno.
  destruct (gen_extend_step_cases extend slot)
    as [[Hstep Hx] | (s & prev & init & -> & -> & Hstep)]; rewrite Hstep in Heq.
  - apply snoc_eq_adjacent in Heq as [(-> & -> & ->) | (l2' & -> & ->)].
    + exfalso. eapply Hx; [done |]. by rewrite last_snoc.
    + by exists l1, s1, s2, l2'.
  - apply snoc_eq_adjacent in Heq as [(-> & -> & _) | (l2' & -> & ->)].
    + exists l1, s1, prev, []. by rewrite <- app_assoc.
    + exists l1, s1, s2, (l2' ++ [VStr prev]). by rewrite <- app_assoc.
Qed.

Lemma gen_extend_adjacent_from data extend :
  ¬ adjacent_strings extend → ¬ adjacent_strings (foldl (gen_extend_step sep) extend data).
Proof.
  revert extend. induction data as [| slot data IH]; intros extend Hno; [done |].
  cbn [foldl]. by apply IH, gen_extend_step_adjacent.
Qed.

Lemma join_cons_app (p w : string) (ws : list string) :
  Text.join sep ((p ++ w)%string :: ws) = (p ++ Text.join sep (w :: ws))%string.
Proof. destruct ws as [| w2 ws]; [done |]. cbn [Text.join]. by rewrite string_app_assoc. Qed.

Lemma gen_extend_strings_from (w : string) (ws : list string) :
  foldl (gen_extend_step sep) [VStr w] (VStr <$> ws) = [VStr (Text.join sep (w :: ws))].
Proof.
  revert w. induction ws as [| w2 ws IH]; intros w; [done |].
  cbn [fmap list_fmap foldl]. unfold gen_extend_step at 2. cbn [last removelast app].
  rewrite IH. f_equal. f_equal.
  change (w :: w2 :: ws) with (w :: (w2 :: ws)).
  rewrite join_cons_app. cbn [Text.join]. destruct ws; by rewrite ?string_app_assoc.
Qed.

End GenExtend.

(** X15: [_gen_extend] never leaves two strings next to each other, and it
    keeps the elements that are not strings, in their order. *)
Theorem gen_extend_merges_strings (data : list pyval) (sep : string) :
  ¬ adjacent_strings (_gen_extend data sep) ∧
  filter (λ v, is_str v = false) (_gen_extend data sep) =
  filter (λ v, is_str v = false) data.
Proof.
  split.
  - apply gen_extend_adjacent_from. intros (l1 & s1 & s2 & l2 & Heq). by destruct l1.
  - unfold _gen_extend. by rewrite gen_extend_objects_from.
Qed.

(** X16: on data that are all strings, [_gen_extend] returns one string: the
    data joined by [sep]; and nothing for no data. *)
Theorem gen_extend_joins (words : list string) (sep : string) :
  _gen_extend (VStr <$> words) sep =
  match words with
  | [] => []
  | _ => [VStr (Text.join sep words)]
  end.
Proof.
  destruct words as [| w ws]; [done |].
  unfold _gen_extend. cbn [fmap list_fmap foldl].
  change (gen_extend_step sep [] (VStr w)) with [VStr w].
  apply gen_extend_strings_from.
Qed.

End ShortcutDataFacts.

(** ** _internal/_handlers.py: more on arguments and options *)

Module HandlersMoreFacts.
Import PyDict PyDictFacts Grammar Handlers.
Import HandlersFacts.

(** *** What a loop keeps *)

Section LoopInvariant.
Context {A : Type} (body : A → M (ctl A)) (I P : A → Prop).

Lemma while_loop_invariant fuel acc a r a' :
  (∀ acc a acc' a', I acc → body acc a = (Ok (Continue acc'), a') → I acc') →
  (∀ acc a acc' a', I acc → body acc a = (Ok (Break acc'), a') → P acc') →
  I acc → while_loop fuel body acc a = Some (Ok r, a') → P r.
Proof.
  intros Hcont Hbreak. revert acc a.
  induction fuel as [| fuel IH]; intros acc a Hacc Hloop; [done |].
  simpl in Hloop. destruct (body acc a) as [[[acc1 | acc1] | e] a1] eqn:Hbody.
  - eapply IH; [| exact Hloop]. by eapply Hcont.
  - simplify_eq. by eapply Hbreak.
  - done.
Qed.

Lemma run_loop_invariant acc a r a' :
  (∀ acc a acc' a', I acc → body acc a = (Ok (Continue acc'), a') → I acc') →
  (∀ acc a acc' a', I acc → body acc a = (Ok (Break acc'), a') → P acc') →
  I acc → run_loop body acc a = (Ok r, a') → P r.
Proof.
  intros Hcont Hbreak Hacc. unfold run_loop.
  destruct (while_loop (rounds a) body acc a) as [r' |] eqn:Hloop; [| done].
  intros ->. by eapply while_loop_invariant.
Qed.

End LoopInvariant.

Lemma rollback_keep data a : ∃ a', Argv.rollback data false a = (Ok tt, a').
Proof. unfold Argv.rollback. destruct data as [| | | [|] | | | |]; by eexists. Qed.

(** *** [step_varpos] and the length of a [MultiVar] *)

Section Bound.
Variable ext : Ext.

Lemma varpos_round_bound args value arg kwonly_seps _result count a st' a' :
  (count = Z.of_nat (length _result) ∧ count < mv_length value)%Z →
  varpos_round ext args value arg kwonly_seps (_result, count) a = (Ok st', a') →
  match st' with
  | Continue (r, c) => (c = Z.of_nat (length r) ∧ c < mv_length value)%Z
  | Break (r, c) => (Z.of_nat (length r) ≤ mv_length value)%Z
  end.
Proof.
  intros [Hcount Hlt] Hround.
  unfold varpos_round, bind, get_argv, ret, raise in Hround.
  repeat (case_match; simplify_eq; try done); simplify_eq;
    rewrite ?length_app; cbn [length];
    repeat match goal with
      | H : _ && _ = true |- _ => apply andb_true_iff in H as [? ?]
      | H : _ && _ = false |- _ => apply andb_false_iff in H as [? | ?]
      | H : bool_decide _ = true |- _ => apply bool_decide_eq_true in H
      | H : bool_decide _ = false |- _ => apply bool_decide_eq_false in H
      end;
    lia.
Qed.

(** X17: a variadic argument made by [MultiVar(base, n)] with an integer
    [n] and without default is bound, when [step_varpos] returns, to a tuple
    of at least one and at most [max(n, 1)] values. *)
Theorem step_varpos_int_flag (args : Args) (base : BasePattern) (n : Z) (arg : Arg)
    (result result' : list (string * pyval)) (a a' : Argv.t) :
  field_default arg = None →
  step_varpos ext args (Typing.MultiVar_init base (inl n), arg) result a = (Ok result', a') →
  ∃ l, od_get (name arg) result' = Some (VTuple l) ∧
       1 ≤ length l ∧ (Z.of_nat (length l) ≤ Z.max 1 n)%Z.
Proof.
  intros Hdefault Hstep.
  set (value := Typing.MultiVar_init base (inl n)) in *.
  assert (mv_flag value = "+"%string ∧ mv_length value = Z.max 1 n) as [Hflag Hlength].
  { unfold value, Typing.MultiVar_init. destruct (Z.ltb_spec 1 n); simpl; split; try done; lia. }
  unfold step_varpos, bind, set_context in Hstep.
  destruct (run_loop _ _ _) as [[[_result count] | e] a1] eqn:Hloop; [| done].
  eapply (run_loop_invariant _
            (λ st, st.2 = Z.of_nat (length st.1) ∧ st.2 < mv_length value)%Z
            (λ st, Z.of_nat (length st.1) ≤ mv_length value)%Z) in Hloop.
  - cbn [fst] in Hloop. unfold varpos_finish in Hstep.
    rewrite Hdefault, Hflag in Hstep.
    destruct _result as [| v _result]; [done |].
    unfold ret in Hstep. injection Hstep as <- <-.
    exists (v :: _result). rewrite od_get_set, decide_True by done.
    split_and!; [done | simpl; lia | lia].
  - intros [r c] a2 [r' c'] a3 Hinv Hround.
    by apply (varpos_round_bound _ _ _ _ _ _ _ _ _ Hinv Hround).
  - intros [r c] a2 [r' c'] a3 Hinv Hround.
    by apply (varpos_round_bound _ _ _ _ _ _ _ _ _ Hinv Hround).
  - cbn [fst snd length]. lia.
Qed.

(** X18: with no token left, [step_varkey] collects nothing: a default that
    is a dictionary is bound as it is, any other default gives the empty
    dictionary; without a default the flag ["*"] binds the empty dictionary
    and any other flag raises [ArgumentMissing]. No token is consumed. *)
Theorem step_varkey_no_token (value : MultiKeyWordVar) (arg : Arg)
    (result : list (string * pyval)) (a : Argv.t) :
  Argv.current_index a = Argv.ndata a →
  step_varkey ext (value, arg) result a =
    let a' := Argv.set_context (Argv.CtxArg (name arg)) a in
    match field_default arg with
    | Some (VDict d) => (Ok (od_set (name arg) (VDict d) result), a')
    | Some _ => (Ok (od_set (name arg) (VDict []) result), a')
    | None =>
        if String.eqb (mkw_flag value) "*"
        then (Ok (od_set (name arg) (VDict []) result), a')
        else (Raise ArgumentMissing, a')
    end.
Proof.
  intros Hend. unfold step_varkey, bind, set_context, run_loop, rounds.
  cbn [while_loop]. unfold varkey_round at 1, bind, get_argv.
  cbn [Argv.set_context Argv.current_index Argv.ndata].
  rewrite Hend, Nat.eqb_refl. unfold ret. unfold varkey_finish.
  destruct (field_default arg) as [[| | | | | | d |] |]; try done.
  by destruct (String.eqb (mkw_flag value) "*").
Qed.

End Bound.

(** *** The names that [analyse_args] binds *)

Lemma od_keys_set {V : Type} (d : list (string * V)) (key : string) (v : V) (k : string) :
  k ∈ od_keys (od_set key v d) ↔ k = key ∨ k ∈ od_keys d.
Proof.
  induction d as [| [k0 v0] d IH]; simpl.
  - rewrite elem_of_cons, elem_of_nil. tauto.
  - destruct (decide (k0 = key)) as [-> | Hne]; simpl; rewrite !elem_of_cons; [tauto |].
    unfold od_keys in IH. rewrite IH. tauto.
Qed.

Section Required.
Variable ext : Ext.
Implicit Types (result : list (string * pyval)) (a : Argv.t).

(** [grows result result']: no name is lost from [result] to [result']. *)
#[local] Abbreviation grows result result' :=
  (∀ k, k ∈ od_keys result → k ∈ od_keys result').

Lemma validate_keys target value result arg _str a result' a' :
  _validate ext target value result arg _str a = (Ok result', a') →
  grows result result' ∧ (optional target = false → name target ∈ od_keys result').
Proof.
  unfold _validate, bind, ret, raise. intros Hv.
  repeat (case_match; simplify_eq; try done);
    (split; [intros k Hk | intros Hopt]; rewrite ?od_keys_set; auto; congruence).
Qed.

Lemma normal_loop_binds slots result a exit a' :
  Forall (λ arg, alias (arg_value arg) ≠ "*"%string) slots →
  normal_loop ext slots result a = (Ok exit, a') →
  ∃ result', exit = Exhausted result' ∧ grows result result' ∧
    ∀ arg, arg ∈ slots → optional arg = false → name arg ∈ od_keys result'.
Proof.
  intros Hslots. revert result a.
  induction Hslots as [| arg slots Hstar Hslots IH]; intros result a Hloop.
  - injection Hloop as <- <-. exists result. split_and!; [done | done |].
    by intros arg ?%elem_of_nil.
  - assert (∀ result1 a1,
              grows result result1 →
              (optional arg = false → name arg ∈ od_keys result1) →
              normal_loop ext slots result1 a1 = (Ok exit, a') →
              ∃ result', exit = Exhausted result' ∧ grows result result' ∧
                ∀ arg', arg' ∈ arg :: slots → optional arg' = false →
                  name arg' ∈ od_keys result') as Hrest.
    { intros result1 a1 Hgrow Harg Hloop1.
      destruct (IH _ _ Hloop1) as (result' & -> & Hgrow' & Hbound).
      exists result'. split_and!; [done | by auto |].
      intros arg' [-> | Hin]%elem_of_cons Hopt; [by auto | by apply Hbound]. }
    cbn [normal_loop] in Hloop. unfold bind at 1, set_context in Hloop.
    unfold bind at 1 in Hloop.
    destruct (Argv.next true _) as [[[may_arg _str] | e] a1]; [| done].
    unfold bind at 1 in Hloop.
    destruct (raise_if_special may_arg _str a1) as [[[] | e] a2]; [| done].
    unfold bind at 1, get_argv in Hloop.
    destruct (is_param_id a2 may_arg _str && optional arg) eqn:Hid.
    { apply andb_true_iff in Hid as [_ Hopt].
      unfold bind at 1 in Hloop.
      destruct (rollback_keep may_arg a2) as [a3 Hroll]. rewrite Hroll in Hloop.
      eapply Hrest; [| congruence | exact Hloop].
      destruct (field_default arg); [| done]. intros k Hk. rewrite od_keys_set. by right. }
    destruct (negb (truthy may_arg)).
    { unfold bind at 1 in Hloop.
      destruct (rollback_keep may_arg a2) as [a3 Hroll]. rewrite Hroll in Hloop.
      destruct (field_default arg) as [de |].
      - eapply Hrest; [| | exact Hloop].
        + intros k Hk. rewrite od_keys_set. by right.
        + intros _. rewrite od_keys_set. by left.
      - destruct (optional arg) eqn:Hopt; [| done].
        eapply Hrest; [done | done | exact Hloop]. }
    destruct (String.eqb_spec (alias (arg_value arg)) "*") as [Heq | _]; [done |].
    unfold bind at 1 in Hloop.
    destruct (_validate ext arg (arg_value arg) result may_arg _str a2)
      as [[result1 | e] a3] eqn:Hv; [| done].
    apply validate_keys in Hv as [Hgrow Harg].
    by eapply Hrest.
Qed.

Lemma for_each_binds {A : Type}
    (step : A → list (string * pyval) → M (list (string * pyval))) (slot_name : A → string)
    (slots : list A) result a result' a' :
  (∀ slot result a result' a', step slot result a = (Ok result', a') →
     grows result result' ∧ slot_name slot ∈ od_keys result') →
  for_each step slots result a = (Ok result', a') →
  grows result result' ∧ ∀ slot, slot ∈ slots → slot_name slot ∈ od_keys result'.
Proof.
  intros Hstep. revert result a.
  induction slots as [| slot slots IH]; intros result a Heach.
  - injection Heach as <- <-. split; [done |]. by intros slot ?%elem_of_nil.
  - cbn [for_each] in Heach. unfold bind at 1 in Heach.
    destruct (step slot result a) as [[result1 | e] a1] eqn:Hs; [| done].
    apply Hstep in Hs as [Hgrow Hslot].
    apply IH in Heach as [Hgrow' Hslots].
    split; [by auto |].
    intros slot' [-> | Hin]%elem_of_cons; [by auto | by apply Hslots].
Qed.

Lemma step_varpos_binds args slot result a result' a' :
  step_varpos ext args slot result a = (Ok result', a') →
  grows result result' ∧ name slot.2 ∈ od_keys result'.
Proof.
  destruct slot as [value arg]. unfold step_varpos, bind, set_context, ret, raise.
  intros Hstep.
  repeat (case_match; simplify_eq; try done).
  split; [intros k Hk |]; rewrite od_keys_set; auto.
Qed.

Lemma step_varkey_binds slot result a result' a' :
  step_varkey ext slot result a = (Ok result', a') →
  grows result result' ∧ name slot.2 ∈ od_keys result'.
Proof.
  destruct slot as [value arg]. unfold step_varkey, bind, set_context, ret, raise.
  intros Hstep.
  repeat (case_match; simplify_eq; try done).
  split; [intros k Hk |]; rewrite od_keys_set; auto.
Qed.

Lemma keyword_loop_keys args kwonly_seps1 todo result count a r a' :
  keyword_loop ext args kwonly_seps1 todo result count a = (Ok r, a') →
  grows result r.1.
Proof.
  revert result count a.
  induction todo as [| todo IH]; intros result count a Hloop.
  - by injection Hloop as <- <-.
  - cbn [keyword_loop] in Hloop. unfold bind, get_argv, ret, raise in Hloop.
    repeat (case_match; simplify_eq; try done);
      try match goal with
        | Hv : _validate _ _ _ _ _ _ _ = (Ok _, _) |- _ =>
            apply validate_keys in Hv as [Hgrow _]
        end;
      try match goal with
        | Hl : keyword_loop _ _ _ _ _ _ _ = (Ok _, _) |- _ =>
            pose proof (IH _ _ _ Hl) as Hgrow'
        end;
      auto.
Qed.

Lemma keyword_defaults_keys kwonly result result' :
  keyword_defaults kwonly result = Ok result' → grows result result'.
Proof.
  revert result. induction kwonly as [| [key [kw arg]] kwonly IH]; intros result Hd.
  - by injection Hd as <-.
  - cbn [keyword_defaults] in Hd.
    repeat (case_match; simplify_eq; try done); try (by apply IH).
    intros k Hk. apply (IH _ Hd). rewrite od_keys_set. by right.
Qed.

Lemma step_keyword_keys args result a result' a' :
  step_keyword ext args result a = (Ok result', a') → grows result result'.
Proof.
  unfold step_keyword, bind, ret, raise. intros Hstep.
  destruct (keyword_loop _ _ _ _ _ _ _) as [[[result1 count] | e] a1] eqn:Hloop; [| done].
  pose proof (keyword_loop_keys _ _ _ _ _ _ _ _ Hloop) as Hgrow. cbn [fst] in Hgrow.
  repeat (case_match; simplify_eq; try done).
  match goal with
  | Hd : keyword_defaults _ _ = Ok _ |- _ => pose proof (keyword_defaults_keys _ _ _ Hd)
  end.
  auto.
Qed.

(** X19: when [analyse_args] returns and no normal argument is the
    wildcard, the result has a value for every normal argument that is not
    optional, for every variadic positional slot and for every variadic
    keyword slot. *)
Theorem analyse_args_binds_required (args : Args) (a a' : Argv.t)
    (result : list (string * pyval)) :
  Forall (λ arg, alias (arg_value arg) ≠ "*"%string) (normal args) →
  analyse_args ext args a = (Ok result, a') →
  (∀ arg, arg ∈ normal args → optional arg = false → name arg ∈ od_keys result) ∧
  (∀ slot, slot ∈ vars_positional args → name slot.2 ∈ od_keys result) ∧
  (∀ slot, slot ∈ vars_keyword args → name slot.2 ∈ od_keys result).
Proof.
  destruct args as [slots kwonly varpos varkey unpack_slot].
  cbn [normal vars_positional vars_keyword analyse_args]. intros Hstar Hargs.
  unfold bind at 1 in Hargs.
  destruct (normal_loop ext slots [] a) as [[exit | e] a1] eqn:Hnormal; [| done].
  apply normal_loop_binds in Hnormal as (r0 & -> & _ & Hbound); [| done].
  unfold bind at 1 in Hargs.
  match type of Hargs with
  | match ?m a1 with _ => _ end = _ => destruct (m a1) as [[r1 | e] a2] eqn:Hunpack; [| done]
  end.
  assert (grows r0 r1) as Hgrow1.
  { destruct unpack_slot as [[[arg origin] nested] |]; [| by injection Hunpack as <- _].
    repeat (case_match; simplify_eq; try done); try done;
      intros k Hk; rewrite od_keys_set; by right. }
  unfold bind at 1 in Hargs.
  destruct (for_each (step_varpos ext _) varpos r1 a2) as [[r2 | e] a3] eqn:Hvarpos; [| done].
  apply (for_each_binds _ (λ slot, name slot.2)) in Hvarpos as [Hgrow2 Hpos];
    [| intros *; apply step_varpos_binds].
  unfold bind at 1 in Hargs.
  match type of Hargs with
  | match ?m a3 with _ => _ end = _ => destruct (m a3) as [[r3 | e] a4] eqn:Hkw; [| done]
  end.
  assert (grows r2 r3) as Hgrow3.
  { destruct kwonly; [by injection Hkw as <- _ |].
    exact (step_keyword_keys _ _ _ _ _ Hkw). }
  unfold bind at 1 in Hargs.
  destruct (for_each (step_varkey ext) varkey r3 a4) as [[r4 | e] a5] eqn:Hvarkey; [| done].
  apply (for_each_binds _ (λ slot, name slot.2)) in Hvarkey as [Hgrow4 Hkey];
    [| intros *; apply step_varkey_binds].
  unfold bind, set_context, ret in Hargs. injection Hargs as <- _.
  split_and!; [| | done].
  - intros arg Hin Hopt. apply Hgrow4, Hgrow3, Hgrow2, Hgrow1. by apply Hbound.
  - intros slot Hin. apply Hgrow4, Hgrow3. by apply Hpos.
Qed.

End Required.

Lemma analyse_args_binds_required_witness :
  let args := mkArgs [Samples.x_arg] [] [(Samples.pkg_value "*", Samples.pkg_arg None)] [] None in
  let result := [("x"%string, VStr "a"); ("pkg"%string, VTuple [VStr "b"])] in
  (∀ arg, arg ∈ normal args → optional arg = false → name arg ∈ od_keys result) ∧
  (∀ slot, slot ∈ vars_positional args → name slot.2 ∈ od_keys result) ∧
  (∀ slot, slot ∈ vars_keyword args → name slot.2 ∈ od_keys result).
Proof.
  apply (analyse_args_binds_required Samples.sample_ext
           (mkArgs [Samples.x_arg] [] [(Samples.pkg_value "*", Samples.pkg_arg None)] [] None)
           (Samples.sample_argv [VStr "a"; VStr "b"])
           (analyse_args Samples.sample_ext
              (mkArgs [Samples.x_arg] [] [(Samples.pkg_value "*", Samples.pkg_arg None)] [] None)
              (Samples.sample_argv [VStr "a"; VStr "b"])).2).
  - repeat constructor. discriminate.
  - reflexivity.
Defined.

(** *** The occurrences of an option that is not counted *)

Section Store.
Variables (opt : Option) (opt_n : string).

Lemma store_option_replaces opt_v an :
  act_type (action opt) = 0 ∨ (act_type (action opt) = 2 ∧ nargs opt ≠ 0) →
  ∃ an', store_option opt opt_n opt_v an = (Ok tt, an') ∧
         od_get opt_n (options_result an') = Some opt_v.
Proof.
  intros Hkind. unfold store_option, handle_action.
  destruct (od_get opt_n (options_result an)) as [source |].
  - destruct Hkind as [-> | [-> Hnargs]]; cbn [Nat.eqb].
    + eexists. split; [reflexivity |]. cbn. by rewrite od_get_set, decide_True.
    + destruct (Nat.eqb_spec (nargs opt) 0) as [? | _]; [done |].
      eexists. split; [reflexivity |]. cbn. by rewrite od_get_set, decide_True.
  - replace (Nat.eqb (act_type (action opt)) 1) with false
      by (by destruct Hkind as [-> | [-> _]]).
    eexists. split; [reflexivity |]. cbn. by rewrite od_get_set, decide_True.
Qed.

(** X20: for an option whose action stores (type 0), and for one whose
    action counts (type 2) but that takes arguments, the result that is
    recorded after several occurrences is that of the last occurrence: the
    earlier ones are replaced, and nothing is counted. *)
Theorem store_all_keeps_last (occurrences : list OptionResult) (last : OptionResult)
    (an : Analyser) :
  act_type (action opt) = 0 ∨ (act_type (action opt) = 2 ∧ nargs opt ≠ 0) →
  ∃ an', store_all opt opt_n (occurrences ++ [last]) an = (Ok tt, an') ∧
         od_get opt_n (options_result an') = Some last.
Proof.
  intros Hkind. revert an.
  induction occurrences as [| opt_v occurrences IH]; intros an.
  - destruct (store_option_replaces last an Hkind) as (an' & Hstore & Hget).
    exists an'. cbn [app store_all]. by rewrite Hstore.
  - destruct (store_option_replaces opt_v an Hkind) as (an1 & Hstore & _).
    destruct (IH an1) as (an' & Hall & Hget).
    exists an'. cbn [app store_all]. by rewrite Hstore.
Qed.

Lemma store_all_extends occurrences values an source l0 :
  act_type (action opt) = 1 → nargs opt = 0 →
  od_get opt_n (options_result an) = Some source → value_ source = VList l0 →
  Forall2 (λ opt_v l, value_ opt_v = VList l) occurrences values →
  ∃ an' merged,
    store_all opt opt_n occurrences an = (Ok tt, an') ∧
    od_get opt_n (options_result an') = Some merged ∧
    value_ merged = VList (l0 ++ concat values).
Proof.
  intros Happend Hnargs Hsource Hl0 Hvalues. revert an source l0 Hsource Hl0.
  induction Hvalues as [| opt_v l occurrences values Hv Hvalues IH];
    intros an source l0 Hsource Hl0.
  - exists an, source. by rewrite app_nil_r.
  - cbn [store_all]. unfold store_option, handle_action.
    rewrite Hsource, Happend, Hnargs, Hl0, Hv. cbn [Nat.eqb iter_elements].
    edestruct (IH (set_options_result
                     (od_set opt_n {| value_ := VList (l0 ++ l); args := args source |}
                        (options_result an)) an)) as (an' & merged & Hall & Hget & Hvalue).
    { cbn. by rewrite od_get_set, decide_True. }
    { done. }
    exists an', merged. split_and!; [done | done |].
    rewrite Hvalue. cbn [concat]. by rewrite app_assoc.
Qed.

(** X21: for an option whose action appends (type 1) and that takes no
    arguments, the value that is recorded after the occurrences is the list
    of their values, one after the other in the order of arrival. *)
Theorem store_all_appends_values (occurrences : list OptionResult)
    (values : list (list pyval)) (an : Analyser) :
  act_type (action opt) = 1 → nargs opt = 0 →
  od_get opt_n (options_result an) = None →
  occurrences ≠ [] →
  Forall2 (λ opt_v l, value_ opt_v = VList l ∧ args opt_v = []) occurrences values →
  ∃ an' merged,
    store_all opt opt_n occurrences an = (Ok tt, an') ∧
    od_get opt_n (options_result an') = Some merged ∧
    value_ merged = VList (concat values).
Proof.
  intros Happend Hnargs Hnone Hne Hvalues.
  destruct Hvalues as [| opt_v l occurrences values [Hv Hargs] Hvalues]; [done |].
  cbn [store_all]. unfold store_option at 1. rewrite Hnone, Hargs.
  rewrite bool_decide_eq_true_2 by done. rewrite andb_false_r.
  eapply (store_all_extends occurrences values) in Hv as (an' & merged & Hall & Hget & Hvalue);
    [| done | done | | ].
  - exists an', merged. split_and!; [exact Hall | exact Hget | exact Hvalue].
  - cbn. by rewrite od_get_set, decide_True.
  - eapply Forall2_impl; [exact Hvalues |]. by intros ? ? [? _].
Qed.

End Store.

Lemma store_all_keeps_last_witness :
  ∃ an',
    store_all Samples.verbose_int "v"
      ([ {| value_ := VNone; args := [("x"%string, VInt 1)] |} ] ++
       [ {| value_ := VNone; args := [("x"%string, VInt 2)] |} ])
      (Samples.analyser ∅ []) = (Ok tt, an') ∧
    od_get "v"%string (options_result an') =
      Some {| value_ := VNone; args := [("x"%string, VInt 2)] |}.
Proof.
  apply (store_all_keeps_last Samples.verbose_int "v"
           [ {| value_ := VNone; args := [("x"%string, VInt 1)] |} ]
           {| value_ := VNone; args := [("x"%string, VInt 2)] |}
           (Samples.analyser ∅ [])).
  right. split; [reflexivity | discriminate].
Defined.

Lemma store_all_appends_values_witness :
  let opt := Samples.option "-I" Samples.no_args 0 1 (VList [VStr "inc"]) false in
  let occurrence := {| value_ := VList [VStr "inc"]; args := [] |} in
  ∃ an' merged,
    store_all opt "I" [occurrence; occurrence] (Samples.analyser ∅ []) = (Ok tt, an') ∧
    od_get "I"%string (options_result an') = Some merged ∧
    value_ merged = VList (concat [[VStr "inc"]; [VStr "inc"]]).
Proof.
  apply (store_all_appends_values
           (Samples.option "-I" Samples.no_args 0 1 (VList [VStr "inc"]) false) "I"
           [ {| value_ := VList [VStr "inc"]; args := [] |};
             {| value_ := VList [VStr "inc"]; args := [] |} ]
           [[VStr "inc"]; [VStr "inc"]] (Samples.analyser ∅ [])).
  - reflexivity.
  - reflexivity.
  - reflexivity.
  - discriminate.
  - repeat constructor.
Defined.

(** *** Regex shortcuts: text without a slot *)

Section PlainText.
Variable ext : Ext.

Lemma slot_fullmatch_no_brace p unit :
  Forall (λ c, c ≠ "{"%char) (String.list_ascii_of_string unit) →
  slot_fullmatch p unit = None.
Proof.
  destruct unit as [| c unit]; [done |]. intros [Hc _]%Forall_cons.
  unfold slot_fullmatch.
  destruct c as [[] [] [] [] [] [] [] []]; try done.
Qed.

Lemma slot_findall_no_brace p unit :
  Forall (λ c, c ≠ "{"%char) (String.list_ascii_of_string unit) →
  slot_findall p unit = [].
Proof.
  unfold slot_findall.
  induction unit as [| c unit IH]; [done |]. intros [Hc Hunit]%Forall_cons.
  cbn [slot_findall_from].
  replace (Ascii.eqb c "{") with false by (symmetry; by apply Ascii.eqb_neq).
  by apply IH.
Qed.

(** X22: when no string of [argv.raw_data] has an opening brace once
    escaped, [_handle_shortcut_reg] takes nothing from the groups and never
    calls the wrapper: a unit that is no string is kept, a string [unit] is
    replaced by [unescape(escape(unit))], and is dropped when it is
    empty. *)
Theorem shortcut_reg_plain_text (argv : Argv.t) (groups : list (option string))
    (gdict : list (string * option string)) (wrapper : ShortcutRegWrapper) :
  Forall (λ unit, ∀ text, unit = VStr text →
            Forall (λ c, c ≠ "{"%char) (String.list_ascii_of_string (escape ext text)))
    (Argv.raw_data argv) →
  _handle_shortcut_reg ext argv groups gdict wrapper =
  Argv.raw_data argv ≫= ShortcutText.plain_unit ext.
Proof.
  unfold _handle_shortcut_reg. intros Hplain.
  induction Hplain as [| unit units Hunit Hunits IH]; [done |].
  rewrite !bind_cons, IH. f_equal.
  destruct unit as [| | | text | | | |]; try done.
  specialize (Hunit text eq_refl). unfold shortcut_reg_unit, ShortcutText.plain_unit.
  rewrite !slot_fullmatch_no_brace by done.
  rewrite (slot_findall_no_brace is_digit (escape ext text)) by done.
  unfold substitute_indexes. cbn [foldl].
  rewrite (slot_findall_no_brace is_word (escape ext text)) by done.
  unfold substitute_keys. by cbn [foldl].
Qed.

End PlainText.

Lemma shortcut_reg_plain_text_witness :
  _handle_shortcut_reg Samples.sample_ext (Samples.sample_argv [VStr "say"; VObj 1; VStr ""])
    [Some "x"%string] [] (λ _ _, VStr "wrapped") =
  Argv.raw_data (Samples.sample_argv [VStr "say"; VObj 1; VStr ""])
    ≫= ShortcutText.plain_unit Samples.sample_ext.
Proof.
  apply (shortcut_reg_plain_text Samples.sample_ext
           (Samples.sample_argv [VStr "say"; VObj 1; VStr ""])
           [Some "x"%string] [] (λ _ _, VStr "wrapped")).
  repeat constructor; intros text [= <-]; repeat constructor; discriminate.
Defined.

(** *** An option that is neither compact nor counted *)

Section ExactAlias.
Variable ext : Ext.

(** X23: an option that is not compact, does not count and takes no
    arguments, handled without a trigger, matches only a token that is one
    of its aliases, and the result then carries the value of its action; any
    other string raises [FuzzyMatchSuccess] when fuzzy matching is on and
    the token is similar enough to the name of the option, and
    [InvalidParam] otherwise. Either way the token stays consumed. *)
Theorem handle_option_exact_alias (opt : Option) (a : Argv.t) (text : string) :
  compact opt = false → act_type (action opt) ≠ 2 → nargs opt = 0 →
  Argv.current_index a ≠ Argv.ndata a →
  Argv.raw_data a !! Argv.current_index a = Some (VStr text) →
  handle_option ext opt None a =
    let a' := Argv.set_current_index (S (Argv.current_index a))
                (Argv.set_context (Argv.CtxOption (opt_name opt)) a) in
    if bool_decide (text ∈ aliases opt)
    then (Ok (dest opt, {| value_ := act_value (action opt); args := [] |}), a')
    else (Raise (if Argv.fuzzy_match a &&
                    Qle_bool (Argv.fuzzy_threshold a) (levenshtein ext text (opt_name opt))
                 then FuzzyMatchSuccess (opt_name opt) text else InvalidParam), a').
Proof.
  intros Hcompact Hkind Hnargs Hne Htok.
  unfold handle_option. unfold bind at 1. unfold set_context at 1.
  set (a2 := Argv.set_context (Argv.CtxOption (opt_name opt)) a).
  unfold bind at 1. unfold match_option. unfold bind at 1.
  rewrite (next_at a2 (VStr text)) by done.
  unfold bind at 1. unfold get_argv at 1.
  rewrite Hcompact, Hnargs.
  destruct (Nat.eqb_spec (act_type (action opt)) 2) as [? | _]; [done |].
  cbn [Nat.eqb negb str_in andb]. cbv zeta.
  destruct (bool_decide (text ∈ aliases opt)); [done |].
  cbn [Argv.fuzzy_match Argv.set_current_index Argv.fuzzy_threshold].
  change (Argv.fuzzy_match a2) with (Argv.fuzzy_match a).
  change (Argv.fuzzy_threshold a2) with (Argv.fuzzy_threshold a).
  by destruct (Argv.fuzzy_match a && _).
Qed.

End ExactAlias.

Lemma handle_option_exact_alias_witness :
  handle_option Samples.sample_ext
    (Samples.option "-x" Samples.no_args 0 0 (VBool true) false) None
    (Samples.sample_argv [VStr "-xy"]) =
  (Raise InvalidParam,
   Argv.set_current_index 1
     (Argv.set_context (Argv.CtxOption "-x") (Samples.sample_argv [VStr "-xy"]))).
Proof.
  apply (handle_option_exact_alias Samples.sample_ext
           (Samples.option "-x" Samples.no_args 0 0 (VBool true) false)
           (Samples.sample_argv [VStr "-xy"]) "-xy").
  - reflexivity.
  - discriminate.
  - reflexivity.
  - discriminate.
  - reflexivity.
Defined.

Lemma step_varpos_int_flag_witness :
  ∃ l, od_get "pkg"%string [("pkg"%string, VTuple [VStr "a"; VStr "b"])] = Some (VTuple l) ∧
       1 ≤ length l ∧ (Z.of_nat (length l) ≤ Z.max 1 2)%Z.
Proof.
  apply (step_varpos_int_flag Samples.sample_ext (Samples.pkg_args "+" None)
           Samples.str_pattern 2 (Samples.pkg_arg None) []
           [("pkg"%string, VTuple [VStr "a"; VStr "b"])]
           (Samples.sample_argv [VStr "a"; VStr "b"; VStr "c"])
           (Argv.set_current_index 2
              (Argv.set_context (Argv.CtxArg "pkg")
                 (Samples.sample_argv [VStr "a"; VStr "b"; VStr "c"])))).
  - reflexivity.
  - reflexivity.
Defined.

Lemma step_varkey_no_token_witness :
  let value := {| mkw_base := {| kw_base := Samples.str_pattern; kw_sep := "=";
                                 kw_is_bool := false |};
                  mkw_flag := "+"; mkw_length := (-1)%Z |} in
  let arg := Samples.arg "opts" Samples.str_pattern (Some (VStr "x")) false in
  step_varkey Samples.sample_ext (value, arg) [] (Samples.sample_argv []) =
  (Ok [("opts"%string, VDict [])],
   Argv.set_context (Argv.CtxArg "opts") (Samples.sample_argv [])).
Proof.
  apply (step_varkey_no_token Samples.sample_ext
           {| mkw_base := {| kw_base := Samples.str_pattern; kw_sep := "=";
                             kw_is_bool := false |};
              mkw_flag := "+"; mkw_length := (-1)%Z |}
           (Samples.arg "opts" Samples.str_pattern (Some (VStr "x")) false) []
           (Samples.sample_argv [])).
  reflexivity.
Defined.

End HandlersMoreFacts.

Module LevenshteinMoreFacts.
Import Levenshtein LevenshteinFacts.

Lemma cost_sym (source target : string) (i j : nat) :
  cost source target i j = cost target source j i.
Proof. unfold cost. repeat case_decide; congruence. Qed.

Lemma dist_sym (source target : string) (i j : nat) :
  dist source target i j = dist target source j i.
Proof.
  revert j. induction i as [| i IHi]; intros j.
  - by rewrite dist_0_l, dist_0_r.
  - induction j as [| j IHj].
    + by rewrite dist_S_0, dist_0_l.
    + rewrite !dist_S_S, IHj, (IHi (S j)), (IHi j), cost_sym. lia.
Qed.

(** X24: [levenshtein_norm] does not depend on the order of its two
    arguments, neither for the similarity it returns nor for its failure; it
    raises [ZeroDivisionError] exactly when both strings are empty. *)
Theorem levenshtein_norm_symmetric (source target : string) :
  levenshtein_norm source target = levenshtein_norm target source ∧
  (levenshtein_norm source target = Raise ZeroDivisionError ↔
   source = EmptyString ∧ target = EmptyString).
Proof.
  unfold levenshtein_norm. rewrite !fill_matrix_dist. split.
  - by rewrite dist_sym, Nat.max_comm.
  - destruct (Nat.eqb_spec (Nat.max (String.length source) (String.length target)) 0)
      as [Hzero | Hpos].
    + split; [intros _ | done]. destruct source, target; simpl in Hzero; done.
    + split; [done |]. intros [-> ->]. done.
Qed.

End LevenshteinMoreFacts.

Module ShortcutSlotsFacts.
Import PyDict Grammar Handlers ShortcutData ShortcutSlots.
Import TextFacts.

(** *** Texts without an opening brace have no slot *)

Lemma index_fullmatch_no_brace unit :
  Forall (λ c, c ≠ "{"%char) (String.list_ascii_of_string unit) →
  index_fullmatch unit = None.
Proof.
  destruct unit as [| c unit]; [done |]. intros [Hc _]%Forall_cons.
  unfold index_fullmatch.
  destruct c as [[] [] [] [] [] [] [] []]; try done.
Qed.

Lemma index_findall_no_brace unit :
  Forall (λ c, c ≠ "{"%char) (String.list_ascii_of_string unit) →
  index_findall unit = [].
Proof.
  unfold index_findall.
  induction unit as [| c unit IH]; [done |]. intros [Hc Hunit]%Forall_cons.
  cbn [index_findall_from].
  replace (Ascii.eqb c "{") with false by (symmetry; by apply Ascii.eqb_neq).
  by apply IH.
Qed.

Lemma wildcard_search_no_brace unit :
  Forall (λ c, c ≠ "{"%char) (String.list_ascii_of_string unit) →
  wildcard_search unit = None.
Proof.
  unfold wildcard_search.
  induction unit as [| c unit IH]; [done |]. intros [Hc Hunit]%Forall_cons.
  cbn [wildcard_search_from andb].
  replace (Ascii.eqb c "{") with false by (symmetry; by apply Ascii.eqb_neq).
  by apply IH.
Qed.

Lemma up_to_last_brace_closed group :
  up_to_last_brace (group ++ "}") = Some group.
Proof.
  induction group as [| c group IH]; [done |].
  rewrite append_cons. cbn [up_to_last_brace]. by rewrite IH.
Qed.

Lemma wildcard_slot_cons group :
  wildcard_slot group = String "{" (String "*" (group ++ "}")).
Proof. reflexivity. Qed.

Lemma wildcard_search_slot group : wildcard_search (wildcard_slot group) = Some group.
Proof.
  rewrite wildcard_slot_cons. unfold wildcard_search.
  cbn [wildcard_search_from andb Ascii.eqb Bool.eqb]. by rewrite up_to_last_brace_closed.
Qed.

Section WholeSlots.
Variable ext : Ext.
Implicit Types (st : slots_state) (data units : list pyval).

Lemma bind_one {A B} (f : A → list B) (x : A) : [x] ≫= f = f x.
Proof. cbn. apply app_nil_r. Qed.

Lemma named_cons data unit units :
  named ext data (unit :: units) = named ext data [unit] ∪ named ext data units.
Proof.
  unfold named. rewrite bind_cons, bind_one. apply list_to_set_app_L.
Qed.

Lemma same_state st raw_data :
  st_raw st = raw_data → st_offset st = 0 →
  st = {| st_raw := raw_data; st_offset := 0; st_record := ∅ ∪ st_record st |}.
Proof. destruct st. cbn. intros -> ->. by rewrite (left_id_L ∅ (∪)). Qed.

Lemma shortcut_data_unit_whole data i unit st done rest :
  whole_slot ext unit →
  st_raw st = done ++ unit :: rest → length done = i → st_offset st = 0 →
  shortcut_data_unit ext data i unit st =
  GoOn {| st_raw := done ++ filled ext data unit :: rest; st_offset := 0;
          st_record := named ext data [unit] ∪ st_record st |}.
Proof.
  intros Hwhole Hraw Hdone Hoffset.
  unfold named. rewrite bind_one.
  destruct unit as [| | | text | | | |]; try (cbn; f_equal; by apply same_state).
  unfold shortcut_data_unit, filled.
  destruct (index_fullmatch (escape ext text)) as [digits |] eqn:Hmatch.
  - destruct (Nat.leb_spec (length data) (int_of_digits digits)) as [Hbig | Hsmall].
    + rewrite lookup_ge_None_2 by done.
      replace (Nat.ltb (int_of_digits digits) (length data)) with false
        by (symmetry; apply Nat.ltb_ge; lia).
      cbn [default]. f_equal. by apply same_state.
    + destruct (lookup_lt_is_Some_2 data (int_of_digits digits) Hsmall) as [slot Hslot].
      rewrite Hslot.
      replace (Nat.ltb (int_of_digits digits) (length data)) with true
        by (symmetry; apply Nat.ltb_lt; lia).
      unfold list_assign. rewrite Hraw, Hoffset, Nat.add_0_r.
      replace (Nat.ltb i (length (done ++ VStr text :: rest))) with true
        by (symmetry; apply Nat.ltb_lt; rewrite length_app; simpl; lia).
      rewrite insert_app_r_alt by lia. rewrite Hdone, Nat.sub_diag.
      cbn [default list_to_set]. f_equal. f_equal.
      by rewrite (right_id_L ∅ (∪)).
  - destruct (Hwhole text eq_refl) as [[? Hsome] | Hplain]; [congruence |].
    rewrite index_findall_no_brace, wildcard_search_no_brace by done.
    cbn [list_to_set]. f_equal. by apply same_state.
Qed.

Lemma shortcut_data_loop_whole data units units' i st done rest :
  Forall (whole_slot ext) units →
  st_raw st = done ++ units ++ rest → length done = i → st_offset st = 0 →
  shortcut_data_loop ext data i (units ++ units') st =
  shortcut_data_loop ext data (i + length units) units'
    {| st_raw := done ++ (filled ext data <$> units) ++ rest; st_offset := 0;
       st_record := named ext data units ∪ st_record st |}.
Proof.
  intros Hunits. revert i st done.
  induction Hunits as [| unit units Hunit Hunits IH]; intros i st done Hraw Hdone Hoffset.
  - cbn [app length fmap list_fmap]. rewrite Nat.add_0_r. f_equal.
    by apply same_state.
  - cbn [app shortcut_data_loop].
    rewrite (shortcut_data_unit_whole data i unit st done (units ++ rest)) by done.
    rewrite (IH (S i) _ (done ++ [filled ext data unit])).
    + cbn [length fmap list_fmap st_record]. rewrite Nat.add_succ_r. cbn [Nat.add].
      f_equal. f_equal; [by rewrite <- app_assoc |].
      rewrite (named_cons data unit units).
      apply set_eq. intros index. rewrite !elem_of_union. tauto.
    + cbn [st_raw]. by rewrite <- app_assoc.
    + rewrite length_app. simpl. lia.
    + done.
Qed.

(** X25: when every string of [argv.raw_data] is one index slot or holds no
    opening brace (once escaped), [_handle_shortcut_data] with data raises
    nothing: it puts the element of the data in the place of every slot
    that names one, leaves the other units as they are, and returns the
    data that no slot names, in their order; [data] itself is not
    changed. *)
Theorem shortcut_data_whole_slots (raw_data data : list pyval) :
  data ≠ [] →
  Forall (whole_slot ext) raw_data →
  _handle_shortcut_data ext raw_data data =
  (inl (unused data (named ext data raw_data)), filled ext data <$> raw_data, data).
Proof.
  intros Hdata Hwhole. unfold _handle_shortcut_data.
  destruct data as [| slot data]; [done |].
  pose proof (shortcut_data_loop_whole (slot :: data) raw_data [] 0
                {| st_raw := raw_data; st_offset := 0; st_record := ∅ |} [] []
                Hwhole) as Hloop.
  rewrite !app_nil_r in Hloop. rewrite Hloop by done.
  cbn [shortcut_data_loop st_record st_raw app].
  by rewrite (right_id_L ∅ (∪)).
Qed.

(** X26: a unit that is exactly one wildcard slot (an opening brace, a
    star, a separator and a closing brace), met after units that are index
    slots or hold no brace, ends the substitution: the data merged by
    [_gen_extend] (with the separator of the slot, or a space) are appended
    at the end of [argv.raw_data], the unit itself and the units after it
    stay as they are, [data] is emptied and nothing is returned as left
    over. *)
Theorem shortcut_data_wildcard (front back data : list pyval) (text group : string) :
  data ≠ [] →
  Forall (whole_slot ext) front →
  escape ext text = wildcard_slot group →
  index_findall (wildcard_slot group) = [] →
  _handle_shortcut_data ext (front ++ VStr text :: back) data =
  (inl [],
   (filled ext data <$> front) ++ VStr text :: back ++
     _gen_extend data (if String.eqb group "" then " " else group),
   []).
Proof.
  intros Hdata Hfront Hescape Hfind. unfold _handle_shortcut_data.
  destruct data as [| slot data]; [done |].
  rewrite (shortcut_data_loop_whole (slot :: data) front (VStr text :: back) 0
             {| st_raw := front ++ VStr text :: back; st_offset := 0; st_record := ∅ |}
             [] (VStr text :: back) Hfront) by done.
  cbn [shortcut_data_loop shortcut_data_unit]. rewrite Hescape, Hfind.
  rewrite wildcard_search_slot, String.eqb_refl.
  rewrite wildcard_slot_cons at 1. cbn [index_fullmatch].
  cbn [st_raw app]. by rewrite <- app_assoc.
Qed.

(** *** Units with several slots *)

Lemma shortcut_data_unit_slotless data i unit st :
  slotless ext unit → shortcut_data_unit ext data i unit st = GoOn st.
Proof.
  intros Hplain. destruct unit as [| | | text | | | |]; try done.
  specialize (Hplain text eq_refl). unfold shortcut_data_unit.
  by rewrite index_fullmatch_no_brace, index_findall_no_brace, wildcard_search_no_brace.
Qed.

Lemma shortcut_data_loop_slotless data i units st :
  Forall (slotless ext) units → shortcut_data_loop ext data i units st = GoOn st.
Proof.
  intros Hunits. revert i.
  induction Hunits as [| unit units Hunit Hunits IH]; intros i; [done |].
  cbn [shortcut_data_loop]. by rewrite shortcut_data_unit_slotless.
Qed.


Lemma multi_slots_strings data unit i found digits slot st :
  Forall (λ d, ∃ s, data !! int_of_digits d = Some (VStr s)) found →
  data !! int_of_digits digits = Some (VStr slot) →
  i + st_offset st < length (st_raw st) →
  multi_slots ext data unit i (found ++ [digits]) st =
  GoOn {| st_raw :=
            <[i + st_offset st :=
                VStr (unescape ext (replace (pct_slot (int_of_digits digits)) slot unit))]>
              (st_raw st);
          st_offset := st_offset st;
          st_record := list_to_set (int_of_digits <$> found ++ [digits]) ∪ st_record st |}.
Proof.
  intros Hfound Hslot. revert st.
  induction Hfound as [| d found [s Hs] Hfound IH]; intros st Hlen.
  - cbn [app multi_slots].
    replace (Nat.leb (length data) (int_of_digits digits)) with false
      by (symmetry; apply Nat.leb_gt; by eapply lookup_lt_Some).
    unfold _handle_multi_slot, list_assign. rewrite Hslot.
    replace (Nat.ltb (i + st_offset st) (length (st_raw st))) with true
      by (symmetry; by apply Nat.ltb_lt).
    f_equal. f_equal. cbn [fmap list_fmap list_to_set].
    apply set_eq. intros index. rewrite !elem_of_union, elem_of_empty. tauto.
  - cbn [app multi_slots].
    replace (Nat.leb (length data) (int_of_digits d)) with false
      by (symmetry; apply Nat.leb_gt; by eapply lookup_lt_Some).
    unfold _handle_multi_slot at 1. rewrite Hs. unfold list_assign at 1.
    replace (Nat.ltb (i + st_offset st) (length (st_raw st))) with true
      by (symmetry; by apply Nat.ltb_lt).
    rewrite IH by (cbn [st_raw st_offset]; by rewrite length_insert).
    cbn [st_raw st_offset st_record]. f_equal. f_equal.
    + apply list_insert_insert_eq.
    + cbn [fmap list_fmap list_to_set].
      apply set_eq. intros index. rewrite !elem_of_union. tauto.
Qed.



(** X29: in a unit that holds several index slots, all of them naming
    strings of the data, only the slot found last is replaced: each slot
    is substituted in the unit as it was, and assigned to the same place of
    [argv.raw_data]. The data that the other slots name are counted as used
    all the same, so they are not returned. *)
Theorem shortcut_data_last_slot_wins (front back data : list pyval)
    (text digits slot : string) (found : list string) :
  Forall (whole_slot ext) front →
  Forall (slotless ext) back →
  index_fullmatch (escape ext text) = None →
  index_findall (escape ext text) = found ++ [digits] →
  Forall (λ d, ∃ s, data !! int_of_digits d = Some (VStr s)) found →
  data !! int_of_digits digits = Some (VStr slot) →
  _handle_shortcut_data ext (front ++ VStr text :: back) data =
  (inl (unused data
          (list_to_set (int_of_digits <$> found ++ [digits]) ∪ named ext data front)),
   (filled ext data <$> front) ++
     VStr (unescape ext (replace (pct_slot (int_of_digits digits)) slot (escape ext text)))
     :: back,
   data).
Proof.
  intros Hfront Hback Hfull Hfind Hfound Hslot. unfold _handle_shortcut_data.
  destruct data as [| slot0 data]; [done |].
  rewrite (shortcut_data_loop_whole (slot0 :: data) front (VStr text :: back) 0
             {| st_raw := front ++ VStr text :: back; st_offset := 0; st_record := ∅ |}
             [] (VStr text :: back) Hfront) by done.
  cbn [shortcut_data_loop shortcut_data_unit]. rewrite Hfull, Hfind.
  destruct (found ++ [digits]) as [| d found'] eqn:Hall; [by destruct found |].
  rewrite <- Hall.
  rewrite (multi_slots_strings (slot0 :: data) _ _ found digits slot) by
    (done || (cbn [st_raw st_offset app]; rewrite length_app, length_fmap; simpl; lia)).
  rewrite shortcut_data_loop_slotless by done.
  cbn [st_raw st_offset st_record app Nat.add]. rewrite Nat.add_0_r.
  rewrite insert_app_r_alt by (by rewrite length_fmap).
  rewrite length_fmap, Nat.sub_diag. cbn [insert list_insert].
  by rewrite (right_id_L ∅ (∪)).
Qed.

End WholeSlots.

Lemma shortcut_data_whole_slots_witness :
  _handle_shortcut_data Samples.sample_ext [VStr "say"; VStr "{%1}"; VObj 7; VStr "{%5}"]
    [VStr "a"; VObj 3; VStr "c"] =
  (inl (unused [VStr "a"; VObj 3; VStr "c"]
          (named Samples.sample_ext [VStr "a"; VObj 3; VStr "c"]
             [VStr "say"; VStr "{%1}"; VObj 7; VStr "{%5}"])),
   filled Samples.sample_ext [VStr "a"; VObj 3; VStr "c"] <$>
     [VStr "say"; VStr "{%1}"; VObj 7; VStr "{%5}"],
   [VStr "a"; VObj 3; VStr "c"]).
Proof.
  apply (shortcut_data_whole_slots Samples.sample_ext
           [VStr "say"; VStr "{%1}"; VObj 7; VStr "{%5}"] [VStr "a"; VObj 3; VStr "c"]).
  - discriminate.
  - repeat apply Forall_cons_2; try apply Forall_nil_2; intros text [= <-];
      first [left; by eexists | right; vm_compute; repeat constructor; discriminate].
Defined.

Lemma shortcut_data_wildcard_witness :
  _handle_shortcut_data Samples.sample_ext ([VStr "say"] ++ VStr "{*,}" :: [VStr "{%0}"])
    [VStr "a"; VStr "b"] =
  (inl [],
   (filled Samples.sample_ext [VStr "a"; VStr "b"] <$> [VStr "say"]) ++
     VStr "{*,}" :: [VStr "{%0}"] ++
     _gen_extend [VStr "a"; VStr "b"] (if String.eqb "," "" then " " else ","),
   []).
Proof.
  apply (shortcut_data_wildcard Samples.sample_ext [VStr "say"] [VStr "{%0}"]
           [VStr "a"; VStr "b"] "{*,}" ",").
  - discriminate.
  - repeat apply Forall_cons_2; try apply Forall_nil_2; intros text [= <-];
      right; vm_compute; repeat constructor; discriminate.
  - reflexivity.
  - reflexivity.
Defined.



Lemma shortcut_data_last_slot_wins_witness :
  _handle_shortcut_data Samples.sample_ext ([] ++ VStr "{%0}-{%1}" :: [VStr "end"])
    [VStr "a"; VStr "b"] =
  (inl (unused [VStr "a"; VStr "b"]
          (list_to_set (int_of_digits <$> ["0"] ++ ["1"]) ∪
             named Samples.sample_ext [VStr "a"; VStr "b"] [])),
   (filled Samples.sample_ext [VStr "a"; VStr "b"] <$> []) ++
     VStr (unescape Samples.sample_ext
             (replace (pct_slot (int_of_digits "1")) "b"
                (escape Samples.sample_ext "{%0}-{%1}")))
     :: [VStr "end"],
   [VStr "a"; VStr "b"]).
Proof.
  apply (shortcut_data_last_slot_wins Samples.sample_ext [] [VStr "end"]
           [VStr "a"; VStr "b"] "{%0}-{%1}" "1" "b" ["0"]).
  - apply Forall_nil_2.
  - repeat apply Forall_cons_2; try apply Forall_nil_2; intros text [= <-];
      vm_compute; repeat constructor; discriminate.
  - vm_compute. reflexivity.
  - vm_compute. reflexivity.
  - repeat apply Forall_cons_2; try apply Forall_nil_2. by exists "a".
  - vm_compute. reflexivity.
Defined.

End ShortcutSlotsFacts.
